(** * HotOffThePRSS: the feed scheduler and its sent-article ledger

    A shallow embedding of [scheduler.py] (the ledger, the webhook sender, the
    per-feed check and the scheduler loop) and of [force_check_feed] from
    [main_web.py], with the properties of the feed-checking subsystem stated
    and proved over it.

    Conventions of the embedding.
    - A Python [str] is a [string], the bytes of its UTF-8 text; [sorted]
      on strings is the ascending lexicographic order [String.le] (on UTF-8
      text the byte order and the code-point order agree); [len] and the
      slices count code points, that is the bytes that do not continue one.
    - A Python [set] of strings is a [gset string]; a [dict] keyed by feed
      identifier is a [gmap string _]; the dict built inside
      [check_single_feed] is an insertion-ordered association list.
    - An aware [datetime] is a [Z], the number of microseconds since the
      epoch, and the string that [isoformat] makes of it is that number; a
      [timedelta] is a [Z] number of microseconds.  Both types have a
      range, and the calls that build them raise outside of it.
    - The files are fields of a [world] record that every function threads;
      what the network and the platform answer is read from an
      [environment].
    - A raised exception is the [Raise] constructor of [outcome].
    - [print] calls write to the console only and are left out. *)

From stdpp Require Import base decidable option list sorting gmap strings pretty.
From Stdlib Require Import ZArith Lia Ascii.

Set Warnings "-abstract-large-number".

Local Open Scope Z_scope.
Local Open Scope string_scope.

(** ** Exceptions and results *)

Inductive exn : Type :=
  | FileNotFoundError
  | OSError
  | YAMLError
  | OverflowError
  | ValueError
  | KeyError
  | TypeError (msg : string).

Inductive outcome (A : Type) : Type :=
  | Ret (a : A)
  | Raise (e : exn).
Arguments Ret {A} a.
Arguments Raise {A} e.

Global Instance exn_eq_dec : EqDecision exn.
Proof. solve_decision. Defined.

(** ** The sent-article ledger ([sent_articles.yaml]) *)

(** What [yaml.safe_load] makes of the ledger file. *)
Inductive yaml_doc : Type :=
  | YamlNull                      (* an empty file: [safe_load] returns [None] *)
  | YamlSeq (ids : list string)   (* a sequence of strings *)
  | YamlCorrupt.                  (* loading it, or building a set from it, raises *)

(** The ledger file: [None] when the file does not exist. *)
Definition ledger_file : Type := option yaml_doc.

(** The operations of [filter_and_update_sent_articles] on the file, in
    program order: those of the [try] block, then those of the
    [FileNotFoundError] handler.  A [fault] names the operation that raises
    an [OSError] in a given call, if any. *)
Inductive io_step : Type :=
  | OpenRW | LockRW | SafeLoad | Truncate | Dump | UnlockRW
  | OpenW | LockW | DumpW | UnlockW.

Global Instance io_step_eq_dec : EqDecision io_step.
Proof. solve_decision. Defined.

Definition fault : Type := option io_step.

Definition fails (flt : fault) (s : io_step) : bool := bool_decide (flt = Some s).

(** The size cap: the literal [10000] of the two slices [[-10000:]]. *)
Definition LEDGER_CAP : nat := 10000.

(** [sorted(xs)] on a list of strings. *)
Definition sorted (xs : list string) : list string := merge_sort String.le xs.

(** The slice [xs[-n:]]: the whole list when it has at most [n] elements. *)
Definition last_n {A} (n : nat) (xs : list A) : list A := drop (length xs - n) xs.

(** [yaml.safe_load(f) or []], [None] when it raises. *)
Definition safe_load_or_empty (doc : yaml_doc) : option (list string) :=
  match doc with
  | YamlNull => Some []
  | YamlSeq ids => Some ids
  | YamlCorrupt => None
  end.

(** The [try] block.  It is left either normally or by an exception; in both
    cases the local variable [new_article_ids] has a value, which is what the
    function returns unless the handler for [FileNotFoundError] runs.  The
    result is that value, the exception that left the block (if any) and the
    file. *)
Definition try_block (flt : fault) (file : ledger_file) (article_ids_to_check : list string)
  : gset string * option exn * ledger_file :=
  let new_article_ids : gset string := ∅ in
  if fails flt OpenRW then (new_article_ids, Some OSError, file) else
  match file with
  | None => (new_article_ids, Some FileNotFoundError, file)
  | Some doc =>
    if fails flt LockRW then (new_article_ids, Some OSError, file) else
    if fails flt SafeLoad then (new_article_ids, Some OSError, file) else
    match safe_load_or_empty doc with
    | None => (new_article_ids, Some YAMLError, file)
    | Some sent_articles_list =>
      let sent_articles_set : gset string := list_to_set sent_articles_list in
      let genuinely_new_ids : gset string :=
        list_to_set article_ids_to_check ∖ sent_articles_set in
      if decide (genuinely_new_ids = ∅) then
        if fails flt UnlockRW then (new_article_ids, Some OSError, file)
        else (new_article_ids, None, file)
      else
        let updated_sent_articles_set := sent_articles_set ∪ genuinely_new_ids in
        let updated_sent_articles_list :=
          last_n LEDGER_CAP (sorted (elements updated_sent_articles_set)) in
        if fails flt Truncate then (new_article_ids, Some OSError, file) else
        (* the file has been emptied by [f.truncate()] *)
        if fails flt Dump then (new_article_ids, Some OSError, Some YamlNull) else
        let file' := Some (YamlSeq updated_sent_articles_list) in
        let new_article_ids := genuinely_new_ids in
        if fails flt UnlockRW then (new_article_ids, Some OSError, file')
        else (new_article_ids, None, file')
    end
  end.

(** The handler [except FileNotFoundError]: an exception raised inside it
    leaves the function. *)
Definition except_FileNotFoundError (flt : fault) (article_ids_to_check : list string)
  : outcome (gset string) * ledger_file :=
  if fails flt OpenW then (Raise OSError, None) else
  (* [open(.., 'w')] has created the file, empty *)
  if fails flt LockW then (Raise OSError, Some YamlNull) else
  let updated_sent_articles_list := last_n LEDGER_CAP (sorted article_ids_to_check) in
  if fails flt DumpW then (Raise OSError, Some YamlNull) else
  let file' := Some (YamlSeq updated_sent_articles_list) in
  if fails flt UnlockW then (Raise OSError, file')
  else (Ret (list_to_set article_ids_to_check), file').

(** [filter_and_update_sent_articles(article_ids_to_check)]. *)
Definition filter_and_update_sent_articles
    (flt : fault) (file : ledger_file) (article_ids_to_check : list string)
  : outcome (gset string) * ledger_file :=
  match try_block flt file article_ids_to_check with
  | (_, Some FileNotFoundError, _) => except_FileNotFoundError flt article_ids_to_check
  | (new_article_ids, _, file') => (Ret new_article_ids, file')   (* normal exit, or [except Exception] *)
  end.

(** The identifiers a ledger file holds. *)
Definition ledger_list (file : ledger_file) : list string :=
  match file with
  | Some (YamlSeq ids) => ids
  | _ => []
  end.

Definition ledger_ids (file : ledger_file) : gset string := list_to_set (ledger_list file).

(** A ledger file that is missing, or that exists and loads. *)
Definition readable (file : ledger_file) : Prop := file ≠ Some YamlCorrupt.

(** ** Feed entries, feed definitions and check state *)

(** A [time.struct_time], compared as the tuple of its fields. *)
Definition struct_time : Type := list Z.

(** An entry of a parsed feed: the fields the scheduler reads with
    [entry.get], [None] for a missing key. *)
Record entry : Type := {
  entry_id : option string;
  entry_link : option string;
  entry_title : option string;
  entry_summary : option string;
  published_parsed : option struct_time;
}.

(** The result of [feedparser.parse]: the fields [status] and [entries]. *)
Record feed_data : Type := {
  status : option Z;
  entries : list entry;
}.

Record webhook : Type := {
  webhook_url : option string;
  webhook_label : option string;
}.

(** A feed definition of [config.json]. *)
Record feed_config : Type := {
  feed_id : option string;
  feed_url : option string;
  feed_name : option string;
  webhooks : list webhook;          (* [[]] when the key is missing *)
  update_interval : option Z;       (* seconds *)
  active : option bool;
}.

(** The payload of a notification. *)
Record embed : Type := {
  embed_title : string;
  embed_url : string;
  embed_description : string;
  embed_color : Z;
  embed_footer : string;
}.

(** One entry of [feed_state.json].  [last_checked] is the instant that the
    stored string stands for; an instant that no [datetime] holds stands for
    a string that [datetime.fromisoformat] refuses. *)
Record check_state : Type := {
  status_code : option Z;
  last_checked : option Z;
  last_post : option (string * Z);
}.

Definition empty_check_state : check_state :=
  {| status_code := None; last_checked := None; last_post := None |}.

(** What [requests.post] answers. *)
Inductive post_result : Type :=
  | Response (code : Z) (text : string)
  | RequestException.

(** The files and the traffic.  [feed_state_file] is [None] for a file that
    is missing, empty or not valid JSON: [load_feed_state] reads all three as
    the empty dict. *)
Record world : Type := {
  config_feeds : list feed_config;
  sent_articles_file : ledger_file;
  feed_state_file : option (gmap string check_state);
  posted : list (string * embed);     (* the calls of [requests.post], oldest first *)
  fetched : list (option string);     (* the calls of [feedparser.parse], oldest first *)
}.

Definition set_sent_articles_file (f : ledger_file) (w : world) : world :=
  {| config_feeds := config_feeds w; sent_articles_file := f;
     feed_state_file := feed_state_file w; posted := posted w; fetched := fetched w |}.

Definition set_feed_state_file (s : option (gmap string check_state)) (w : world) : world :=
  {| config_feeds := config_feeds w; sent_articles_file := sent_articles_file w;
     feed_state_file := s; posted := posted w; fetched := fetched w |}.

Definition add_posted (p : string * embed) (w : world) : world :=
  {| config_feeds := config_feeds w; sent_articles_file := sent_articles_file w;
     feed_state_file := feed_state_file w; posted := (posted w ++ [p])%list; fetched := fetched w |}.

Definition add_fetched (u : option string) (w : world) : world :=
  {| config_feeds := config_feeds w; sent_articles_file := sent_articles_file w;
     feed_state_file := feed_state_file w; posted := posted w; fetched := (fetched w ++ [u])%list |}.

(** What the outside answers during one scan or one check. *)
Record environment : Type := {
  (* [feedparser.parse(feed_url, ...)] *)
  feedparser_parse : option string → feed_data;
  (* [datetime.fromtimestamp(time.mktime(t)).replace(tzinfo=timezone.utc)],
     [None] when it raises *)
  mktime_fromtimestamp : struct_time → option Z;
  (* [re.sub('<[^<]+?>', '', s).strip()] *)
  strip_tags : string → string;
  (* [requests.post(url, json={"embeds": [embed]}, ...)], given the number of
     posts made before *)
  requests_post : nat → string → embed → post_result;
  (* the ledger operation that fails while this feed is checked *)
  ledger_fault : option string → fault;
  (* [datetime.now(timezone.utc)]; the time that passes inside one scan is
     not modelled *)
  datetime_now : Z;
}.

Definition timedelta_hours (h : Z) : Z := h * 3600 * 1000000.

(** [timedelta(seconds=s)]: a [timedelta] holds at most 999999999 days, on
    either side of zero. *)
Definition timedelta_seconds (s : Z) : outcome Z :=
  if bool_decide (-999999999 ≤ s `div` 86400 ≤ 999999999)%Z then Ret (s * 1000000)
  else Raise OverflowError.

(** The instants that a [datetime] holds: from the first microsecond of the
    year 1 to the last of the year 9999. *)
Definition MIN_DATETIME : Z := -62135596800000000.
Definition MAX_DATETIME : Z := 253402300799999999.

(** [datetime.fromisoformat(s)], for the stored string that stands for the
    instant [t]. *)
Definition fromisoformat (t : Z) : outcome Z :=
  if bool_decide (MIN_DATETIME ≤ t ≤ MAX_DATETIME)%Z then Ret t else Raise ValueError.

(** [load_feed_state()] and [save_feed_state(state_data)]. *)
Definition load_feed_state (w : world) : gmap string check_state :=
  default ∅ (feed_state_file w).

Definition save_feed_state (state_data : gmap string check_state) (w : world) : world :=
  set_feed_state_file (Some state_data) w.

(** ** [send_to_webhook] *)

Definition send_to_webhook (env : environment) (w : world) (url : string) (e : embed)
  : string * world :=
  let response := requests_post env (length (posted w)) url e in
  let w := add_posted (url, e) w in
  match response with
  | Response code _ =>
    if bool_decide (code ∈ [200; 204]) then ("Success", w)
    else if bool_decide (code = 429) then ("Rate Limited", w)
    else ("Error: " +:+ pretty code, w)
  | RequestException => ("Failed to Connect", w)
  end.

(** ** [check_single_feed] *)

(** Truth value of a string read with [.get]: [None] and [''] are false. *)
Definition truthy (s : option string) : option string :=
  match s with
  | Some s => if decide (s = "") then None else Some s
  | None => None
  end.

(** [entry.get('id') or entry.get('link')], when that is true. *)
Definition candidate_id (e : entry) : option string :=
  match truthy (entry_id e) with
  | Some k => Some k
  | None => truthy (entry_link e)
  end.

(** The loop that collects [recent_articles]. *)
Fixpoint recent_articles (env : environment) (twenty_four_hours_ago : Z) (es : list entry)
  : outcome (list entry) :=
  match es with
  | [] => Ret []
  | e :: es =>
    match published_parsed e with
    | Some ((_ :: _) as published_time) =>
      match mktime_fromtimestamp env published_time with
      | None => Raise OverflowError
      | Some published_dt =>
        match recent_articles env twenty_four_hours_ago es with
        | Ret rest =>
          Ret (if bool_decide (twenty_four_hours_ago ≤ published_dt)%Z then e :: rest else rest)
        | Raise x => Raise x
        end
      end
    | _ => recent_articles env twenty_four_hours_ago es
    end
  end.

(** Order on tuples of integers. *)
Fixpoint tuple_leb (a b : list Z) : bool :=
  match a, b with
  | [], _ => true
  | _ :: _, [] => false
  | x :: a, y :: b =>
    if (x <? y)%Z then true else if (y <? x)%Z then false else tuple_leb a b
  end.

(** [list.sort(key=..)]: a stable sort, here by insertion; [le x y] says that
    [x] may stand before [y]. *)
Fixpoint insert_sorted {A} (le : A → A → bool) (x : A) (l : list A) : list A :=
  match l with
  | [] => [x]
  | y :: l' => if le x y then x :: l else y :: insert_sorted le x l'
  end.

Definition stable_sort {A} (le : A → A → bool) (l : list A) : list A :=
  foldr (insert_sorted le) [] l.

(** The sort key [x.get('published_parsed', (0,)*9)]. *)
Definition published_key (e : entry) : struct_time :=
  default (replicate 9 0) (published_parsed e).

Definition sort_newest_first : list entry → list entry :=
  stable_sort (λ x y, tuple_leb (published_key y) (published_key x)).

Definition sort_oldest_first : list entry → list entry :=
  stable_sort (λ x y, tuple_leb (published_key x) (published_key y)).

(** A Python dict from identifiers to entries: keys stay in the order of
    their first insertion, a later value replaces an earlier one. *)
Definition dict : Type := list (string * entry).

Fixpoint dict_set (k : string) (v : entry) (d : dict) : dict :=
  match d with
  | [] => [(k, v)]
  | (k', v') :: d' => if decide (k = k') then (k, v) :: d' else (k', v') :: dict_set k v d'
  end.

Fixpoint dict_get (k : string) (d : dict) : option entry :=
  match d with
  | [] => None
  | (k', v') :: d' => if decide (k = k') then Some v' else dict_get k d'
  end.

Definition dict_keys (d : dict) : list string := d.*1.

(** The dict comprehension [article_id_map]. *)
Definition article_id_map (recent : list entry) : dict :=
  foldl (λ d e, match candidate_id e with Some k => dict_set k e d | None => d end) [] recent.

(** [[article_id_map[id] for id in newly_found_ids]]; a set is iterated in
    the order of [elements]. *)
Fixpoint lookup_all (d : dict) (ids : list string) : outcome (list entry) :=
  match ids with
  | [] => Ret []
  | k :: ids =>
    match dict_get k d with
    | None => Raise KeyError
    | Some e =>
      match lookup_all d ids with
      | Ret es => Ret (e :: es)
      | Raise x => Raise x
      end
    end
  end.

(** The branch on [is_initial_check]: the ledger is updated and the list
    [articles_to_post] chosen.  [recent] is sorted newest first. *)
Definition articles_to_post (env : environment) (w : world) (fc : feed_config)
    (recent : list entry) : outcome (list entry) * world :=
  let id_map := article_id_map recent in
  let feed_state := load_feed_state w in
  let is_initial_check :=
    match feed_id fc with
    | Some i => bool_decide (feed_state !! i = None)
    | None => true
    end in
  let '(r, file') :=
    filter_and_update_sent_articles (ledger_fault env (feed_url fc))
      (sent_articles_file w) (dict_keys id_map) in
  let w := set_sent_articles_file file' w in
  match r with
  | Raise x => (Raise x, w)
  | Ret newly_found_ids =>
    if is_initial_check then (Ret (take 1 recent), w)
    else (lookup_all id_map (elements newly_found_ids), w)
  end.

(** A byte [10xxxxxx] continues a code point of UTF-8 text. *)
Definition is_continuation (c : ascii) : bool :=
  match c with
  | Ascii _ _ _ _ _ _ b6 b7 => b7 && negb b6
  end.

(** [len(s)]: the number of code points of [s]. *)
Fixpoint len (s : string) : nat :=
  match s with
  | EmptyString => 0
  | String c s => if is_continuation c then len s else S (len s)
  end.

(** The slice [s[:n]]: the first [n] code points of [s]. *)
Fixpoint slice_to (n : nat) (s : string) : string :=
  match s with
  | EmptyString => EmptyString
  | String c rest =>
    if is_continuation c then String c (slice_to n rest)
    else match n with
         | O => EmptyString
         | S n => String c (slice_to n rest)
         end
  end.

(** The notification built for an entry. *)
Definition make_embed (env : environment) (fc : feed_config) (e : entry) : embed :=
  let title := default "No Title" (entry_title e) in
  let link := default "" (entry_link e) in
  let summary := strip_tags env (default "No summary available." (entry_summary e)) in
  let summary :=
    if bool_decide (250 < len summary)%nat
    then slice_to 247 summary +:+ "..." else summary in
  {| embed_title := title; embed_url := link; embed_description := summary;
     embed_color := 5814783;
     embed_footer :=
       "From: " +:+ default (default "None" (feed_url fc)) (feed_name fc) |}.

(** The inner loop over the webhooks of the feed. *)
Fixpoint post_to_webhooks (env : environment) (e : embed) (whs : list webhook)
    (last_post_status : option string) (w : world) : option string * world :=
  match whs with
  | [] => (last_post_status, w)
  | wh :: whs =>
    match truthy (webhook_url wh) with
    | Some url =>
      let '(s, w) := send_to_webhook env w url e in
      post_to_webhooks env e whs (Some s) w
    | None => post_to_webhooks env e whs last_post_status w
    end
  end.

(** The outer loop over the entries to post. *)
Fixpoint post_articles (env : environment) (fc : feed_config) (es : list entry)
    (last_post_status : option string) (w : world) : option string * world :=
  match es with
  | [] => (last_post_status, w)
  | e :: es =>
    let '(s, w) := post_to_webhooks env (make_embed env fc e) (webhooks fc) last_post_status w in
    post_articles env fc es s w
  end.

(** [check_single_feed(feed_config)]. *)
Definition check_single_feed (env : environment) (w : world) (fc : feed_config)
  : outcome (Z * option string) * world :=
  let feed_data := feedparser_parse env (feed_url fc) in
  let w := add_fetched (feed_url fc) w in
  let status_code := default 500 (status feed_data) in
  let last_post_status : option string := None in
  match entries feed_data with
  | [] => (Ret (status_code, last_post_status), w)
  | _ :: _ =>
    let now := datetime_now env in
    let twenty_four_hours_ago := now - timedelta_hours 24 in
    match recent_articles env twenty_four_hours_ago (entries feed_data) with
    | Raise x => (Raise x, w)
    | Ret [] => (Ret (status_code, last_post_status), w)
    | Ret recent =>
      let recent := sort_newest_first recent in
      match articles_to_post env w fc recent with
      | (Raise x, w) => (Raise x, w)
      | (Ret to_post, w) =>
        let '(last_post_status, w) :=
          post_articles env fc (sort_oldest_first to_post) last_post_status w in
        (Ret (status_code, last_post_status), w)
      end
    end
  end.

(** ** [FeedScheduler.run] *)

(** The test [should_check] of the loop of [run].  It is made outside the
    [try]: an exception of [datetime.fromisoformat] or of [timedelta] leaves
    [run]. *)
Definition should_check (now : Z) (last_checked_str : option Z) (update_interval : Z)
  : outcome bool :=
  match last_checked_str with
  | Some last_checked_str =>
    match fromisoformat last_checked_str with
    | Raise x => Raise x
    | Ret last_checked =>
      match timedelta_seconds update_interval with
      | Raise x => Raise x
      | Ret interval => Ret (negb (bool_decide (now - last_checked < interval)%Z))
      end
    end
  | None => Ret true
  end.

(** The body of the [for] loop of [run] for one feed definition.
    [feed_state] is the dict loaded at the start of the scan, which the loop
    updates in place and saves whole.  The result is the dict after the
    step, or the exception that leaves [run], and the world at that
    moment. *)
Definition scan_feed (env : environment) (feed_state : gmap string check_state)
    (w : world) (fc : feed_config) : outcome (gmap string check_state) * world :=
  let now := datetime_now env in
  match truthy (feed_id fc) with
  | None => (Ret feed_state, w)                     (* [continue] *)
  | Some fid =>
    let last_checked_str := feed_state !! fid ≫= last_checked in
    let update_interval := default 300 (update_interval fc) in
    match should_check now last_checked_str update_interval with
    | Raise x => (Raise x, w)
    | Ret false => (Ret feed_state, w)
    | Ret true =>
      let feed_state :=
        if decide (feed_state !! fid = None) then <[fid := empty_check_state]> feed_state
        else feed_state in
      match check_single_feed env w fc with
      | (Ret (code, last_post_status), w) =>
        let old := default empty_check_state (feed_state !! fid) in
        let new :=
          {| status_code := Some code;
             last_checked := Some now;
             last_post :=
               match truthy last_post_status with
               | Some s => Some (s, now)
               | None => last_post old
               end |} in
        let feed_state := <[fid := new]> feed_state in
        (Ret feed_state, save_feed_state feed_state w)
      | (Raise _, w) => (Ret feed_state, w)         (* [except Exception]: logged *)
      end
    end
  end.

(** The [for] loop over the feed definitions: it goes on to the next feed
    unless an exception leaves it. *)
Fixpoint scan_feeds (env : environment) (feed_state : gmap string check_state)
    (w : world) (feeds : list feed_config) : outcome (gmap string check_state) * world :=
  match feeds with
  | [] => (Ret feed_state, w)
  | fc :: feeds =>
    match scan_feed env feed_state w fc with
    | (Ret feed_state, w) => scan_feeds env feed_state w feeds
    | (Raise x, w) => (Raise x, w)
    end
  end.

(** One turn of the [while True] loop: [Raise] when an exception leaves the
    loop, and with it [run]. *)
Definition scan (env : environment) (w : world) : outcome () * world :=
  match scan_feeds env (load_feed_state w) w (config_feeds w) with
  | (Ret _, w) => (Ret (), w)
  | (Raise x, w) => (Raise x, w)
  end.

(** The loop itself ends by an exception only; [run envs w] is the world
    after as many turns as there are environments in [envs], or at the
    exception that ended the loop before. *)
Fixpoint run (envs : list environment) (w : world) : outcome () * world :=
  match envs with
  | [] => (Ret (), w)
  | env :: envs =>
    match scan env w with
    | (Ret _, w) => run envs w
    | (Raise x, w) => (Raise x, w)
    end
  end.

(** ** [force_check_feed] of [main_web.py] *)

(** A value passed at a call site of [check_single_feed] beyond the feed
    definition. *)
Inductive py_value : Type :=
  | PyFeedState (st : gmap string check_state).

(** Calling the function [check_single_feed(feed_config)] of [scheduler.py]
    with [fc] and the positional arguments [extra] after it: Python binds
    one argument and refuses any other. *)
Definition call_check_single_feed (env : environment) (w : world) (fc : feed_config)
    (extra : list py_value) : outcome (Z * option string) * world :=
  match extra with
  | [] => check_single_feed env w fc
  | _ :: _ =>
    (Raise (TypeError ("check_single_feed() takes 1 positional argument but "
                       +:+ pretty (S (length extra)) +:+ " were given")), w)
  end.

(** [next((f for f in config['FEEDS'] if f['id'] == feed_id), None)]. *)
Fixpoint find_feed (fid : string) (feeds : list feed_config) : outcome (option feed_config) :=
  match feeds with
  | [] => Ret None
  | f :: feeds =>
    match feed_id f with
    | None => Raise KeyError
    | Some i => if decide (i = fid) then Ret (Some f) else find_feed fid feeds
    end
  end.

(** The message shown to the user. *)
Inductive flash : Type :=
  | FeedNotFound
  | CheckedSuccessfully (code : Z)
  | ErrorCheckingFeed (e : exn).

Definition force_check_feed (env : environment) (w : world) (fid : string)
  : outcome flash * world :=
  match find_feed fid (config_feeds w) with
  | Raise x => (Raise x, w)
  | Ret None => (Ret FeedNotFound, w)
  | Ret (Some fc) =>
    let current_state := load_feed_state w in
    match call_check_single_feed env w fc [PyFeedState current_state] with
    | (Ret (code, last_post_status), w) =>
      let now := datetime_now env in
      let current_state :=
        if decide (current_state !! fid = None) then <[fid := empty_check_state]> current_state
        else current_state in
      let old := default empty_check_state (current_state !! fid) in
      let new :=
        {| status_code := Some code;
           last_checked := Some now;
           last_post :=
             match truthy last_post_status with
             | Some s => Some (s, now)
             | None => last_post old
             end |} in
      let current_state := <[fid := new]> current_state in
      (Ret (CheckedSuccessfully code), save_feed_state current_state w)
    | (Raise x, w) => (Ret (ErrorCheckingFeed x), w)   (* [except Exception] *)
    end
  end.

(** ** Two callers of the ledger *)

(** A call of [filter_and_update_sent_articles] seen from another process.
    The [try] block reads and writes under the exclusive lock, so it is one
    step; a caller that found no file runs its handler in a later step. *)
Inductive caller : Type :=
  | Calling (flt : fault) (ids : list string)
  | Handling (flt : fault) (ids : list string)
  | Returned (r : outcome (gset string)).

Definition caller_step (c : caller) (file : ledger_file) : caller * ledger_file :=
  match c with
  | Calling flt ids =>
    match try_block flt file ids with
    | (_, Some FileNotFoundError, file') => (Handling flt ids, file')
    | (new_article_ids, _, file') => (Returned (Ret new_article_ids), file')
    end
  | Handling flt ids =>
    let '(r, file') := except_FileNotFoundError flt ids in (Returned r, file')
  | Returned _ => (c, file)
  end.

(** A schedule says which of the two callers takes each step: [false] the
    first, [true] the second. *)
Fixpoint interleave (schedule : list bool) (c1 c2 : caller) (file : ledger_file)
  : caller * caller * ledger_file :=
  match schedule with
  | [] => (c1, c2, file)
  | false :: schedule =>
    let '(c1, file) := caller_step c1 file in interleave schedule c1 c2 file
  | true :: schedule =>
    let '(c2, file) := caller_step c2 file in interleave schedule c1 c2 file
  end.

(** ** A platform for examples *)

(** Days from 1970-01-01 to a date of the proleptic Gregorian calendar. *)
Definition days_from_civil (y m d : Z) : Z :=
  let y := if (m <=? 2)%Z then y - 1 else y in
  let era := y / 400 in
  let yoe := y - era * 400 in
  let doy := (153 * (if (2 <? m)%Z then m - 3 else m + 9) + 2) / 5 + d - 1 in
  let doe := yoe * 365 + yoe / 4 - yoe / 100 + doy in
  era * 146097 + doe - 719468.

(** The conversion of a [struct_time] on a machine whose local zone has a
    fixed offset: [mktime] and [fromtimestamp] cancel, and the fields are
    read as a UTC date and time. *)
Definition timegm (t : struct_time) : option Z :=
  match t with
  | y :: mo :: d :: h :: mi :: s :: _ =>
    Some ((((days_from_civil y mo d * 24 + h) * 60 + mi) * 60 + s) * 1000000)
  | _ => None
  end.


(** ** Notions used in the statements *)

(** The endpoints of a feed that [check_single_feed] posts to. *)
Definition webhook_urls (fc : feed_config) : list string :=
  omap (λ wh, truthy (webhook_url wh)) (webhooks fc).

(** The posts made for a list of entries: each entry in turn, to each
    endpoint in turn. *)
Definition posts_of (env : environment) (fc : feed_config) (es : list entry)
  : list (string * embed) :=
  e ← es; (λ u, (u, make_embed env fc e)) <$> webhook_urls fc.

(** An entry with a publish time that converts to a moment not before
    [since]. *)
Definition published_since (env : environment) (since : Z) (e : entry) : Prop :=
  ∃ t dt, published_parsed e = Some t
          ∧ mktime_fromtimestamp env t = Some dt ∧ (since ≤ dt)%Z.

(** The feed has no entry in the check-state file. *)
Definition is_first_check (w : world) (fc : feed_config) : Prop :=
  match feed_id fc with
  | Some i => load_feed_state w !! i = None
  | None => True
  end.

(** The environment that differs in that a fetch without a status carries
    the status 500. *)
Definition explicit_500 (env : environment) : environment :=
  {| feedparser_parse := λ u,
       {| status := Some (default 500 (status (feedparser_parse env u)));
          entries := entries (feedparser_parse env u) |};
     mktime_fromtimestamp := mktime_fromtimestamp env;
     strip_tags := strip_tags env;
     requests_post := requests_post env;
     ledger_fault := ledger_fault env;
     datetime_now := datetime_now env |}.

(** The feed definition with another [active] flag. *)
Definition set_active (a : option bool) (fc : feed_config) : feed_config :=
  {| feed_id := feed_id fc; feed_url := feed_url fc; feed_name := feed_name fc;
     webhooks := webhooks fc; update_interval := update_interval fc; active := a |}.

(** ** Inputs for examples *)

(** A ledger at the cap: the 10000 identifiers [b0], [b1], ..., [b9999]. *)
Definition full_ledger : list string := (λ i : nat, String "b"%char (pretty i)) <$> seq 0 LEDGER_CAP.

(** 10001 candidate identifiers. *)
Definition many_candidates : list string :=
  (λ i : nat, String "b"%char (pretty i)) <$> seq 0 (S LEDGER_CAP).

(** An environment in which nothing is published, every post is answered
    with [answer], no ledger operation fails and the clock shows [now]. *)
Definition quiet_environment (answer : post_result) (now : Z) : environment :=
  {| feedparser_parse := λ _, {| status := Some 200; entries := [] |};
     mktime_fromtimestamp := timegm;
     strip_tags := λ s, s;
     requests_post := λ _ _ _, answer;
     ledger_fault := λ _, None;
     datetime_now := now |}.

Definition empty_world : world :=
  {| config_feeds := []; sent_articles_file := None; feed_state_file := None;
     posted := []; fetched := [] |}.

Definition sample_embed : embed :=
  {| embed_title := "t"; embed_url := "l"; embed_description := "d";
     embed_color := 5814783; embed_footer := "From: f" |}.

(** A feed with one endpoint. *)
Definition sample_feed : feed_config :=
  {| feed_id := Some "feed"; feed_url := Some "http://feed";
     feed_name := Some "Feed";
     webhooks := [{| webhook_url := Some "hook"; webhook_label := None |}];
     update_interval := Some 300; active := Some true |}.

(** An entry with the identifier [k], published at [t]. *)
Definition entry_at (k : string) (t : struct_time) : entry :=
  {| entry_id := Some k; entry_link := Some ("http://feed/" +:+ k);
     entry_title := Some k; entry_summary := None; published_parsed := Some t |}.

(** An environment in which every fetch answers 200 with the entries [es],
    every post is answered 204, the ledger operation [flt] fails and the
    clock shows noon of 2 January 2024. *)
Definition sample_environment (es : list entry) (flt : fault) : environment :=
  {| feedparser_parse := λ _, {| status := Some 200; entries := es |};
     mktime_fromtimestamp := timegm;
     strip_tags := λ s, s;
     requests_post := λ _ _ _, Response 204 "";
     ledger_fault := λ _, flt;
     datetime_now := 1704196800000000 |}.

Definition eleven_oclock : struct_time := [2024; 1; 2; 11; 0; 0; 1; 2; 0].
Definition ten_oclock : struct_time := [2024; 1; 2; 10; 0; 0; 1; 2; 0].

(** A world in which the ledger file exists and does not load. *)
Definition corrupt_ledger_world : world :=
  {| config_feeds := [sample_feed]; sent_articles_file := Some YamlCorrupt;
     feed_state_file := None; posted := []; fetched := [] |}.

(** The same, after [sample_feed] has been checked once. *)
Definition corrupt_ledger_checked_world : world :=
  {| config_feeds := [sample_feed]; sent_articles_file := Some YamlCorrupt;
     feed_state_file :=
       Some {[ "feed" := {| status_code := Some 200; last_checked := Some 0;
                           last_post := None |} ]};
     posted := []; fetched := [] |}.

(** An environment in which no fetch gets an answer: the parsed result has
    no status and no entries. *)
Definition unreachable_environment : environment :=
  {| feedparser_parse := λ _, {| status := None; entries := [] |};
     mktime_fromtimestamp := timegm;
     strip_tags := λ s, s;
     requests_post := λ _ _ _, RequestException;
     ledger_fault := λ _, None;
     datetime_now := 1704196800000000 |}.

(** [sample_feed], paused from the dashboard. *)
Definition paused_feed : feed_config := set_active (Some false) sample_feed.

(** A fresh installation with one feed configured. *)
Definition world_with (fc : feed_config) : world :=
  {| config_feeds := [fc]; sent_articles_file := Some (YamlSeq []);
     feed_state_file := None; posted := []; fetched := [] |}.


Definition morning_environment : environment :=
  sample_environment [entry_at "x" eleven_oclock] None.

Definition two_entries_environment : environment :=
  sample_environment [entry_at "x" ten_oclock; entry_at "y" eleven_oclock] None.



(** Half past eleven of the day before: 24 hours and 30 minutes before the
    noon of [sample_environment]. *)
Definition yesterday_half_past_eleven : struct_time := [2024; 1; 1; 11; 30; 0; 0; 1; 0].

(** A machine on which daylight saving time is in effect.  The publish time
    that feedparser gives has [tm_isdst = 0], so [mktime] reads it as
    standard time and [fromtimestamp] shows the result one hour later. *)
Definition daylight_saving_environment : environment :=
  {| feedparser_parse := λ _,
       {| status := Some 200; entries := [entry_at "x" yesterday_half_past_eleven] |};
     mktime_fromtimestamp := λ t, (λ u, u + timedelta_hours 1) <$> timegm t;
     strip_tags := λ s, s;
     requests_post := λ _ _ _, Response 204 "";
     ledger_fault := λ _, None;
     datetime_now := 1704196800000000 |}.

(** ** Further notions used in the statements *)

(** The classification that [send_to_webhook] makes of an answer. *)
Definition classify (r : post_result) : string :=
  match r with
  | Response code _ =>
    if bool_decide (code ∈ [200; 204]) then "Success"
    else if bool_decide (code = 429) then "Rate Limited"
    else "Error: " +:+ pretty code
  | RequestException => "Failed to Connect"
  end.

(** The delivery outcome after the posts [ps] have been made, the first of
    them being the post number [n], when it was [s] before: the
    classification of the answer to the last of them. *)
Definition last_status (env : environment) (n : nat) (s : option string)
    (ps : list (string * embed)) : option string :=
  match last ps with
  | Some (url, e) => Some (classify (requests_post env (n + length ps - 1) url e))
  | None => s
  end.

(** A world in which [sample_feed] has been checked before and the ledger
    holds the identifier [x]. *)
Definition checked_world : world :=
  {| config_feeds := [sample_feed]; sent_articles_file := Some (YamlSeq ["x"]);
     feed_state_file :=
       Some {[ "feed" := {| status_code := Some 200; last_checked := Some 0;
                           last_post := None |} ]};
     posted := []; fetched := [] |}.

(** [sample_feed] with an endpoint whose URL is empty. *)
Definition mute_feed : feed_config :=
  {| feed_id := Some "feed"; feed_url := Some "http://feed";
     feed_name := Some "Feed";
     webhooks := [{| webhook_url := Some ""; webhook_label := Some "later" |}];
     update_interval := Some 300; active := Some true |}.

(** The test [should_check] of the scheduler on the state [feed_state] is
    made and answers true. *)
Definition is_due (env : environment) (feed_state : gmap string check_state)
    (fc : feed_config) (fid : string) : Prop :=
  should_check (datetime_now env) (feed_state !! fid ≫= last_checked)
    (default 300 (update_interval fc)) = Ret true.

(** A conversion of publish times that raises for a year that a [datetime]
    cannot hold. *)
Definition bounded_timegm (t : struct_time) : option Z :=
  match t with
  | y :: _ => if bool_decide (1 ≤ y ≤ 9999)%Z then timegm t else None
  | [] => None
  end.

(** A second feed, and an environment in which the fetch of [sample_feed]
    yields an entry dated in the year 10000 and the fetch of any other feed
    yields an entry of eleven o'clock. *)
Definition other_feed : feed_config :=
  {| feed_id := Some "other"; feed_url := Some "http://other";
     feed_name := Some "Other";
     webhooks := [{| webhook_url := Some "hook"; webhook_label := None |}];
     update_interval := Some 300; active := Some true |}.

Definition year_10000_environment : environment :=
  {| feedparser_parse := λ u,
       if decide (u = Some "http://feed")
       then {| status := Some 200;
               entries := [entry_at "far" [10000; 1; 1; 0; 0; 0; 5; 1; 0]] |}
       else {| status := Some 200; entries := [entry_at "x" eleven_oclock] |};
     mktime_fromtimestamp := bounded_timegm;
     strip_tags := λ s, s;
     requests_post := λ _ _ _, Response 204 "";
     ledger_fault := λ _, None;
     datetime_now := 1704196800000000 |}.

Definition two_feeds_world : world :=
  {| config_feeds := [sample_feed; other_feed]; sent_articles_file := Some (YamlSeq []);
     feed_state_file := None; posted := []; fetched := [] |}.

(** The state that the scheduler records for a feed after a check that
    returned [code] and [last_post_status], when the state of the feed was
    [old]. *)
Definition recorded_state (env : environment) (old : check_state) (code : Z)
    (last_post_status : option string) : check_state :=
  {| status_code := Some code;
     last_checked := Some (datetime_now env);
     last_post :=
       match truthy last_post_status with
       | Some s => Some (s, datetime_now env)
       | None => last_post old
       end |}.

(** [sample_feed] with an interval that no [timedelta] holds. *)
Definition huge_interval_feed : feed_config :=
  {| feed_id := Some "feed"; feed_url := Some "http://feed";
     feed_name := Some "Feed";
     webhooks := [{| webhook_url := Some "hook"; webhook_label := None |}];
     update_interval := Some 100000000000000; active := Some true |}.

(** [n] copies of a string, and an entry whose summary has 126 characters
    of two bytes each. *)
Fixpoint string_repeat (n : nat) (s : string) : string :=
  match n with
  | O => ""
  | S n => s +:+ string_repeat n s
  end.

Definition accented_entry : entry :=
  {| entry_id := Some "x"; entry_link := Some "http://feed/x";
     entry_title := Some "x"; entry_summary := Some (string_repeat 126 "é");
     published_parsed := Some eleven_oclock |}.

(** [two_entries_environment] five minutes and one minute later. *)
Definition one_minute_later : environment :=
  {| feedparser_parse := feedparser_parse two_entries_environment;
     mktime_fromtimestamp := timegm;
     strip_tags := λ s, s;
     requests_post := λ _ _ _, Response 204 "";
     ledger_fault := λ _, None;
     datetime_now := 1704196800000000 + 60000000 |}.

(** A world whose check-state file holds the state of a feed that is no
    longer configured. *)
Definition world_after_delete : world :=
  {| config_feeds := [sample_feed]; sent_articles_file := Some (YamlSeq []);
     feed_state_file :=
       Some {[ "gone" := {| status_code := Some 200; last_checked := Some 0;
                           last_post := Some ("Success", 0) |} ]};
     posted := []; fetched := [] |}.

(** ** The feed routes of the dashboard ([main_web.py]) *)

(** [save_config(config)], for a config whose [FEEDS] are [feeds]. *)
Definition save_config (feeds : list feed_config) (w : world) : world :=
  {| config_feeds := feeds; sent_articles_file := sent_articles_file w;
     feed_state_file := feed_state_file w; posted := posted w; fetched := fetched w |}.

(** The message that a feed route flashes. *)
Inductive notice : Type :=
  | FeedMissing                 (* 'Feed not found.' *)
  | FeedPaused                  (* 'Feed paused.' *)
  | FeedResumed                 (* 'Feed resumed.' *)
  | FeedDeleted (url : string)  (* 'Feed "<url>" deleted.' *)
  | FeedAdded (url : string)    (* 'Feed "<url>" added successfully!' *)
  | FeedUpdated.                (* 'Feed updated successfully!' *)

(** [feed.get('active', True)]. *)
Definition effective_active (fc : feed_config) : bool := default true (active fc).

(** The loop of [toggle_pause_feed]: the feeds after the first one with the
    identifier has been switched, and the flag that it had; [None] when no
    feed has the identifier.  [feed['id']] raises for a feed without one. *)
Fixpoint toggle_first (fid : string) (feeds : list feed_config)
  : outcome (option (list feed_config * bool)) :=
  match feeds with
  | [] => Ret None
  | feed :: rest =>
    match feed_id feed with
    | None => Raise KeyError
    | Some i =>
      if decide (i = fid) then
        let current_status := effective_active feed in
        Ret (Some (set_active (Some (negb current_status)) feed :: rest, current_status))
      else
        match toggle_first fid rest with
        | Ret (Some (rest', current_status)) => Ret (Some (feed :: rest', current_status))
        | Ret None => Ret None
        | Raise x => Raise x
        end
    end
  end.

Definition toggle_pause_feed (w : world) (fid : string) : outcome notice * world :=
  match toggle_first fid (config_feeds w) with
  | Raise x => (Raise x, w)
  | Ret None => (Ret FeedMissing, w)
  | Ret (Some (feeds, current_status)) =>
    (Ret (if current_status then FeedPaused else FeedResumed), save_config feeds w)
  end.

(** [[feed for feed in config['FEEDS'] if feed['id'] != feed_id]]. *)
Fixpoint without_feed (fid : string) (feeds : list feed_config) : outcome (list feed_config) :=
  match feeds with
  | [] => Ret []
  | feed :: rest =>
    match feed_id feed with
    | None => Raise KeyError
    | Some i =>
      match without_feed fid rest with
      | Ret rest' => Ret (if decide (i = fid) then rest' else feed :: rest')
      | Raise x => Raise x
      end
    end
  end.

(** [delete_feed(feed_id)].  The message needs [feed_to_delete["url"]],
    after the configuration has been saved. *)
Definition delete_feed (w : world) (fid : string) : outcome notice * world :=
  match find_feed fid (config_feeds w) with
  | Raise x => (Raise x, w)
  | Ret None => (Ret FeedMissing, w)
  | Ret (Some feed_to_delete) =>
    match without_feed fid (config_feeds w) with
    | Raise x => (Raise x, w)
    | Ret feeds =>
      let w := save_config feeds w in
      match feed_url feed_to_delete with
      | Some url => (Ret (FeedDeleted url), w)
      | None => (Raise KeyError, w)
      end
    end
  end.

(** The fields of the form of [add_feed] and [edit_feed].  The interval is
    the integer that [int(request.form['update_interval'])] yields; a field
    that does not convert is not an input of this model. *)
Record feed_form : Type := {
  form_name : string;
  form_url : string;
  form_webhook_urls : list string;     (* [request.form.getlist('webhook_url')] *)
  form_webhook_labels : list string;   (* [request.form.getlist('webhook_label')] *)
  form_update_interval : Z;
  form_active : option string;         (* [request.form.get('active')] *)
}.

(** [[{"url": url, "label": label} for url, label in zip(..) if url]]. *)
Definition webhooks_data (form : feed_form) : list webhook :=
  omap (λ '(url, label),
          if decide (url = "") then None
          else Some {| webhook_url := Some url; webhook_label := Some label |})
       (zip (form_webhook_urls form) (form_webhook_labels form)).

(** [request.form.get('active') == 'true']. *)
Definition active_status (form : feed_form) : bool :=
  bool_decide (form_active form = Some "true").

(** [add_feed()] on a POST; [new_id] is [str(uuid.uuid4())]. *)
Definition add_feed (new_id : string) (w : world) (form : feed_form) : outcome notice * world :=
  let new_feed :=
    {| feed_id := Some new_id;
       feed_name := Some (form_name form);
       feed_url := Some (form_url form);
       webhooks := webhooks_data form;
       update_interval := Some (form_update_interval form);
       active := Some (active_status form) |} in
  (Ret (FeedAdded (form_url form)), save_config (config_feeds w ++ [new_feed])%list w).

(** The loop of [edit_feed]: the first feed with the identifier takes the
    values of the form and keeps its identifier.  The legacy keys
    [webhook_url] and [webhook_urls], which the loop pops, are no fields of
    [feed_config]. *)
Fixpoint edit_first (fid : string) (form : feed_form) (feeds : list feed_config)
  : outcome (list feed_config) :=
  match feeds with
  | [] => Ret []
  | feed :: rest =>
    match feed_id feed with
    | None => Raise KeyError
    | Some i =>
      if decide (i = fid) then
        Ret ({| feed_id := feed_id feed;
                feed_name := Some (form_name form);
                feed_url := Some (form_url form);
                webhooks := webhooks_data form;
                update_interval := Some (form_update_interval form);
                active := Some (active_status form) |} :: rest)
      else
        match edit_first fid form rest with
        | Ret rest' => Ret (feed :: rest')
        | Raise x => Raise x
        end
    end
  end.

(** [edit_feed(feed_id)] on a POST. *)
Definition edit_feed (w : world) (fid : string) (form : feed_form) : outcome notice * world :=
  match find_feed fid (config_feeds w) with
  | Raise x => (Raise x, w)
  | Ret None => (Ret FeedMissing, w)
  | Ret (Some _) =>
    match edit_first fid form (config_feeds w) with
    | Raise x => (Raise x, w)
    | Ret feeds => (Ret FeedUpdated, save_config feeds w)
    end
  end.

(** The feed that [edit_feed] makes of [feed] and the form. *)
Definition edited_feed (form : feed_form) (feed : feed_config) : feed_config :=
  {| feed_id := feed_id feed;
     feed_name := Some (form_name form);
     feed_url := Some (form_url form);
     webhooks := webhooks_data form;
     update_interval := Some (form_update_interval form);
     active := Some (active_status form) |}.

(** The feed that [add_feed] makes of the form. *)
Definition added_feed (new_id : string) (form : feed_form) : feed_config :=
  {| feed_id := Some new_id;
     feed_name := Some (form_name form);
     feed_url := Some (form_url form);
     webhooks := webhooks_data form;
     update_interval := Some (form_update_interval form);
     active := Some (active_status form) |}.

(** A form for examples: two endpoints, the second without a URL. *)
Definition sample_form : feed_form :=
  {| form_name := "News"; form_url := "http://news";
     form_webhook_urls := ["hook"; ""]; form_webhook_labels := ["main"; "spare"];
     form_update_interval := 600; form_active := Some "true" |}.

(** A configuration of two feeds, and one with a feed that has no
    identifier. *)
Definition dashboard_world : world :=
  {| config_feeds := [other_feed; sample_feed]; sent_articles_file := Some (YamlSeq []);
     feed_state_file := None; posted := []; fetched := [] |}.

(** ** The accounts of the dashboard ([user.json]) *)

(** An entry of [user.json]: [None] for a missing key.  The routes below
    take the list that [get_users()] returns and give the list that
    [save_users] writes, or the same list when nothing is written. *)
Record user : Type := {
  user_id : option string;
  user_name : option string;
  user_password : option string;
  user_role : option string;
}.

Definition set_user_role (r : string) (u : user) : user :=
  {| user_id := user_id u; user_name := user_name u;
     user_password := user_password u; user_role := Some r |}.

(** The message that an account route flashes. *)
Inductive user_notice : Type :=
  | LoginRequired            (* [g.user] is [None]: redirect to the login page *)
  | NothingFlashed
  | CannotDeleteSelf         (* 'You cannot delete your own account.' *)
  | UserNotFound             (* 'User not found.' *)
  | OwnerCannotBeDeleted     (* 'The Owner cannot be deleted.' *)
  | UserDeleted              (* 'User deleted successfully.' *)
  | SuperAdminsCannotDelete  (* 'Super Admins cannot delete other Super Admins or Owners.' *)
  | NoPermissionToDelete     (* 'You do not have permission to delete users.' *)
  | OnlyOwnerCanPromote      (* 'Only the Owner can promote users.' *)
  | UserPromoted             (* 'User promoted to Super Admin.' *)
  | OnlyOwnerCanDemote       (* 'Only the Owner can demote users.' *)
  | UserDemoted              (* 'User demoted to Admin.' *)
  | NoPermissionToCreate     (* 'You do not have permission to create users.' *)
  | UsernameExists           (* 'Username already exists.' *)
  | UserCreated              (* 'User '<name>' created successfully.' *)
  | OnlyOwnerCanRestore      (* 'Only the Owner can restore user backups.' *)
  | NoFilePart               (* 'No file part in the request.' *)
  | NoFileSelected           (* 'No file selected for uploading.' *)
  | InvalidFileType          (* 'Invalid file type. Please upload a .json file.' *)
  | UsersRestored            (* 'User database restored successfully. ...' *)
  | RestoreError.            (* 'Error restoring users: ...' *)

(** [get_user_by_id(user_id)] on the users that [get_users()] returns:
    [user['id']] raises for an entry without identifier. *)
Fixpoint get_user_by_id (uid : string) (users : list user) : outcome (option user) :=
  match users with
  | [] => Ret None
  | u :: users =>
    match user_id u with
    | None => Raise KeyError
    | Some i => if decide (i = uid) then Ret (Some u) else get_user_by_id uid users
    end
  end.

(** [load_logged_in_user] and [require_login_or_setup] before a route: the
    route runs with [g.user], the account of the session. *)
Definition with_logged_in_user (session_user_id : option string) (users : list user)
    (route : user → outcome user_notice * list user) : outcome user_notice * list user :=
  match truthy session_user_id with
  | None => (Ret LoginRequired, users)
  | Some uid =>
    match get_user_by_id uid users with
    | Raise x => (Raise x, users)
    | Ret None => (Ret LoginRequired, users)
    | Ret (Some g_user) => route g_user
    end
  end.

(** [[u for u in users if u['id'] != user_id]]. *)
Fixpoint without_user (uid : string) (users : list user) : outcome (list user) :=
  match users with
  | [] => Ret []
  | u :: rest =>
    match user_id u with
    | None => Raise KeyError
    | Some i =>
      match without_user uid rest with
      | Ret rest' => Ret (if decide (i = uid) then rest' else u :: rest')
      | Raise x => Raise x
      end
    end
  end.

(** [delete_user(user_id)]. *)
Definition delete_user (session_user_id : option string) (users : list user)
    (target_id : string) : outcome user_notice * list user :=
  with_logged_in_user session_user_id users (λ g_user,
    match user_id g_user with
    | None => (Raise KeyError, users)
    | Some me =>
      if decide (target_id = me) then (Ret CannotDeleteSelf, users) else
      match get_user_by_id target_id users with
      | Raise x => (Raise x, users)
      | Ret None => (Ret UserNotFound, users)
      | Ret (Some target_user) =>
        if decide (user_role target_user = Some "owner")
        then (Ret OwnerCannotBeDeleted, users) else
        match user_role g_user with
        | None => (Raise KeyError, users)
        | Some my_role =>
          if decide (my_role = "owner") then
            match without_user target_id users with
            | Ret users' => (Ret UserDeleted, users')
            | Raise x => (Raise x, users)
            end
          else if decide (my_role = "super_admin") then
            if decide (user_role target_user = Some "admin") then
              match without_user target_id users with
              | Ret users' => (Ret UserDeleted, users')
              | Raise x => (Raise x, users)
              end
            else (Ret SuperAdminsCannotDelete, users)
          else (Ret NoPermissionToDelete, users)
        end
      end
    end).

(** The first user with the identifier gets the role [new_role] when its
    role is [old_role]: the update in place of [promote_user] and
    [demote_user].  [None] when nothing is to be saved. *)
Fixpoint change_role (uid old_role new_role : string) (users : list user)
  : outcome (option (list user)) :=
  match users with
  | [] => Ret None
  | u :: rest =>
    match user_id u with
    | None => Raise KeyError
    | Some i =>
      if decide (i = uid) then
        match user_role u with
        | None => Raise KeyError
        | Some r =>
          if decide (r = old_role) then Ret (Some (set_user_role new_role u :: rest))
          else Ret None
        end
      else
        match change_role uid old_role new_role rest with
        | Ret (Some rest') => Ret (Some (u :: rest'))
        | Ret None => Ret None
        | Raise x => Raise x
        end
    end
  end.

(** [promote_user(user_id)]. *)
Definition promote_user (session_user_id : option string) (users : list user)
    (target_id : string) : outcome user_notice * list user :=
  with_logged_in_user session_user_id users (λ g_user,
    match user_role g_user with
    | None => (Raise KeyError, users)
    | Some my_role =>
      if decide (my_role = "owner") then
        match change_role target_id "admin" "super_admin" users with
        | Ret (Some users') => (Ret UserPromoted, users')
        | Ret None => (Ret NothingFlashed, users)
        | Raise x => (Raise x, users)
        end
      else (Ret OnlyOwnerCanPromote, users)
    end).

(** [demote_user(user_id)]. *)
Definition demote_user (session_user_id : option string) (users : list user)
    (target_id : string) : outcome user_notice * list user :=
  with_logged_in_user session_user_id users (λ g_user,
    match user_role g_user with
    | None => (Raise KeyError, users)
    | Some my_role =>
      if decide (my_role = "owner") then
        match change_role target_id "super_admin" "admin" users with
        | Ret (Some users') => (Ret UserDemoted, users')
        | Ret None => (Ret NothingFlashed, users)
        | Raise x => (Raise x, users)
        end
      else (Ret OnlyOwnerCanDemote, users)
    end).

(** [any(u['username'] == username for u in users)]. *)
Fixpoint username_taken (name : string) (users : list user) : outcome bool :=
  match users with
  | [] => Ret false
  | u :: rest =>
    match user_name u with
    | None => Raise KeyError
    | Some n => if decide (n = name) then Ret true else username_taken name rest
    end
  end.

(** [add_user()] on a POST: [role] is [request.form.get('role', 'admin')],
    [new_id] is [str(uuid.uuid4())] and [hash] is what
    [generate_password_hash] makes of the password. *)
Definition add_user (session_user_id : option string) (users : list user)
    (new_id name hash role : string) : outcome user_notice * list user :=
  with_logged_in_user session_user_id users (λ g_user,
    match user_role g_user with
    | None => (Raise KeyError, users)
    | Some my_role =>
      if decide (my_role ∈ ["owner"; "super_admin"]) then
        let role :=
          if decide (role = "super_admin" ∧ my_role ≠ "owner") then "admin" else role in
        match username_taken name users with
        | Raise x => (Raise x, users)
        | Ret true => (Ret UsernameExists, users)
        | Ret false =>
          (Ret UserCreated,
           (users ++ [{| user_id := Some new_id; user_name := Some name;
                         user_password := Some hash; user_role := Some role |}])%list)
        end
      else (Ret NoPermissionToCreate, users)
    end).

(** What [json.loads] makes of an uploaded users backup: a list of objects,
    one object, or another value.  The objects are entries with string
    values, as [save_users] writes them; a list with an element that is no
    object is not an input of this model. *)
Inductive users_json : Type :=
  | JsonUsers (users_data : list user)
  | JsonUser (u : user)
  | JsonOther.

(** The file of [request.files['backup_file']]: its name and what
    [json.loads(file.read().decode('utf-8'))] gives, [None] when one of the
    two raises. *)
Record backup_file : Type := {
  filename : string;
  parsed : option users_json;
}.

(** [s.endswith(suffix)]. *)
Definition endswith (s suffix : string) : bool :=
  let n := String.length s in
  let m := String.length suffix in
  if (m <=? n)%nat then bool_decide (String.substring (n - m) m s = suffix) else false.

(** The loop over the entries of a backup: an entry without username,
    password or identifier raises [ValueError], an entry without role gets
    the role admin. *)
Fixpoint validate_users (users_data : list user) : option (list user) :=
  match users_data with
  | [] => Some []
  | u :: rest =>
    match user_name u, user_password u, user_id u with
    | Some _, Some _, Some _ =>
      let u := match user_role u with None => set_user_role "admin" u | Some _ => u end in
      match validate_users rest with
      | Some rest => Some (u :: rest)
      | None => None
      end
    | _, _, _ => None
    end
  end.

(** [any(u.get('role') == 'owner' for u in users_data)]. *)
Definition has_owner (users_data : list user) : bool :=
  existsb (λ u, bool_decide (user_role u = Some "owner")) users_data.

(** The body of the [try] of [upload_users_backup]: the users to write, or
    [None] when an exception is raised (every one is caught and flashed). *)
Definition users_to_restore (parsed : option users_json) : option (list user) :=
  match parsed with
  | None => None
  | Some data =>
    let users_data :=
      match data with
      | JsonUsers users_data => Some users_data
      | JsonUser u => match user_name u with Some _ => Some [u] | None => None end
      | JsonOther => None
      end in
    match users_data with
    | None => None
    | Some users_data =>
      match validate_users users_data with
      | None => None
      | Some users_data =>
        if has_owner users_data then Some users_data
        else match users_data with
             | [] => None (* [users_data[0]]: IndexError *)
             | u :: rest => Some (set_user_role "owner" u :: rest)
             end
      end
    end
  end.

(** [upload_users_backup()]: [upload] is the entry ['backup_file'] of
    [request.files], if any. *)
Definition upload_users_backup (session_user_id : option string) (users : list user)
    (upload : option backup_file) : outcome user_notice * list user :=
  with_logged_in_user session_user_id users (λ g_user,
    if decide (user_role g_user = Some "owner") then
      match upload with
      | None => (Ret NoFilePart, users)
      | Some file =>
        if decide (filename file = "") then (Ret NoFileSelected, users)
        else if endswith (filename file) ".json" then
          match users_to_restore (parsed file) with
          | Some users_data => (Ret UsersRestored, users_data)
          | None => (Ret RestoreError, users)
          end
        else (Ret InvalidFileType, users)
      end
    else (Ret OnlyOwnerCanRestore, users)).

(** Accounts for the examples. *)
Definition account (i name r : string) : user :=
  {| user_id := Some i; user_name := Some name;
     user_password := Some "hash"; user_role := Some r |}.

Definition sample_users : list user :=
  [account "1" "olivia" "owner"; account "2" "sam" "super_admin";
   account "3" "ada" "admin"].

Definition old_backup : backup_file :=
  {| filename := "users.json";
     parsed := Some (JsonUsers
       [{| user_id := Some "7"; user_name := Some "eve";
           user_password := Some "hash"; user_role := None |};
        account "8" "bob" "admin"]) |}.
(** * Properties *)

(** ** Sorting and slicing *)

Lemma sorted_Permutation (xs : list string) : sorted xs ≡ₚ xs.
Proof. apply merge_sort_Permutation. Qed.

Lemma sorted_StronglySorted (xs : list string) : StronglySorted String.le (sorted xs).
Proof. apply StronglySorted_merge_sort; apply _. Qed.

Lemma sorted_proper (xs ys : list string) : xs ≡ₚ ys → sorted xs = sorted ys.
Proof.
  intros Hp. apply (StronglySorted_unique String.le); try apply sorted_StronglySorted.
  by rewrite !sorted_Permutation.
Qed.

Lemma elem_of_sorted (x : string) (xs : list string) : x ∈ sorted xs ↔ x ∈ xs.
Proof. by rewrite sorted_Permutation. Qed.

Lemma length_sorted (xs : list string) : length (sorted xs) = length xs.
Proof. by rewrite sorted_Permutation. Qed.

Lemma length_last_n {A} (n : nat) (xs : list A) : (length (last_n n xs) ≤ n)%nat.
Proof. unfold last_n. rewrite length_drop. lia. Qed.

Lemma last_n_all {A} (n : nat) (xs : list A) : (length xs ≤ n)%nat → last_n n xs = xs.
Proof. intros Hn. unfold last_n. by replace (length xs - n)%nat with 0%nat by lia. Qed.

Lemma last_n_split {A} (n : nat) (xs : list A) :
  xs = (take (length xs - n) xs ++ last_n n xs)%list.
Proof. unfold last_n. by rewrite take_drop. Qed.

Lemma elem_of_last_n {A} (n : nat) (xs : list A) (x : A) : x ∈ last_n n xs → x ∈ xs.
Proof. intros Hx. rewrite (last_n_split n xs). apply elem_of_app. by right. Qed.

(** What the slice of a sorted list without repetition drops lies strictly
    below what it keeps. *)
Lemma last_n_sorted_dropped_below (n : nat) (xs : list string) (d k : string) :
  NoDup xs →
  d ∈ take (length (sorted xs) - n) (sorted xs) →
  k ∈ last_n n (sorted xs) →
  String.le d k ∧ d ≠ k.
Proof.
  intros Hnd Hd Hk.
  pose proof (sorted_StronglySorted xs) as Hs.
  assert (NoDup (sorted xs)) as Hnd' by by rewrite sorted_Permutation.
  rewrite (last_n_split n (sorted xs)) in Hs, Hnd'.
  split.
  - by eapply (StronglySorted_app_1_elem_of String.le).
  - apply NoDup_app in Hnd' as (_ & Hdis & _). intros ->. by eapply Hdis.
Qed.

Lemma list_to_set_sorted_elements (X : gset string) :
  list_to_set (sorted (elements X)) = X.
Proof.
  apply set_eq. intros x.
  by rewrite elem_of_list_to_set, elem_of_sorted, elem_of_elements.
Qed.

Lemma length_sorted_elements (X : gset string) : length (sorted (elements X)) = size X.
Proof. by rewrite length_sorted. Qed.

(** ** The ledger without faults *)

Lemma ledger_ids_loaded (doc : yaml_doc) (l : list string) :
  safe_load_or_empty doc = Some l → ledger_ids (Some doc) = list_to_set l.
Proof. destruct doc; intros [= <-]; done. Qed.

Lemma readable_loaded (doc : yaml_doc) :
  readable (Some doc) → ∃ l, safe_load_or_empty doc = Some l.
Proof. destruct doc; intros Hr; simpl; eauto. by destruct Hr. Qed.

(** The file exists and can be read, and something is new: the merged set is
    written, cut to the cap. *)
Lemma filter_and_update_inserting (doc : yaml_doc) (C : list string) :
  readable (Some doc) →
  list_to_set C ∖ ledger_ids (Some doc) ≠ (∅ : gset string) →
  filter_and_update_sent_articles None (Some doc) C =
    (Ret (list_to_set C ∖ ledger_ids (Some doc)),
     Some (YamlSeq (last_n LEDGER_CAP
                      (sorted (elements (ledger_ids (Some doc) ∪ list_to_set C)))))).
Proof.
  intros [l Hl]%readable_loaded Hnew.
  rewrite (ledger_ids_loaded _ _ Hl) in *.
  unfold filter_and_update_sent_articles, try_block, fails. simpl. rewrite Hl.
  destruct (decide _) as [He|_]; [done|]. simpl.
  replace (list_to_set l ∪ list_to_set C ∖ list_to_set l : gset string)
    with (list_to_set l ∪ list_to_set C : gset string); [done|].
  apply set_eq. intros x. rewrite !elem_of_union, elem_of_difference.
  destruct (decide (x ∈ (list_to_set l : gset string))); tauto.
Qed.

(** The file exists and can be read, and nothing is new: it is left as it is. *)
Lemma filter_and_update_nothing_new (doc : yaml_doc) (C : list string) :
  readable (Some doc) →
  list_to_set C ∖ ledger_ids (Some doc) = (∅ : gset string) →
  filter_and_update_sent_articles None (Some doc) C = (Ret ∅, Some doc).
Proof.
  intros [l Hl]%readable_loaded Hnew.
  rewrite (ledger_ids_loaded _ _ Hl) in *.
  unfold filter_and_update_sent_articles, try_block, fails. simpl. rewrite Hl.
  by destruct (decide _) as [_|Hne].
Qed.

(** There is no file: it is created with the candidates, cut to the cap. *)
Lemma filter_and_update_missing (C : list string) :
  filter_and_update_sent_articles None None C =
    (Ret (list_to_set C), Some (YamlSeq (last_n LEDGER_CAP (sorted C)))).
Proof. reflexivity. Qed.

Lemma sorted_elements_list_to_set (C : list string) :
  NoDup C → sorted (elements (list_to_set C : gset string)) = sorted C.
Proof. intros Hnd. apply sorted_proper. by apply elements_list_to_set. Qed.

Lemma ledger_ids_missing : ledger_ids None = ∅.
Proof. reflexivity. Qed.

Lemma size_list_to_set_le (l : list string) :
  (size (list_to_set l : gset string) ≤ length l)%nat.
Proof.
  induction l as [|x l IH]; [rewrite list_to_set_nil, size_empty; simpl; lia|].
  rewrite list_to_set_cons, size_union_alt, size_singleton. simpl.
  assert (size (list_to_set l ∖ {[x]} : gset string) ≤ size (list_to_set l : gset string))%nat
    as Hs; [|lia].
  apply subseteq_size. intros y Hy. by apply elem_of_difference in Hy as [? _].
Qed.

(** The ledger after a call without faults, on a file that is missing or
    readable and within the cap. *)
Lemma filter_and_update_ledger (C : list string) (file : ledger_file) :
  NoDup C → readable file → (size (ledger_ids file) ≤ LEDGER_CAP)%nat →
  ledger_ids (filter_and_update_sent_articles None file C).2 =
    list_to_set (last_n LEDGER_CAP (sorted (elements (ledger_ids file ∪ list_to_set C)))).
Proof.
  intros Hnd Hr Hcap. destruct file as [doc|].
  - destruct (decide (list_to_set C ∖ ledger_ids (Some doc) = (∅ : gset string))) as [He|Hne].
    + rewrite filter_and_update_nothing_new by done. simpl.
      assert (ledger_ids (Some doc) ∪ list_to_set C = ledger_ids (Some doc)) as ->.
      { apply set_eq. intros x. rewrite elem_of_union. split; [|tauto].
        intros [?|Hx]; [done|].
        destruct (decide (x ∈ ledger_ids (Some doc))) as [?|Hn]; [done|].
        assert (x ∈ (list_to_set C ∖ ledger_ids (Some doc) : gset string)) as Hin
          by (apply elem_of_difference; done).
        rewrite He in Hin. by apply not_elem_of_empty in Hin. }
      rewrite last_n_all by (by rewrite length_sorted_elements).
      by rewrite list_to_set_sorted_elements.
    + by rewrite filter_and_update_inserting.
  - rewrite filter_and_update_missing, ledger_ids_missing. simpl.
    rewrite (left_id_L ∅ (∪)). by rewrite sorted_elements_list_to_set.
Qed.

(** The value returned by a call without faults. *)
Lemma filter_and_update_returns (C : list string) (file : ledger_file) :
  readable file →
  (filter_and_update_sent_articles None file C).1 = Ret (list_to_set C ∖ ledger_ids file).
Proof.
  intros Hr. destruct file as [doc|].
  - destruct (decide (list_to_set C ∖ ledger_ids (Some doc) = (∅ : gset string))) as [He|Hne].
    + rewrite filter_and_update_nothing_new by done. by rewrite He.
    + by rewrite filter_and_update_inserting.
  - rewrite filter_and_update_missing, ledger_ids_missing. simpl.
    by rewrite difference_empty_L.
Qed.

(** The file after a call without faults that writes: the end of the
    ascending sort of the merged set, of the length that the cap allows. *)
Lemma last_n_cut {A} (n : nat) (xs : list A) :
  ∃ dropped, xs = (dropped ++ last_n n xs)%list
             ∧ length (last_n n xs) = (n `min` length xs)%nat.
Proof.
  exists (take (length xs - n) xs). unfold last_n. rewrite take_drop.
  split; [done|]. rewrite length_drop. lia.
Qed.

Lemma not_subseteq_difference (X Y : gset string) : X ⊆ Y ↔ X ∖ Y = ∅.
Proof.
  split.
  - intros Hsub. apply set_eq. intros x. rewrite elem_of_difference, elem_of_empty.
    split; [|done]. intros [Hx Hn]. by apply Hn, Hsub.
  - intros He x Hx. destruct (decide (x ∈ Y)) as [|Hn]; [done|].
    assert (x ∈ X ∖ Y) as Hin by (by apply elem_of_difference).
    rewrite He in Hin. by apply not_elem_of_empty in Hin.
Qed.

Lemma filter_and_update_file (C : list string) (file : ledger_file) :
  NoDup C → readable file →
  (list_to_set C ⊆ ledger_ids file → file ≠ None →
   (filter_and_update_sent_articles None file C).2 = file)
  ∧ (list_to_set C ⊈ ledger_ids file ∨ file = None →
     (filter_and_update_sent_articles None file C).2
     = Some (YamlSeq (last_n LEDGER_CAP
                        (sorted (elements (ledger_ids file ∪ list_to_set C)))))).
Proof.
  intros Hnd Hr. split.
  - intros Hsub Hfile. destruct file as [doc|]; [|done].
    by rewrite filter_and_update_nothing_new by (by try apply not_subseteq_difference).
  - intros Hnew. destruct file as [doc|].
    + destruct Hnew as [Hnew|]; [|done].
      rewrite filter_and_update_inserting; [done..|].
      by rewrite <- not_subseteq_difference.
    + rewrite filter_and_update_missing, ledger_ids_missing, (left_id_L ∅ (∪)).
      by rewrite sorted_elements_list_to_set.
Qed.

(** C1, as the claim states it, fails: of 10001 candidates handed over when
    there is no ledger, all are returned as new and the lowest in the order
    of the strings is not recorded. *)
Lemma candidates_beyond_cap_not_all_recorded :
  NoDup many_candidates
  ∧ (filter_and_update_sent_articles None None many_candidates).1
    = Ret (list_to_set many_candidates)
  ∧ "b0" ∈ many_candidates
  ∧ "b0" ∉ ledger_ids (filter_and_update_sent_articles None None many_candidates).2.
Proof.
  split.
  { apply NoDup_fmap_2_strong; [|apply NoDup_seq].
    intros i j _ _ [= Hij]. by apply (inj pretty) in Hij. }
  rewrite filter_and_update_missing. split; [done|]. split.
  { apply list_elem_of_fmap. exists 0%nat. split; [done|]. apply elem_of_seq. simpl. lia. }
  unfold ledger_ids, ledger_list. cbn [snd]. rewrite elem_of_list_to_set.
  apply (bool_decide_unpack _). by vm_compute.
Qed.

(** C1, amended. For every set [C] of candidates and every ledger file that
    is missing or loads, a call of [filter_and_update_sent_articles] in
    which nothing fails returns exactly the candidates that the ledger does
    not hold.  When the file exists and holds them all, it is left as it
    is.  Otherwise the file then holds the ascending sort of the merged set
    without its beginning: the last 10000 identifiers when there are more,
    all of them when there are not.  So the ledger is the union whenever the
    union has at most 10000 identifiers; when the ledger was missing or
    empty every candidate is returned as new, and all are recorded when
    there are at most 10000. *)
Theorem filter_and_update_returns_new_and_records (C : list string) (file : ledger_file) :
  NoDup C → readable file →
  let result := filter_and_update_sent_articles None file C in
  let merged := sorted (elements (ledger_ids file ∪ list_to_set C)) in
  result.1 = Ret (list_to_set C ∖ ledger_ids file)
  ∧ (list_to_set C ⊆ ledger_ids file → file ≠ None → result.2 = file)
  ∧ (list_to_set C ⊈ ledger_ids file ∨ file = None →
     ∃ dropped recorded,
       result.2 = Some (YamlSeq recorded)
       ∧ merged = (dropped ++ recorded)%list
       ∧ length recorded = (LEDGER_CAP `min` length merged)%nat)
  ∧ ((size (ledger_ids file ∪ list_to_set C) ≤ LEDGER_CAP)%nat →
     ledger_ids result.2 = ledger_ids file ∪ list_to_set C)
  ∧ (ledger_ids file = ∅ →
     result.1 = Ret (list_to_set C)
     ∧ ((length C ≤ LEDGER_CAP)%nat → ledger_ids result.2 = list_to_set C)).
Proof.
  intros Hnd Hr result merged.
  pose proof (filter_and_update_returns C file Hr) as Hret. fold result in Hret.
  destruct (filter_and_update_file C file Hnd Hr) as [Hkeep Hwrite].
  fold result in Hkeep, Hwrite. fold merged in Hwrite.
  assert ((size (ledger_ids file ∪ list_to_set C) ≤ LEDGER_CAP)%nat →
          ledger_ids result.2 = ledger_ids file ∪ list_to_set C) as Hunion.
  { intros Hcap.
    destruct (decide (list_to_set C ⊆ ledger_ids file ∧ file ≠ None)) as [[Hsub Hf]|Hn].
    - rewrite Hkeep by done. apply set_eq. intros x. rewrite elem_of_union.
      split; [by left|]. intros [?|?]; [done|by apply Hsub].
    - rewrite Hwrite.
      2:{ destruct (decide (list_to_set C ⊆ ledger_ids file)); [|by left].
          right. destruct file; [|done]. destruct Hn. by split. }
      unfold ledger_ids at 1, ledger_list.
      rewrite last_n_all by (unfold merged; by rewrite length_sorted_elements).
      apply list_to_set_sorted_elements. }
  split; [done|]. split; [done|]. split.
  { intros Hnew. destruct (last_n_cut LEDGER_CAP merged) as (dropped & Hsplit & Hlen).
    exists dropped, (last_n LEDGER_CAP merged). by rewrite Hwrite. }
  split; [done|].
  intros Hempty. rewrite Hempty, difference_empty_L in Hret. split; [done|].
  intros Hlen. rewrite Hunion; rewrite Hempty, (left_id_L ∅ (∪)); [done|].
  etrans; [apply size_list_to_set_le|done].
Qed.

Lemma filter_and_update_returns_new_and_records_witness :
  NoDup ["c"; "a"]
  ∧ readable (Some (YamlSeq ["b"; "a"]))
  ∧ (filter_and_update_sent_articles None (Some (YamlSeq ["b"; "a"])) ["c"; "a"]).1
    = Ret (list_to_set ["c"; "a"] ∖ ledger_ids (Some (YamlSeq ["b"; "a"])))
  ∧ ledger_ids (filter_and_update_sent_articles None (Some (YamlSeq ["b"; "a"])) ["c"; "a"]).2
    = ledger_ids (Some (YamlSeq ["b"; "a"])) ∪ list_to_set ["c"; "a"].
Proof.
  assert (NoDup ["c"; "a"]) as H1 by compute_done.
  assert (readable (Some (YamlSeq ["b"; "a"]))) as H2 by discriminate.
  split; [exact H1|]. split; [exact H2|].
  destruct (filter_and_update_returns_new_and_records
              ["c"; "a"] (Some (YamlSeq ["b"; "a"])) H1 H2) as (Hret & _ & _ & Hunion & _).
  split; [exact Hret|]. apply Hunion. compute_done.
Defined.

(** Whatever fails, a call either leaves the file as it was or leaves at most
    [LEDGER_CAP] identifiers in it. *)
Lemma filter_and_update_cap (flt : fault) (file : ledger_file) (C : list string) :
  let file' := (filter_and_update_sent_articles flt file C).2 in
  file' = file ∨ (length (ledger_list file') ≤ LEDGER_CAP)%nat.
Proof.
  unfold filter_and_update_sent_articles, try_block, except_FileNotFoundError, fails.
  pose proof (@length_last_n string LEDGER_CAP) as Hlen.
  destruct flt as [[]|], file as [[| |]|]; simpl;
    repeat (case_match || case_decide); simplify_eq/=; auto; right; simpl; lia.
Qed.

(** C6. After a call of [filter_and_update_sent_articles] that inserts
    identifiers, the ledger file holds at most 10000 identifiers.  It holds
    the end of the ascending sort of the merged set; what is cut off is the
    beginning of that sort, so every dropped identifier is strictly below
    every kept one in the order of the strings: the order of the sort, not
    the order of arrival. *)
Theorem ledger_capped_lowest_sorted_dropped (C : list string) (file : ledger_file) :
  NoDup C → readable file →
  list_to_set C ∖ ledger_ids file ≠ (∅ : gset string) →
  let file' := (filter_and_update_sent_articles None file C).2 in
  let merged := sorted (elements (ledger_ids file ∪ list_to_set C)) in
  let dropped := take (length merged - LEDGER_CAP) merged in
  (length (ledger_list file') ≤ LEDGER_CAP)%nat
  ∧ merged = (dropped ++ ledger_list file')%list
  ∧ length dropped = (size (ledger_ids file ∪ list_to_set C) - LEDGER_CAP)%nat
  ∧ StronglySorted String.le merged
  ∧ (∀ d k, d ∈ dropped → k ∈ ledger_list file' → String.le d k ∧ d ≠ k).
Proof.
  intros Hnd Hr Hnew file' merged dropped.
  assert (ledger_list file' = last_n LEDGER_CAP merged) as Hfile.
  { unfold file', merged. destruct file as [doc|].
    - by rewrite filter_and_update_inserting.
    - rewrite filter_and_update_missing, ledger_ids_missing, (left_id_L ∅ (∪)).
      by rewrite sorted_elements_list_to_set. }
  rewrite Hfile. split; [apply length_last_n|]. split; [apply last_n_split|].
  split.
  { unfold dropped. rewrite length_take. unfold merged at 2.
    rewrite length_sorted_elements. unfold merged. rewrite length_sorted_elements. lia. }
  split; [apply sorted_StronglySorted|].
  intros d k Hd Hk. eapply last_n_sorted_dropped_below; [|exact Hd|exact Hk].
  apply NoDup_elements.
Qed.

Lemma ledger_capped_lowest_sorted_dropped_witness :
  NoDup ["c"; "a"]
  ∧ readable (Some (YamlSeq ["b"; "a"]))
  ∧ list_to_set ["c"; "a"] ∖ ledger_ids (Some (YamlSeq ["b"; "a"])) ≠ (∅ : gset string)
  ∧ (length (ledger_list
               (filter_and_update_sent_articles None (Some (YamlSeq ["b"; "a"])) ["c"; "a"]).2)
     ≤ LEDGER_CAP)%nat.
Proof.
  assert (NoDup ["c"; "a"]) as H1 by compute_done.
  assert (readable (Some (YamlSeq ["b"; "a"]))) as H2 by discriminate.
  assert (list_to_set ["c"; "a"] ∖ ledger_ids (Some (YamlSeq ["b"; "a"])) ≠ (∅ : gset string))
    as H3 by compute_done.
  split; [exact H1|]. split; [exact H2|]. split; [exact H3|].
  exact (proj1 (ledger_capped_lowest_sorted_dropped
                  ["c"; "a"] (Some (YamlSeq ["b"; "a"])) H1 H2 H3)).
Defined.

(** ** A ledger that cannot be read or written *)

(** The file exists, and loading it raises or one of the operations up to
    the write raises: the call returns the empty set. *)
Lemma filter_and_update_fails_closed (flt : fault) (doc : yaml_doc) (C : list string) :
  doc = YamlCorrupt ∨ flt ∈ [Some OpenRW; Some LockRW; Some SafeLoad; Some Truncate; Some Dump] →
  (filter_and_update_sent_articles flt (Some doc) C).1 = Ret ∅.
Proof.
  intros [->|Hflt].
  - unfold filter_and_update_sent_articles, try_block, fails.
    destruct flt as [[]|]; reflexivity.
  - unfold filter_and_update_sent_articles, try_block, fails.
    repeat (apply elem_of_cons in Hflt as [->|Hflt]); [..|by apply elem_of_nil in Hflt];
      destruct doc; simpl; repeat case_decide; reflexivity.
Qed.

(** A failure of the unlock after the write is not covered: the new
    identifiers are returned. *)
Example filter_and_update_unlock_failure :
  filter_and_update_sent_articles (Some UnlockRW) (Some (YamlSeq ["a"])) ["b"]
  = (Ret {["b"]}, Some (YamlSeq ["a"; "b"])).
Proof. by vm_compute. Qed.

(** ** A ledger at the cap *)

Lemma sorted_cons_least (x : string) (L : list string) :
  (∀ y, y ∈ L → String.le x y) → sorted (x :: L) = x :: sorted L.
Proof.
  intros Hx. apply (StronglySorted_unique String.le).
  - apply sorted_StronglySorted.
  - constructor; [apply sorted_StronglySorted|].
    apply Forall_forall. intros y Hy. apply Hx. by apply elem_of_sorted.
  - rewrite sorted_Permutation. by rewrite sorted_Permutation.
Qed.

(** An identifier below every one of a full ledger is returned as new and
    cut off by the very write that records it: the ledger still does not
    hold it. *)
Lemma filter_and_update_evicts_at_once (x : string) (L : list string) :
  NoDup L → length L = LEDGER_CAP → (∀ y, y ∈ L → String.le x y ∧ x ≠ y) →
  filter_and_update_sent_articles None (Some (YamlSeq L)) [x]
  = (Ret {[x]}, Some (YamlSeq (sorted L))).
Proof.
  intros Hnd Hlen Hx.
  assert (x ∉ L) as HxL by (intros Hin; by destruct (Hx x Hin)).
  assert (list_to_set [x] ∖ ledger_ids (Some (YamlSeq L)) = ({[x]} : gset string)) as Hnew.
  { apply set_eq. intros y. unfold ledger_ids. simpl.
    rewrite elem_of_difference, !elem_of_list_to_set, elem_of_union, elem_of_singleton,
      elem_of_empty.
    split; [tauto|]. intros ->. tauto. }
  rewrite filter_and_update_inserting; [|discriminate|].
  2:{ rewrite Hnew. intros He. assert (x ∈ (∅ : gset string)) as Hin by (rewrite <- He; set_solver).
      by apply not_elem_of_empty in Hin. }
  rewrite Hnew. do 3 f_equal.
  assert (elements (ledger_ids (Some (YamlSeq L)) ∪ list_to_set [x]) ≡ₚ x :: L) as Hp.
  { apply NoDup_Permutation; [apply NoDup_elements|by constructor|].
    intros y. unfold ledger_ids. simpl.
    rewrite elem_of_elements, !elem_of_union, !elem_of_list_to_set, elem_of_singleton,
      elem_of_empty, elem_of_cons. tauto. }
  rewrite (sorted_proper _ _ Hp), sorted_cons_least by (intros y Hy; by destruct (Hx y Hy)).
  unfold last_n. simpl. rewrite length_sorted, Hlen.
  by replace (S LEDGER_CAP - LEDGER_CAP)%nat with 1%nat by lia.
Qed.

Lemma full_ledger_NoDup : NoDup full_ledger.
Proof.
  apply NoDup_fmap_2_strong; [|apply NoDup_seq].
  intros i j _ _ [= Hij]. by apply (inj pretty) in Hij.
Qed.

Lemma full_ledger_length : length full_ledger = LEDGER_CAP.
Proof. unfold full_ledger. by rewrite length_fmap, length_seq. Qed.

Lemma full_ledger_above_a (y : string) : y ∈ full_ledger → String.le "a" y ∧ "a" ≠ y.
Proof. intros (i & -> & _)%list_elem_of_fmap. split; [exact I|discriminate]. Qed.

(** ** Two callers *)

(** A caller that takes its two steps alone is a call of the function. *)
Lemma caller_alone (flt : fault) (ids : list string) (file : ledger_file) :
  interleave [false; false] (Calling flt ids) (Calling flt ids) file
  = (Returned (filter_and_update_sent_articles flt file ids).1, Calling flt ids,
     (filter_and_update_sent_articles flt file ids).2).
Proof.
  unfold filter_and_update_sent_articles. simpl.
  destruct (try_block flt file ids) as [[new [[]|]] file']; simpl; try done.
  by destruct (except_FileNotFoundError flt ids).
Qed.

(** On a file that exists, the first step of a caller is the whole call. *)
Lemma caller_step_existing (flt : fault) (ids : list string) (doc : yaml_doc) :
  caller_step (Calling flt ids) (Some doc)
  = (Returned (filter_and_update_sent_articles flt (Some doc) ids).1,
     (filter_and_update_sent_articles flt (Some doc) ids).2).
Proof.
  unfold caller_step, filter_and_update_sent_articles, try_block, fails.
  destruct flt as [[]|], doc; simpl; repeat case_decide; reflexivity.
Qed.

(** C2. Two callers that submit the same identifier are both told that it is
    new, in two situations.  First, the ledger is at the cap and the
    identifier sorts below all it holds: the calls run one after the other,
    as the lock makes them, and the first write cuts the identifier off
    again.  Second, there is no ledger file: both callers fail to open it
    before either creates it, and each handler reports all its candidates. *)
Theorem both_callers_told_new :
  (filter_and_update_sent_articles None (Some (YamlSeq full_ledger)) ["a"]).1 = Ret {["a"]}
  ∧ (filter_and_update_sent_articles None
       (filter_and_update_sent_articles None (Some (YamlSeq full_ledger)) ["a"]).2 ["a"]).1
    = Ret {["a"]}
  ∧ (interleave [false; true] (Calling None ["a"]) (Calling None ["a"])
       (Some (YamlSeq full_ledger))).1
    = (Returned (Ret {["a"]}), Returned (Ret {["a"]}))
  ∧ interleave [false; true; false; true] (Calling None ["a"]) (Calling None ["a"]) None
    = (Returned (Ret {["a"]}), Returned (Ret {["a"]}), Some (YamlSeq ["a"])).
Proof.
  assert (filter_and_update_sent_articles None (Some (YamlSeq full_ledger)) ["a"]
          = (Ret {["a"]}, Some (YamlSeq (sorted full_ledger)))) as Hfirst.
  { apply filter_and_update_evicts_at_once;
      auto using full_ledger_NoDup, full_ledger_length, full_ledger_above_a. }
  assert (filter_and_update_sent_articles None (Some (YamlSeq (sorted full_ledger))) ["a"]
          = (Ret {["a"]}, Some (YamlSeq (sorted (sorted full_ledger))))) as Hsecond.
  { apply filter_and_update_evicts_at_once.
    - rewrite sorted_Permutation. apply full_ledger_NoDup.
    - rewrite length_sorted. apply full_ledger_length.
    - intros y Hy. apply full_ledger_above_a. by apply elem_of_sorted. }
  split; [rewrite Hfirst; reflexivity|].
  split; [rewrite Hfirst; cbn [fst snd]; rewrite Hsecond; reflexivity|].
  split; [|vm_compute; reflexivity].
  cbn [interleave]. rewrite caller_step_existing. rewrite Hfirst. cbn [fst snd].
  rewrite caller_step_existing. rewrite Hsecond. reflexivity.
Qed.

(** When the file exists and can be read, and the first write cuts nothing
    off that it has just recorded, two calls in a row return disjoint sets. *)
Lemma filter_and_update_twice_disjoint (doc : yaml_doc) (C1 C2 : list string) :
  NoDup C1 → readable (Some doc) →
  (size (ledger_ids (Some doc) ∪ list_to_set C1) ≤ LEDGER_CAP)%nat →
  ∀ first second new1 new2,
    first = filter_and_update_sent_articles None (Some doc) C1 →
    second = filter_and_update_sent_articles None first.2 C2 →
    first.1 = Ret new1 → second.1 = Ret new2 → new1 ## new2.
Proof.
  intros Hnd Hr Hcap first second new1 new2 -> -> H1 H2.
  assert (size (ledger_ids (Some doc)) ≤ LEDGER_CAP)%nat as Hcap0.
  { etrans; [|exact Hcap]. apply subseteq_size. apply union_subseteq_l. }
  pose proof (filter_and_update_ledger C1 (Some doc) Hnd Hr Hcap0) as Hled.
  rewrite last_n_all, list_to_set_sorted_elements in Hled by (by rewrite length_sorted_elements).
  assert (readable (filter_and_update_sent_articles None (Some doc) C1).2) as Hr'.
  { destruct (decide (list_to_set C1 ∖ ledger_ids (Some doc) = (∅ : gset string))).
    - by rewrite filter_and_update_nothing_new.
    - by rewrite filter_and_update_inserting. }
  rewrite filter_and_update_returns in H1, H2 by done.
  simplify_eq. rewrite Hled. set_solver.
Qed.

(** ** [send_to_webhook] *)

(** C8, as the claim states it, fails: a response 201 is a 2xx response, and
    it is classified as an error carrying its code. *)
Lemma send_to_webhook_201_is_error :
  requests_post (quiet_environment (Response 201 "") 0) 0 "u" sample_embed = Response 201 ""
  ∧ (200 ≤ 201 < 300)%Z
  ∧ (send_to_webhook (quiet_environment (Response 201 "") 0) empty_world "u" sample_embed).1
    = "Error: 201"
  ∧ (send_to_webhook (quiet_environment (Response 201 "") 0) empty_world "u" sample_embed).1
    ≠ "Success".
Proof. repeat split; try lia; by vm_compute. Qed.

(** C8, amended. A call of [send_to_webhook] makes exactly one post.  The
    answer is classified as success when the status is 200 or 204, as
    rate-limited when it is 429, as an error carrying the decimal status for
    every other status (the other 2xx statuses included), and as a
    connection failure when the request raises. *)
Theorem send_to_webhook_classifies (env : environment) (w : world) (url : string) (e : embed) :
  let result := send_to_webhook env w url e in
  posted result.2 = (posted w ++ [(url, e)])%list
  ∧ match requests_post env (length (posted w)) url e with
    | Response code _ =>
      result.1 =
        if bool_decide (code = 200 ∨ code = 204) then "Success"
        else if bool_decide (code = 429) then "Rate Limited"
        else "Error: " +:+ pretty code
    | RequestException => result.1 = "Failed to Connect"
    end.
Proof.
  unfold send_to_webhook. simpl.
  destruct (requests_post env (length (posted w)) url e) as [code text|]; [|done].
  destruct (decide (code = 200)) as [->|?]; [done|].
  destruct (decide (code = 204)) as [->|?]; [done|].
  rewrite (bool_decide_eq_false_2 (code ∈ [200; 204])).
  2:{ rewrite !elem_of_cons, elem_of_nil. tauto. }
  rewrite (bool_decide_eq_false_2 (code = 200 ∨ code = 204)) by tauto.
  by destruct (bool_decide (code = 429)).
Qed.

(** ** The pieces of [check_single_feed] *)

(** *** Posting *)

Lemma send_to_webhook_world (env : environment) (w : world) (url : string) (e : embed) :
  (send_to_webhook env w url e).2 = add_posted (url, e) w.
Proof.
  unfold send_to_webhook. destruct (requests_post _ _ _ _); [|done].
  by repeat case_bool_decide.
Qed.

(** Adding posts to a world. *)
Lemma add_posted_foldl_posted (ps : list (string * embed)) (w : world) :
  posted (foldl (λ w p, add_posted p w) w ps) = (posted w ++ ps)%list.
Proof.
  revert w. induction ps as [|p ps IH]; intros w; simpl; [by rewrite app_nil_r|].
  rewrite IH. simpl. by rewrite <- app_assoc.
Qed.

Lemma add_posted_foldl_files (ps : list (string * embed)) (w : world) :
  sent_articles_file (foldl (λ w p, add_posted p w) w ps) = sent_articles_file w
  ∧ feed_state_file (foldl (λ w p, add_posted p w) w ps) = feed_state_file w
  ∧ fetched (foldl (λ w p, add_posted p w) w ps) = fetched w
  ∧ config_feeds (foldl (λ w p, add_posted p w) w ps) = config_feeds w.
Proof.
  revert w. induction ps as [|p ps IH]; intros w; simpl; [done|].
  destruct (IH (add_posted p w)) as (-> & -> & -> & ->). done.
Qed.

Lemma post_to_webhooks_world (env : environment) (e : embed) (whs : list webhook)
    (s : option string) (w : world) :
  (post_to_webhooks env e whs s w).2
  = foldl (λ w p, add_posted p w) w
      ((λ u, (u, e)) <$> omap (λ wh, truthy (webhook_url wh)) whs).
Proof.
  revert s w. induction whs as [|wh whs IH]; intros s w; simpl; [done|].
  destruct (truthy (webhook_url wh)) as [url|]; simpl; [|apply IH].
  pose proof (send_to_webhook_world env w url e) as Hw.
  destruct (send_to_webhook env w url e) as [s' w']. simpl in Hw. subst w'. apply IH.
Qed.

Lemma post_articles_world (env : environment) (fc : feed_config) (es : list entry)
    (s : option string) (w : world) :
  (post_articles env fc es s w).2 = foldl (λ w p, add_posted p w) w (posts_of env fc es).
Proof.
  revert s w. induction es as [|e es IH]; intros s w; simpl; [done|].
  pose proof (post_to_webhooks_world env (make_embed env fc e) (webhooks fc) s w) as Hw.
  destruct (post_to_webhooks env (make_embed env fc e) (webhooks fc) s w) as [s' w'].
  simpl in Hw. subst w'. rewrite IH. unfold posts_of. simpl.
  by rewrite foldl_app.
Qed.

Lemma post_articles_nil (env : environment) (fc : feed_config) (s : option string) (w : world) :
  post_articles env fc [] s w = (s, w).
Proof. reflexivity. Qed.

(** *** The recent entries *)

Lemma recent_articles_spec (env : environment) (since : Z) (es recent : list entry) :
  recent_articles env since es = Ret recent →
  ∀ e, e ∈ recent → e ∈ es ∧ published_since env since e.
Proof.
  revert recent. induction es as [|e0 es IH]; intros recent Hr e He; simpl in Hr.
  { simplify_eq. by apply elem_of_nil in He. }
  destruct (published_parsed e0) as [[|z t]|] eqn:Hp.
  - destruct (IH _ Hr e He). split; [by right|done].
  - destruct (mktime_fromtimestamp env (z :: t)) as [dt|] eqn:Hdt; [|done].
    destruct (recent_articles env since es) as [rest|]; [|done].
    simplify_eq. case_bool_decide as Hle.
    + apply elem_of_cons in He as [->|He].
      * split; [by left|]. by exists (z :: t), dt.
      * destruct (IH _ eq_refl e He). split; [by right|done].
    + destruct (IH _ eq_refl e He). split; [by right|done].
  - destruct (IH _ Hr e He). split; [by right|done].
Qed.

(** *** The stable sort *)

Lemma insert_sorted_Permutation {A} (le : A → A → bool) (x : A) (l : list A) :
  insert_sorted le x l ≡ₚ x :: l.
Proof.
  induction l as [|y l IH]; simpl; [done|].
  destruct (le x y); [done|]. rewrite IH. apply Permutation_swap.
Qed.

Lemma stable_sort_Permutation {A} (le : A → A → bool) (l : list A) :
  stable_sort le l ≡ₚ l.
Proof.
  induction l as [|x l IH]; simpl; [done|].
  unfold stable_sort in *. simpl. by rewrite insert_sorted_Permutation, IH.
Qed.

Section stable_sort_sorted.
Context {A : Type} (le : A → A → bool).
Hypothesis le_total : ∀ x y, le x y = true ∨ le y x = true.
Hypothesis le_trans : ∀ x y z, le x y = true → le y z = true → le x z = true.

Lemma insert_sorted_StronglySorted (x : A) (l : list A) :
  StronglySorted (λ a b, le a b = true) l →
  StronglySorted (λ a b, le a b = true) (insert_sorted le x l).
Proof.
  induction 1 as [|y l Hs IH Hy]; simpl; [repeat constructor|].
  destruct (le x y) eqn:Hxy.
  - constructor; [by constructor|]. constructor; [done|].
    eapply Forall_impl; [exact Hy|]. intros z Hz. by eapply le_trans.
  - constructor; [done|].
    rewrite insert_sorted_Permutation. constructor; [|done].
    destruct (le_total x y); congruence.
Qed.

Lemma stable_sort_StronglySorted (l : list A) :
  StronglySorted (λ a b, le a b = true) (stable_sort le l).
Proof.
  induction l as [|x l IH]; [constructor|]. by apply insert_sorted_StronglySorted.
Qed.

End stable_sort_sorted.

Lemma tuple_leb_total (a b : list Z) : tuple_leb a b = true ∨ tuple_leb b a = true.
Proof.
  revert b. induction a as [|x a IH]; intros [|y b]; simpl; auto.
  destruct (Z.ltb_spec x y), (Z.ltb_spec y x); auto; lia.
Qed.

Lemma tuple_leb_trans (a b c : list Z) :
  tuple_leb a b = true → tuple_leb b c = true → tuple_leb a c = true.
Proof.
  revert b c. induction a as [|x a IH]; intros [|y b] [|z c]; simpl; try done.
  destruct (Z.ltb_spec x y), (Z.ltb_spec y x), (Z.ltb_spec y z), (Z.ltb_spec z y),
    (Z.ltb_spec x z), (Z.ltb_spec z x); try done; try lia.
  apply IH.
Qed.


(** *** The dict of candidate identifiers *)

Lemma dict_keys_set (k k' : string) (v : entry) (d : dict) :
  k ∈ dict_keys (dict_set k' v d) ↔ k = k' ∨ k ∈ dict_keys d.
Proof.
  unfold dict_keys. induction d as [|[k0 v0] d IH]; simpl.
  - rewrite list_elem_of_singleton, elem_of_nil. tauto.
  - destruct (decide (k' = k0)) as [->|Hne]; simpl; rewrite !elem_of_cons; [tauto|].
    rewrite IH. tauto.
Qed.


Lemma dict_get_set (k k' : string) (v : entry) (d : dict) :
  dict_get k (dict_set k' v d) = if decide (k = k') then Some v else dict_get k d.
Proof.
  induction d as [|[k0 v0] d IH]; simpl.
  - by destruct (decide (k = k')).
  - destruct (decide (k' = k0)) as [->|Hne]; simpl.
    + by destruct (decide (k = k0)).
    + rewrite IH. destruct (decide (k = k0)) as [->|?]; [|done].
      by destruct (decide (k0 = k')) as [->|?].
Qed.

Lemma dict_get_Some_key (k : string) (e : entry) (d : dict) :
  dict_get k d = Some e → k ∈ dict_keys d.
Proof.
  unfold dict_keys. induction d as [|[k0 v0] d IH]; simpl; [done|].
  destruct (decide (k = k0)) as [->|?]; intros H; [by left|]. right. by apply IH.
Qed.

Lemma dict_get_key (k : string) (d : dict) : k ∈ dict_keys d → is_Some (dict_get k d).
Proof.
  unfold dict_keys. induction d as [|[k0 v0] d IH]; simpl; [by intros ?%elem_of_nil|].
  destruct (decide (k = k0)) as [->|?]; [by eauto|].
  intros [?|?]%elem_of_cons; [done|]. by apply IH.
Qed.

(** The comprehension, from any dict built so far. *)
Lemma article_id_map_from_keys (d : dict) (recent : list entry) (k : string) :
  k ∈ dict_keys
        (foldl (λ d e, match candidate_id e with Some k => dict_set k e d | None => d end)
               d recent)
  ↔ k ∈ dict_keys d ∨ ∃ e, e ∈ recent ∧ candidate_id e = Some k.
Proof.
  revert d. induction recent as [|e recent IH]; intros d; simpl.
  - split; [by left|]. intros [?|(e & []%elem_of_nil & _)]; done.
  - rewrite IH. destruct (candidate_id e) as [k'|] eqn:Hc.
    + rewrite dict_keys_set. split.
      * intros [[->|?]|(e' & ? & ?)]; [right; exists e; split; [by left|done]|by left|].
        right. exists e'. split; [by right|done].
      * intros [?|(e' & [->|?]%elem_of_cons & ?)]; [by left; right| |by right; eauto].
        left. left. congruence.
    + split.
      * intros [?|(e' & ? & ?)]; [by left|]. right. exists e'. split; [by right|done].
      * intros [?|(e' & [->|?]%elem_of_cons & ?)]; [by left|congruence|by right; eauto].
Qed.


Lemma article_id_map_from_get (d : dict) (recent : list entry) (k : string) (e : entry) :
  dict_get k
    (foldl (λ d e, match candidate_id e with Some k => dict_set k e d | None => d end)
           d recent) = Some e →
  dict_get k d = Some e ∨ e ∈ recent.
Proof.
  revert d. induction recent as [|e0 recent IH]; intros d; simpl; [by left|].
  intros [Hg|?]%IH; [|by right; right].
  destruct (candidate_id e0) as [k'|]; [|by left].
  rewrite dict_get_set in Hg. destruct (decide (k = k')); [|by left].
  simplify_eq. right. by left.
Qed.

(** The keys of [article_id_map] are the candidate identifiers of the recent
    entries, each once. *)
Lemma article_id_map_keys (recent : list entry) (k : string) :
  k ∈ dict_keys (article_id_map recent) ↔ ∃ e, e ∈ recent ∧ candidate_id e = Some k.
Proof.
  unfold article_id_map. rewrite article_id_map_from_keys. split; [|by right].
  intros [[]%elem_of_nil|?]; done.
Qed.


Lemma article_id_map_get (recent : list entry) (k : string) (e : entry) :
  dict_get k (article_id_map recent) = Some e → e ∈ recent.
Proof. intros [?|?]%article_id_map_from_get; done. Qed.

Lemma lookup_all_spec (d : dict) (ids : list string) (es : list entry) :
  lookup_all d ids = Ret es → ∀ e, e ∈ es → ∃ k, k ∈ ids ∧ dict_get k d = Some e.
Proof.
  revert es. induction ids as [|k ids IH]; intros es; simpl.
  - intros [= <-] e []%elem_of_nil.
  - destruct (dict_get k d) as [e0|] eqn:Hg; [|done].
    destruct (lookup_all d ids) as [es0|]; [|done].
    intros [= <-] e [->|He]%elem_of_cons.
    + exists k. split; [by left|done].
    + destruct (IH _ eq_refl e He) as (k' & ? & ?). exists k'. split; [by right|done].
Qed.

Lemma lookup_all_total (d : dict) (ids : list string) :
  (∀ k, k ∈ ids → k ∈ dict_keys d) → ∃ es, lookup_all d ids = Ret es.
Proof.
  induction ids as [|k ids IH]; intros Hk; simpl; [by eauto|].
  destruct (dict_get_key k d) as [e ->]; [apply Hk; by left|].
  destruct IH as [es ->]; [intros k' ?; apply Hk; by right|]. eauto.
Qed.

(** *** The ledger, whatever fails *)

(** What a call returns is among the candidates. *)
Lemma filter_and_update_subset (flt : fault) (file : ledger_file) (C : list string)
    (new : gset string) :
  (filter_and_update_sent_articles flt file C).1 = Ret new → new ⊆ list_to_set C.
Proof.
  unfold filter_and_update_sent_articles, try_block, except_FileNotFoundError, fails.
  destruct flt as [[]|], file as [[| |]|]; simpl;
    repeat (case_match || case_decide); simplify_eq/=;
    intros [= <-]; set_solver.
Qed.

(** Without a fault a call returns. *)
Lemma filter_and_update_no_fault_returns (file : ledger_file) (C : list string) :
  ∃ new, (filter_and_update_sent_articles None file C).1 = Ret new.
Proof.
  unfold filter_and_update_sent_articles, try_block, except_FileNotFoundError, fails.
  destruct file as [[| |]|]; simpl; repeat (case_match || case_decide); simplify_eq/=; eauto.
Qed.

(** *** The choice of the entries to post *)

Lemma articles_to_post_spec (env : environment) (w : world) (fc : feed_config)
    (recent : list entry) :
  let seeded :=
    filter_and_update_sent_articles (ledger_fault env (feed_url fc))
      (sent_articles_file w) (dict_keys (article_id_map recent)) in
  (articles_to_post env w fc recent).2 = set_sent_articles_file seeded.2 w
  ∧ ∀ to_post, (articles_to_post env w fc recent).1 = Ret to_post →
      ∀ e, e ∈ to_post → e ∈ recent.
Proof.
  unfold articles_to_post. simpl.
  destruct (filter_and_update_sent_articles _ _ _) as [[new|x] file'] eqn:Hf; simpl;
    [|by split].
  destruct (match feed_id fc with Some i => _ | None => true end); simpl.
  - split; [done|]. intros to_post [= <-] e He.
    destruct recent; simpl in He; [by apply elem_of_nil in He|].
    apply list_elem_of_singleton in He as ->. by left.
  - split; [done|]. intros to_post Hl e He.
    destruct (lookup_all_spec _ _ _ Hl e He) as (k & _ & Hg).
    by eapply article_id_map_get.
Qed.

Lemma sort_oldest_first_Permutation (es : list entry) : sort_oldest_first es ≡ₚ es.
Proof. apply stable_sort_Permutation. Qed.

Lemma sort_newest_first_Permutation (es : list entry) : sort_newest_first es ≡ₚ es.
Proof. apply stable_sort_Permutation. Qed.

(** The posts of a check: those of a list of entries, each of which was
    fetched in this check and is published not more than 24 hours before
    it. *)
Lemma check_single_feed_posts (env : environment) (w : world) (fc : feed_config) :
  ∃ to_post,
    posted (check_single_feed env w fc).2 = (posted w ++ posts_of env fc to_post)%list
    ∧ ∀ e, e ∈ to_post →
        e ∈ entries (feedparser_parse env (feed_url fc))
        ∧ published_since env (datetime_now env - timedelta_hours 24) e.
Proof.
  unfold check_single_feed.
  destruct (entries (feedparser_parse env (feed_url fc))) as [|e0 es] eqn:Hes.
  { exists []. simpl. rewrite app_nil_r. split; [done|]. by intros e ?%elem_of_nil. }
  destruct (recent_articles env _ (e0 :: es)) as [[|r0 recent]|x] eqn:Hrec;
    try (exists []; simpl; rewrite app_nil_r; split; [done|]; by intros e ?%elem_of_nil).
  pose proof (articles_to_post_spec env (add_fetched (feed_url fc) w) fc
                (sort_newest_first (r0 :: recent))) as [Hw Hin].
  destruct (articles_to_post env (add_fetched (feed_url fc) w) fc
              (sort_newest_first (r0 :: recent))) as [[to_post|x] w1]; cbn [fst snd] in Hw, Hin.
  - pose proof (post_articles_world env fc (sort_oldest_first to_post) None w1) as Hp.
    destruct (post_articles env fc (sort_oldest_first to_post) None w1) as [s w2].
    simpl in Hp. subst w2 w1. exists (sort_oldest_first to_post).
    simpl. rewrite add_posted_foldl_posted. split; [done|].
    intros e He. rewrite sort_oldest_first_Permutation in He.
    apply (Hin _ eq_refl) in He. rewrite sort_newest_first_Permutation in He.
    by apply (recent_articles_spec _ _ _ _ Hrec).
  - subst w1. exists []. simpl. rewrite app_nil_r. split; [done|]. by intros e ?%elem_of_nil.
Qed.

(** ** The window of recent entries *)


(** The bound is on the publish time as the machine converts it.  Where
    daylight saving time is in effect the conversion shows the time one hour
    later, and an entry published 24 hours and 30 minutes before the check
    is dispatched. *)
Example entry_older_than_a_day_dispatched :
  entries (feedparser_parse daylight_saving_environment (feed_url sample_feed))
  = [entry_at "x" yesterday_half_past_eleven]
  ∧ timegm yesterday_half_past_eleven
    = Some (datetime_now daylight_saving_environment - timedelta_hours 24 - 1800000000)
  ∧ posted (check_single_feed daylight_saving_environment empty_world sample_feed).2
    = [("hook", make_embed daylight_saving_environment sample_feed
                  (entry_at "x" yesterday_half_past_eleven))].
Proof. repeat split; by vm_compute. Qed.



(** ** A ledger that fails during a check *)

(** C7, as the claim states it, fails: on the first check of a feed the
    ledger file exists and does not load, the call on the ledger returns the
    empty set, and the newest entry is dispatched all the same. *)
Lemma unreadable_ledger_first_check_dispatches :
  sent_articles_file corrupt_ledger_world = Some YamlCorrupt
  ∧ (filter_and_update_sent_articles
       (ledger_fault morning_environment (feed_url sample_feed))
       (sent_articles_file corrupt_ledger_world) ["x"]).1 = Ret ∅
  ∧ posted (check_single_feed morning_environment corrupt_ledger_world sample_feed).2
    = [("hook", make_embed morning_environment sample_feed (entry_at "x" eleven_oclock))].
Proof. repeat split; by vm_compute. Qed.

Lemma not_first_check_flag (w : world) (fc : feed_config) (u : option string) :
  ¬ is_first_check w fc →
  match feed_id fc with
  | Some i => bool_decide (load_feed_state (add_fetched u w) !! i = None)
  | None => true
  end = false.
Proof.
  unfold is_first_check. destruct (feed_id fc); [|done].
  intros Hn. by apply bool_decide_eq_false_2.
Qed.

(** C7, amended. When the ledger file exists and loading it raises, or one
    of the operations up to the write raises (open, lock, load, truncate,
    dump), [filter_and_update_sent_articles] returns the empty set; on any
    check but the first of a feed, no entry is then dispatched and no
    delivery outcome is returned. *)
Theorem ledger_failure_fails_closed
    (env : environment) (w : world) (fc : feed_config) (doc : yaml_doc) :
  sent_articles_file w = Some doc →
  doc = YamlCorrupt
  ∨ ledger_fault env (feed_url fc)
      ∈ [Some OpenRW; Some LockRW; Some SafeLoad; Some Truncate; Some Dump] →
  (∀ C, (filter_and_update_sent_articles
           (ledger_fault env (feed_url fc)) (sent_articles_file w) C).1 = Ret ∅)
  ∧ (¬ is_first_check w fc →
       posted (check_single_feed env w fc).2 = posted w
       ∧ ∀ r, (check_single_feed env w fc).1 = Ret r → r.2 = None).
Proof.
  intros Hfile Hfail. rewrite Hfile.
  split; [intros C; by apply filter_and_update_fails_closed|].
  intros Hnot. unfold check_single_feed.
  destruct (entries (feedparser_parse env (feed_url fc))) as [|e0 es]; [by split; [|intros r [= <-]]|].
  destruct (recent_articles env _ (e0 :: es)) as [[|r0 recent]|x];
    [by split; [|intros r [= <-]]| |by split].
  unfold articles_to_post. rewrite (not_first_check_flag _ _ _ Hnot). simpl.
  rewrite Hfile.
  pose proof (filter_and_update_fails_closed (ledger_fault env (feed_url fc)) doc
    (dict_keys (article_id_map (sort_newest_first (r0 :: recent)))) Hfail) as Hret.
  destruct (filter_and_update_sent_articles _ _ _) as [res file']. simpl in Hret. subst res.
  rewrite elements_empty. simpl. by split; [|intros r [= <-]].
Qed.

Lemma ledger_failure_fails_closed_witness :
  sent_articles_file corrupt_ledger_checked_world = Some YamlCorrupt
  ∧ ¬ is_first_check corrupt_ledger_checked_world sample_feed
  ∧ (filter_and_update_sent_articles
       (ledger_fault morning_environment (feed_url sample_feed))
       (sent_articles_file corrupt_ledger_checked_world) ["x"]).1 = Ret ∅
  ∧ posted (check_single_feed morning_environment corrupt_ledger_checked_world sample_feed).2
    = posted corrupt_ledger_checked_world.
Proof.
  assert (sent_articles_file corrupt_ledger_checked_world = Some YamlCorrupt) as H1
    by reflexivity.
  assert (¬ is_first_check corrupt_ledger_checked_world sample_feed) as H2 by compute_done.
  split; [exact H1|]. split; [exact H2|].
  destruct (ledger_failure_fails_closed morning_environment corrupt_ledger_checked_world
              sample_feed YamlCorrupt H1 (or_introl eq_refl)) as [Hnew Hposted].
  split; [exact (Hnew ["x"])|]. exact (proj1 (Hposted H2)).
Defined.

(** ** The first check of a feed *)







(** The same first check, evaluated: of the two recent entries the one of
    eleven o'clock is posted, and both identifiers are in the ledger. *)
Example first_check_evaluated :
  (check_single_feed two_entries_environment empty_world sample_feed).1
  = Ret (200, Some "Success")
  ∧ posted (check_single_feed two_entries_environment empty_world sample_feed).2
    = [("hook", make_embed two_entries_environment sample_feed (entry_at "y" eleven_oclock))]
  ∧ sent_articles_file (check_single_feed two_entries_environment empty_world sample_feed).2
    = Some (YamlSeq ["x"; "y"]).
Proof. repeat split; by vm_compute. Qed.

(** ** A fetch without a status *)

Lemma recent_articles_explicit_500 (env : environment) (since : Z) (es : list entry) :
  recent_articles (explicit_500 env) since es = recent_articles env since es.
Proof.
  induction es as [|e es IH]; simpl; [done|]. rewrite IH. done.
Qed.

Lemma post_to_webhooks_explicit_500 (env : environment) (e : embed) (whs : list webhook)
    (s : option string) (w : world) :
  post_to_webhooks (explicit_500 env) e whs s w = post_to_webhooks env e whs s w.
Proof.
  revert s w. induction whs as [|wh whs IH]; intros s w; simpl; [done|].
  destruct (truthy (webhook_url wh)) as [url|]; [|apply IH].
  change (send_to_webhook (explicit_500 env) w url e) with (send_to_webhook env w url e).
  destruct (send_to_webhook env w url e). apply IH.
Qed.

Lemma post_articles_explicit_500 (env : environment) (fc : feed_config) (es : list entry)
    (s : option string) (w : world) :
  post_articles (explicit_500 env) fc es s w = post_articles env fc es s w.
Proof.
  revert s w. induction es as [|e es IH]; intros s w; simpl; [done|].
  change (make_embed (explicit_500 env) fc e) with (make_embed env fc e).
  rewrite post_to_webhooks_explicit_500.
  destruct (post_to_webhooks env (make_embed env fc e) (webhooks fc) s w). apply IH.
Qed.

(** A fetch without a status and a fetch with the status 500 are the same
    to [check_single_feed]. *)
Lemma check_single_feed_explicit_500 (env : environment) (w : world) (fc : feed_config) :
  check_single_feed (explicit_500 env) w fc = check_single_feed env w fc.
Proof.
  unfold check_single_feed.
  cbn [explicit_500 feedparser_parse status entries datetime_now].
  destruct (status (feedparser_parse env (feed_url fc))) as [c|]; cbn [default];
  (destruct (entries (feedparser_parse env (feed_url fc))) as [|e0 es]; [done|];
  rewrite recent_articles_explicit_500;
  destruct (recent_articles env _ (e0 :: es)) as [[|r0 recent]|x]; [done| |done];
  change (articles_to_post (explicit_500 env)) with (articles_to_post env);
  destruct (articles_to_post env _ fc _) as [[to_post|x] w1]; [|done];
  by rewrite post_articles_explicit_500).
Qed.

Lemma scan_feed_explicit_500 (env : environment) (st : gmap string check_state)
    (w : world) (fc : feed_config) :
  scan_feed (explicit_500 env) st w fc = scan_feed env st w fc.
Proof. unfold scan_feed. by rewrite check_single_feed_explicit_500. Qed.

(** Every status that [check_single_feed] returns is the status of the
    fetch, or 500 when the fetch has none. *)
Lemma check_single_feed_status (env : environment) (w w' : world) (fc : feed_config)
    (r : Z * option string) :
  check_single_feed env w fc = (Ret r, w') →
  r.1 = default 500 (status (feedparser_parse env (feed_url fc))).
Proof.
  unfold check_single_feed.
  destruct (entries (feedparser_parse env (feed_url fc))) as [|e0 es]; [by intros [= <- _]|].
  destruct (recent_articles env _ (e0 :: es)) as [[|r0 recent]|x];
    [by intros [= <- _]| |done].
  destruct (articles_to_post env _ fc _) as [[to_post|x] w1]; [|done].
  destruct (post_articles env fc _ None w1). by intros [= <- _].
Qed.

Lemma recent_articles_total (env : environment) (since : Z) (es : list entry) :
  (∀ e t, e ∈ es → published_parsed e = Some t → is_Some (mktime_fromtimestamp env t)) →
  ∃ recent, recent_articles env since es = Ret recent.
Proof.
  induction es as [|e es IH]; intros Hconv; simpl; [by eauto|].
  destruct IH as [rest Hrest]; [intros e' t ??; apply (Hconv e' t); [by right|done]|].
  destruct (published_parsed e) as [[|z t]|] eqn:Hp; [by eauto| |by eauto].
  destruct (Hconv e (z :: t)) as [dt ->]; [by left|done|].
  rewrite Hrest. eauto.
Qed.

Lemma articles_to_post_total (env : environment) (w : world) (fc : feed_config)
    (recent : list entry) :
  ledger_fault env (feed_url fc) = None →
  ∃ to_post w', articles_to_post env w fc recent = (Ret to_post, w').
Proof.
  intros Hflt. unfold articles_to_post. rewrite Hflt.
  destruct (filter_and_update_no_fault_returns (sent_articles_file w)
              (dict_keys (article_id_map recent))) as [new Hnew].
  pose proof (filter_and_update_subset None (sent_articles_file w) _ _ Hnew) as Hsub.
  destruct (filter_and_update_sent_articles _ _ _) as [r file']. simpl in Hnew. subst r.
  destruct (match feed_id fc with Some i => _ | None => true end); [by eexists _, _|].
  destruct (lookup_all_total (article_id_map recent) (elements new)) as [es Hes].
  - intros k Hk%elem_of_elements. apply Hsub in Hk. by apply elem_of_list_to_set in Hk.
  - rewrite Hes. by eexists _, _.
Qed.

(** When no publish time fails to convert and no ledger operation fails,
    [check_single_feed] returns. *)
Lemma check_single_feed_returns (env : environment) (w : world) (fc : feed_config) :
  (∀ e t, e ∈ entries (feedparser_parse env (feed_url fc)) →
          published_parsed e = Some t → is_Some (mktime_fromtimestamp env t)) →
  ledger_fault env (feed_url fc) = None →
  ∃ r w', check_single_feed env w fc = (Ret r, w').
Proof.
  intros Hconv Hflt. unfold check_single_feed.
  destruct (entries (feedparser_parse env (feed_url fc))) as [|e0 es]; [by eexists _, _|].
  destruct (recent_articles_total env (datetime_now env - timedelta_hours 24) (e0 :: es) Hconv)
    as [recent ->].
  destruct recent as [|r0 recent]; [by eexists _, _|].
  destruct (articles_to_post_total env (add_fetched (feed_url fc) w) fc
              (sort_newest_first (r0 :: recent)) Hflt) as (to_post & w1 & ->).
  destruct (post_articles env fc _ None w1). by eexists _, _.
Qed.

(** C10. When the parsed result of a fetch carries no status,
    [check_single_feed] reports the integer 500 as transport status: in
    every result it returns; it does return when no publish time fails to
    convert and no ledger operation fails, in particular when the fetch has
    no entries.  The check, and the step of the scheduler around it, are the
    same as for a fetch that carries the status 500, and the scheduler
    records 500 as the status code of the feed. *)
Theorem missing_status_reported_as_500 (env : environment) (w : world) (fc : feed_config) :
  status (feedparser_parse env (feed_url fc)) = None →
  (∀ r w', check_single_feed env w fc = (Ret r, w') → r.1 = 500)
  ∧ (entries (feedparser_parse env (feed_url fc)) = [] →
       check_single_feed env w fc = (Ret (500, None), add_fetched (feed_url fc) w))
  ∧ ((∀ e t, e ∈ entries (feedparser_parse env (feed_url fc)) →
             published_parsed e = Some t → is_Some (mktime_fromtimestamp env t)) →
     ledger_fault env (feed_url fc) = None →
     ∃ last w', check_single_feed env w fc = (Ret (500, last), w'))
  ∧ status (feedparser_parse (explicit_500 env) (feed_url fc)) = Some 500
  ∧ check_single_feed env w fc = check_single_feed (explicit_500 env) w fc
  ∧ (∀ st, scan_feed env st w fc = scan_feed (explicit_500 env) st w fc)
  ∧ (∀ st fid r w',
       truthy (feed_id fc) = Some fid → st !! fid ≫= last_checked = None →
       check_single_feed env w fc = (Ret r, w') →
       ∃ st' cs, (scan_feed env st w fc).1 = Ret st'
                 ∧ st' !! fid = Some cs
                 ∧ status_code cs = Some 500
                 ∧ feed_state_file (scan_feed env st w fc).2 = Some st').
Proof.
  intros Hst.
  split. { intros r w' Hr. apply check_single_feed_status in Hr. by rewrite Hst in Hr. }
  split. { intros Hes. unfold check_single_feed. by rewrite Hes, Hst. }
  split.
  { intros Hconv Hflt. destruct (check_single_feed_returns env w fc Hconv Hflt) as ([code last] & w' & Hr).
    pose proof (check_single_feed_status _ _ _ _ _ Hr) as Hcode. rewrite Hst in Hcode.
    simpl in Hcode. subst code. eauto. }
  split. { simpl. by rewrite Hst. }
  split. { by rewrite check_single_feed_explicit_500. }
  split. { intros st. by rewrite scan_feed_explicit_500. }
  intros st fid [code last] w' Hfid Hdue Hr.
  pose proof (check_single_feed_status _ _ _ _ _ Hr) as Hcode. rewrite Hst in Hcode.
  simpl in Hcode. subst code.
  unfold scan_feed. rewrite Hfid, Hdue. cbn [should_check]. rewrite Hr.
  eexists _, _. cbn [fst snd]. split; [done|]. rewrite lookup_insert_eq.
  split; [done|]. by split.
Qed.

Lemma missing_status_reported_as_500_witness :
  status (feedparser_parse unreachable_environment (feed_url sample_feed)) = None
  ∧ check_single_feed unreachable_environment (world_with sample_feed) sample_feed
    = (Ret (500, None), add_fetched (feed_url sample_feed) (world_with sample_feed)).
Proof.
  assert (status (feedparser_parse unreachable_environment (feed_url sample_feed)) = None)
    as H1 by reflexivity.
  split; [exact H1|].
  exact (proj1 (proj2 (missing_status_reported_as_500 unreachable_environment
                         (world_with sample_feed) sample_feed H1)) eq_refl).
Defined.

(** An unreachable feed, through one turn of the scheduler: 500 is what the
    check-state file holds. *)
Example unreachable_feed_recorded :
  feed_state_file (scan unreachable_environment (world_with sample_feed)).2
  = Some {[ "feed" := {| status_code := Some 500;
                         last_checked := Some 1704196800000000;
                         last_post := None |} ]}.
Proof. by vm_compute. Qed.

(** ** The [active] flag *)

Lemma post_articles_set_active (env : environment) (a : option bool) (fc : feed_config)
    (es : list entry) (s : option string) (w : world) :
  post_articles env (set_active a fc) es s w = post_articles env fc es s w.
Proof.
  revert s w. induction es as [|e es IH]; intros s w; simpl; [done|].
  change (make_embed env (set_active a fc) e) with (make_embed env fc e).
  destruct (post_to_webhooks env (make_embed env fc e) (webhooks fc) s w). apply IH.
Qed.

Lemma check_single_feed_set_active (env : environment) (a : option bool) (w : world)
    (fc : feed_config) :
  check_single_feed env w (set_active a fc) = check_single_feed env w fc.
Proof.
  unfold check_single_feed. simpl.
  destruct (entries (feedparser_parse env (feed_url fc))) as [|e0 es]; [done|].
  destruct (recent_articles env _ (e0 :: es)) as [[|r0 recent]|x]; [done| |done].
  change (articles_to_post env (add_fetched (feed_url fc) w) (set_active a fc))
    with (articles_to_post env (add_fetched (feed_url fc) w) fc).
  destruct (articles_to_post env _ fc _) as [[to_post|x] w1]; [|done].
  by rewrite post_articles_set_active.
Qed.

(** The step of the scheduler for a feed does not depend on the [active]
    flag of the feed. *)
Lemma scan_feed_set_active (env : environment) (a : option bool)
    (st : gmap string check_state) (w : world) (fc : feed_config) :
  scan_feed env st w (set_active a fc) = scan_feed env st w fc.
Proof. unfold scan_feed. simpl. by rewrite check_single_feed_set_active. Qed.

(** C5. The scheduler checks a feed whose [active] flag is false: in one
    turn of the loop on a configuration that holds only the paused feed, the
    feed is fetched and its check state is written. *)
Theorem paused_feed_is_checked :
  active paused_feed = Some false
  ∧ (run [sample_environment [] None] (world_with paused_feed)).1 = Ret ()
  ∧ fetched (run [sample_environment [] None] (world_with paused_feed)).2
    = [Some "http://feed"]
  ∧ feed_state_file (run [sample_environment [] None] (world_with paused_feed)).2
    = Some {[ "feed" := {| status_code := Some 200;
                           last_checked := Some 1704196800000000;
                           last_post := None |} ]}.
Proof. repeat split; by vm_compute. Qed.

(** ** The check on demand *)

(** The call that [force_check_feed] makes is refused. *)
Lemma call_check_single_feed_two_arguments (env : environment) (w : world)
    (fc : feed_config) (st : gmap string check_state) :
  call_check_single_feed env w fc [PyFeedState st]
  = (Raise (TypeError "check_single_feed() takes 1 positional argument but 2 were given"), w).
Proof. reflexivity. Qed.

(** C4. [force_check_feed] never runs the check and never writes the check
    state: it leaves the world as it is and never reports a check.  For a
    configured feed it reports the [TypeError] of its call of
    [check_single_feed], which takes the feed definition only: the scheduler,
    in the same world, fetches the feed and writes its state. *)
Theorem force_check_feed_changes_nothing :
  (∀ env w fid,
     (force_check_feed env w fid).2 = w
     ∧ ∀ code, (force_check_feed env w fid).1 ≠ Ret (CheckedSuccessfully code))
  ∧ force_check_feed (sample_environment [] None) (world_with sample_feed) "feed"
    = (Ret (ErrorCheckingFeed
              (TypeError "check_single_feed() takes 1 positional argument but 2 were given")),
       world_with sample_feed)
  ∧ fetched (scan (sample_environment [] None) (world_with sample_feed)).2
    = [Some "http://feed"].
Proof.
  split; [|split; by vm_compute].
  intros env w fid. unfold force_check_feed.
  destruct (find_feed fid (config_feeds w)) as [[fc|]|x]; [|by split..].
  rewrite call_check_single_feed_two_arguments. by split.
Qed.

(** * Further properties *)

(** ** The ledger, call after call *)

Lemma filter_and_update_leaves_a_file (C : list string) (file : ledger_file) :
  readable file →
  ∃ doc, (filter_and_update_sent_articles None file C).2 = Some doc ∧ readable (Some doc).
Proof.
  intros Hr. destruct file as [doc|].
  - destruct (decide (list_to_set C ∖ ledger_ids (Some doc) = (∅ : gset string))).
    + rewrite filter_and_update_nothing_new by done. by exists doc.
    + rewrite filter_and_update_inserting by done. by eexists.
  - rewrite filter_and_update_missing. by eexists.
Qed.

(** X1. Submitting the same candidates again, when the first call evicted
    nothing, returns no new identifier and leaves the file as the first call
    left it. *)
Theorem filter_and_update_repeated (C : list string) (file : ledger_file) :
  NoDup C → readable file →
  (size (ledger_ids file ∪ list_to_set C) ≤ LEDGER_CAP)%nat →
  filter_and_update_sent_articles None (filter_and_update_sent_articles None file C).2 C
  = (Ret ∅, (filter_and_update_sent_articles None file C).2).
Proof.
  intros Hnd Hr Hcap.
  assert (size (ledger_ids file) ≤ LEDGER_CAP)%nat as Hcap0.
  { etrans; [|exact Hcap]. apply subseteq_size, union_subseteq_l. }
  pose proof (filter_and_update_ledger C file Hnd Hr Hcap0) as Hled.
  rewrite last_n_all, list_to_set_sorted_elements in Hled by (by rewrite length_sorted_elements).
  destruct (filter_and_update_leaves_a_file C file Hr) as (doc & Hdoc & Hrd).
  rewrite Hdoc in *. apply filter_and_update_nothing_new; [done|].
  rewrite Hled. apply set_eq. intros x.
  rewrite elem_of_difference, elem_of_union, elem_of_empty. tauto.
Qed.

Lemma filter_and_update_repeated_witness :
  NoDup ["c"; "a"]
  ∧ readable (Some (YamlSeq ["b"; "a"]))
  ∧ filter_and_update_sent_articles None
      (filter_and_update_sent_articles None (Some (YamlSeq ["b"; "a"])) ["c"; "a"]).2 ["c"; "a"]
    = (Ret ∅, (filter_and_update_sent_articles None (Some (YamlSeq ["b"; "a"])) ["c"; "a"]).2).
Proof.
  assert (NoDup ["c"; "a"]) as H1 by compute_done.
  assert (readable (Some (YamlSeq ["b"; "a"]))) as H2 by discriminate.
  assert (size (ledger_ids (Some (YamlSeq ["b"; "a"])) ∪ list_to_set ["c"; "a"]) ≤ LEDGER_CAP)%nat
    as H3 by compute_done.
  split; [exact H1|]. split; [exact H2|].
  exact (filter_and_update_repeated ["c"; "a"] (Some (YamlSeq ["b"; "a"])) H1 H2 H3).
Defined.

(** X2. Whatever fails, the identifiers that a call returns are candidates
    that the ledger file did not hold before the call. *)
Theorem returned_ids_are_unrecorded_candidates
    (flt : fault) (file : ledger_file) (C : list string) (new : gset string) :
  (filter_and_update_sent_articles flt file C).1 = Ret new →
  new ⊆ list_to_set C ∧ new ## ledger_ids file.
Proof.
  unfold filter_and_update_sent_articles, try_block, except_FileNotFoundError, fails, ledger_ids.
  destruct flt as [[]|], file as [[| |]|]; simpl;
    repeat (case_match || case_decide); simplify_eq/=;
    intros [= <-]; split; set_solver.
Qed.

Lemma returned_ids_are_unrecorded_candidates_witness :
  (filter_and_update_sent_articles (Some UnlockRW) (Some (YamlSeq ["a"])) ["b"; "a"]).1
  = Ret {["b"]}
  ∧ ({["b"]} : gset string) ⊆ list_to_set ["b"; "a"]
  ∧ ({["b"]} : gset string) ## ledger_ids (Some (YamlSeq ["a"])).
Proof.
  assert ((filter_and_update_sent_articles (Some UnlockRW) (Some (YamlSeq ["a"])) ["b"; "a"]).1
          = Ret {["b"]}) as H1 by (vm_compute; reflexivity).
  split; [exact H1|].
  exact (returned_ids_are_unrecorded_candidates (Some UnlockRW) (Some (YamlSeq ["a"]))
           ["b"; "a"] {["b"]} H1).
Defined.

(** X3. Whatever fails, a ledger file within the cap stays within the cap. *)
Theorem ledger_stays_within_cap (flt : fault) (file : ledger_file) (C : list string) :
  (length (ledger_list file) ≤ LEDGER_CAP)%nat →
  (length (ledger_list (filter_and_update_sent_articles flt file C).2) ≤ LEDGER_CAP)%nat.
Proof.
  intros Hcap. destruct (filter_and_update_cap flt file C) as [->|Hle]; done.
Qed.

Lemma ledger_stays_within_cap_witness :
  (length (ledger_list (Some (YamlSeq ["b"; "a"]))) ≤ LEDGER_CAP)%nat
  ∧ (length (ledger_list
               (filter_and_update_sent_articles (Some UnlockRW) (Some (YamlSeq ["b"; "a"]))
                  ["c"]).2) ≤ LEDGER_CAP)%nat.
Proof.
  assert (length (ledger_list (Some (YamlSeq ["b"; "a"]))) ≤ LEDGER_CAP)%nat as H1
    by compute_done.
  split; [exact H1|].
  exact (ledger_stays_within_cap (Some UnlockRW) (Some (YamlSeq ["b"; "a"])) ["c"] H1).
Defined.

Lemma last_n_sorted_normal (n : nat) (X : gset string) :
  StronglySorted String.le (last_n n (sorted (elements X)))
  ∧ NoDup (last_n n (sorted (elements X))).
Proof.
  split.
  - eapply (StronglySorted_app_1_r String.le).
    rewrite <- last_n_split. apply sorted_StronglySorted.
  - eapply sublist_NoDup; [|apply sublist_drop].
    rewrite sorted_Permutation. apply NoDup_elements.
Qed.

(** X4. Whatever fails, a call on an existing file either leaves the file as
    it was or leaves it sorted in ascending order and without repetition,
    also when the file it found was unsorted or held an identifier twice. *)
Theorem written_ledger_is_sorted_set (flt : fault) (doc : yaml_doc) (C : list string) :
  (filter_and_update_sent_articles flt (Some doc) C).2 = Some doc
  ∨ (StronglySorted String.le
       (ledger_list (filter_and_update_sent_articles flt (Some doc) C).2)
     ∧ NoDup (ledger_list (filter_and_update_sent_articles flt (Some doc) C).2)).
Proof.
  unfold filter_and_update_sent_articles, try_block, fails.
  destruct flt as [[]|], doc; simpl; repeat case_decide; simpl; auto; right;
    try apply last_n_sorted_normal; split; constructor.
Qed.

(** X5. On an existing ledger file the call never raises, whatever fails;
    when there is no file and creating, locking, writing or unlocking it
    fails, the error leaves the function. *)
Theorem ledger_errors_swallowed_unless_file_missing :
  (∀ flt doc C, ∃ new, (filter_and_update_sent_articles flt (Some doc) C).1 = Ret new)
  ∧ (∀ flt C, flt ∈ [Some OpenW; Some LockW; Some DumpW; Some UnlockW] →
       (filter_and_update_sent_articles flt None C).1 = Raise OSError).
Proof.
  split.
  - intros flt doc C. unfold filter_and_update_sent_articles, try_block, fails.
    destruct flt as [[]|], doc; simpl; repeat case_decide; simpl; eauto.
  - intros flt C Hflt.
    repeat (apply elem_of_cons in Hflt as [->|Hflt]); [..|by apply elem_of_nil in Hflt];
      reflexivity.
Qed.

(** ** What a check does to the world *)

Lemma set_sent_articles_file_same (w : world) :
  set_sent_articles_file (sent_articles_file w) w = w.
Proof. by destruct w. Qed.

Lemma set_sent_articles_file_same_fetched (u : option string) (w : world) :
  set_sent_articles_file (sent_articles_file w) (add_fetched u w) = add_fetched u w.
Proof. by destruct w. Qed.

(** The world after a check: one fetch more, a ledger file, posts. *)
Lemma check_single_feed_world (env : environment) (w : world) (fc : feed_config) :
  ∃ file' ps,
    (check_single_feed env w fc).2
    = foldl (λ w p, add_posted p w)
        (set_sent_articles_file file' (add_fetched (feed_url fc) w)) ps.
Proof.
  assert (∃ file' ps, add_fetched (feed_url fc) w
            = foldl (λ w p, add_posted p w)
                (set_sent_articles_file file' (add_fetched (feed_url fc) w)) ps) as Hsame.
  { exists (sent_articles_file w), []. simpl. by destruct w. }
  unfold check_single_feed.
  destruct (entries (feedparser_parse env (feed_url fc))) as [|e0 es]; [done|].
  destruct (recent_articles env _ (e0 :: es)) as [[|r0 recent]|x]; [done| |done].
  pose proof (articles_to_post_spec env (add_fetched (feed_url fc) w) fc
                (sort_newest_first (r0 :: recent))) as [Hw _].
  destruct (articles_to_post env _ fc _) as [[to_post|x] w1]; cbn [fst snd] in Hw; subst w1.
  - pose proof (post_articles_world env fc (sort_oldest_first to_post) None
                  (set_sent_articles_file
                     (filter_and_update_sent_articles (ledger_fault env (feed_url fc))
                        (sent_articles_file (add_fetched (feed_url fc) w))
                        (dict_keys (article_id_map (sort_newest_first (r0 :: recent))))).2
                     (add_fetched (feed_url fc) w))) as Hp.
    destruct (post_articles env fc (sort_oldest_first to_post) None _) as [s w2].
    cbn [snd] in *. subst w2. by eexists _, _.
  - by eexists _, [].
Qed.

(** What a check leaves alone. *)
Lemma check_single_feed_keeps_files (env : environment) (w : world) (fc : feed_config) :
  fetched (check_single_feed env w fc).2 = (fetched w ++ [feed_url fc])%list
  ∧ config_feeds (check_single_feed env w fc).2 = config_feeds w
  ∧ feed_state_file (check_single_feed env w fc).2 = feed_state_file w.
Proof.
  destruct (check_single_feed_world env w fc) as (file' & ps & ->).
  by destruct (add_posted_foldl_files ps
            (set_sent_articles_file file' (add_fetched (feed_url fc) w)))
    as (_ & -> & -> & ->).
Qed.

(** X6. A check makes exactly one fetch, of the URL of the feed, and writes
    neither the configuration nor the check-state file, whatever it returns
    or raises. *)
Theorem check_single_feed_frame (env : environment) (w : world) (fc : feed_config) :
  fetched (check_single_feed env w fc).2 = (fetched w ++ [feed_url fc])%list
  ∧ config_feeds (check_single_feed env w fc).2 = config_feeds w
  ∧ feed_state_file (check_single_feed env w fc).2 = feed_state_file w.
Proof. apply check_single_feed_keeps_files. Qed.

(** ** The delivery outcome *)

Lemma send_to_webhook_classify (env : environment) (w : world) (url : string) (e : embed) :
  (send_to_webhook env w url e).1 = classify (requests_post env (length (posted w)) url e).
Proof. unfold send_to_webhook, classify. by repeat case_match. Qed.

Lemma last_status_cons (env : environment) (n : nat) (s : option string)
    (url : string) (e : embed) (ps : list (string * embed)) :
  last_status env n s ((url, e) :: ps)
  = last_status env (S n) (Some (classify (requests_post env n url e))) ps.
Proof.
  unfold last_status. destruct ps as [|p ps].
  - cbn [last length]. by replace (n + 1 - 1)%nat with n by lia.
  - rewrite last_cons_cons. destruct (last (p :: ps)) as [[u' e']|] eqn:Hl.
    + cbn [length]. do 4 f_equal. lia.
    + by apply last_None in Hl.
Qed.

Lemma last_status_app (env : environment) (n : nat) (s : option string)
    (ps qs : list (string * embed)) :
  last_status env n s (ps ++ qs)
  = last_status env (n + length ps) (last_status env n s ps) qs.
Proof.
  revert n s. induction ps as [|[u e] ps IH]; intros n s; simpl.
  - by replace (n + 0)%nat with n by lia.
  - rewrite !last_status_cons, IH. f_equal. lia.
Qed.

Lemma post_to_webhooks_status (env : environment) (e : embed) (whs : list webhook)
    (s : option string) (w : world) :
  (post_to_webhooks env e whs s w).1
  = last_status env (length (posted w)) s
      ((λ u, (u, e)) <$> omap (λ wh, truthy (webhook_url wh)) whs).
Proof.
  revert s w. induction whs as [|wh whs IH]; intros s w; simpl; [done|].
  destruct (truthy (webhook_url wh)) as [url|]; simpl; [|apply IH].
  pose proof (send_to_webhook_classify env w url e) as Hs.
  pose proof (send_to_webhook_world env w url e) as Hw.
  destruct (send_to_webhook env w url e) as [s' w']. simpl in Hs, Hw. subst s' w'.
  rewrite IH, last_status_cons. simpl. rewrite length_app. simpl.
  by replace (length (posted w) + 1)%nat with (S (length (posted w))) by lia.
Qed.

Lemma post_articles_status (env : environment) (fc : feed_config) (es : list entry)
    (s : option string) (w : world) :
  (post_articles env fc es s w).1
  = last_status env (length (posted w)) s (posts_of env fc es).
Proof.
  revert s w. induction es as [|e es IH]; intros s w; simpl; [done|].
  pose proof (post_to_webhooks_status env (make_embed env fc e) (webhooks fc) s w) as Hs.
  pose proof (post_to_webhooks_world env (make_embed env fc e) (webhooks fc) s w) as Hw.
  destruct (post_to_webhooks env (make_embed env fc e) (webhooks fc) s w) as [s' w'].
  simpl in Hs, Hw. subst s' w'. rewrite IH, add_posted_foldl_posted.
  unfold posts_of. simpl. rewrite last_status_app, length_app. reflexivity.
Qed.

(** The result of a check that returns, and its posts. *)
Lemma check_single_feed_outcome (env : environment) (w w' : world) (fc : feed_config)
    (r : Z * option string) :
  check_single_feed env w fc = (Ret r, w') →
  ∃ ps, posted w' = (posted w ++ ps)%list
        ∧ r.2 = last_status env (length (posted w)) None ps.
Proof.
  unfold check_single_feed.
  destruct (entries (feedparser_parse env (feed_url fc))) as [|e0 es].
  { intros [= <- <-]. exists []. by rewrite app_nil_r. }
  destruct (recent_articles env _ (e0 :: es)) as [[|r0 recent]|x]; [|..|done].
  { intros [= <- <-]. exists []. by rewrite app_nil_r. }
  pose proof (articles_to_post_spec env (add_fetched (feed_url fc) w) fc
                (sort_newest_first (r0 :: recent))) as [Hw _].
  destruct (articles_to_post env _ fc _) as [[to_post|x] w1]; [|done].
  cbn [fst snd] in Hw.
  pose proof (post_articles_status env fc (sort_oldest_first to_post) None w1) as Hs.
  pose proof (post_articles_world env fc (sort_oldest_first to_post) None w1) as Hp.
  destruct (post_articles env fc (sort_oldest_first to_post) None w1) as [s w2].
  cbn [fst snd] in Hs, Hp. intros [= <- <-]. subst w2.
  exists (posts_of env fc (sort_oldest_first to_post)).
  rewrite add_posted_foldl_posted. subst w1. done.
Qed.

(** X7. When a check returns, the delivery outcome it returns is [None]
    exactly when the check made no post; otherwise it is the classification
    of the answer to the last post that the check made, and the outcomes of
    the posts before it are lost. *)
Theorem delivery_outcome_is_of_last_post (env : environment) (w w' : world)
    (fc : feed_config) (code : Z) (last_post_status : option string) :
  check_single_feed env w fc = (Ret (code, last_post_status), w') →
  (last_post_status = None ↔ posted w' = posted w)
  ∧ ∀ s, last_post_status = Some s →
      ∃ url e, last (posted w') = Some (url, e)
               ∧ s = classify (requests_post env (length (posted w') - 1) url e).
Proof.
  intros (ps & Hps & Hlast)%check_single_feed_outcome. simpl in Hlast.
  unfold last_status in Hlast. rewrite Hps. split.
  - split.
    + intros ->. destruct (last ps) as [[u e]|] eqn:Hl; [done|].
      apply last_None in Hl as ->. by rewrite app_nil_r.
    + intros Heq. assert (ps = []) as ->; [|done].
      apply (f_equal length) in Heq. rewrite length_app in Heq.
      destruct ps; [done|simpl in Heq; lia].
  - intros s ->. destruct (last ps) as [[u e]|] eqn:Hl; [|done].
    exists u, e. simplify_eq. split.
    + apply last_Some in Hl as (ps' & ->). by rewrite app_assoc, last_snoc.
    + by rewrite length_app.
Qed.

Lemma delivery_outcome_is_of_last_post_witness :
  check_single_feed two_entries_environment empty_world sample_feed
  = (Ret (200, Some "Success"),
     (check_single_feed two_entries_environment empty_world sample_feed).2)
  ∧ ((Some "Success" = None
      ↔ posted (check_single_feed two_entries_environment empty_world sample_feed).2
        = posted empty_world)
     ∧ ∀ s, Some "Success" = Some s →
         ∃ url e,
           last (posted (check_single_feed two_entries_environment empty_world sample_feed).2)
           = Some (url, e)
           ∧ s = classify
                   (requests_post two_entries_environment
                      (length (posted (check_single_feed two_entries_environment
                                         empty_world sample_feed).2) - 1) url e)).
Proof.
  assert (check_single_feed two_entries_environment empty_world sample_feed
          = (Ret (200, Some "Success"),
             (check_single_feed two_entries_environment empty_world sample_feed).2)) as H1
    by (vm_compute; reflexivity).
  split; [exact H1|].
  exact (delivery_outcome_is_of_last_post two_entries_environment empty_world _
           sample_feed 200 (Some "Success") H1).
Defined.

(** ** A check after the first *)

Lemma article_id_map_from_candidate (d : dict) (recent : list entry) (k : string) (e : entry) :
  dict_get k
    (foldl (λ d e, match candidate_id e with Some k => dict_set k e d | None => d end)
           d recent) = Some e →
  dict_get k d = Some e ∨ candidate_id e = Some k.
Proof.
  revert d. induction recent as [|e0 recent IH]; intros d; simpl; [by left|].
  intros [Hg|?]%IH; [|by right].
  destruct (candidate_id e0) as [k'|] eqn:Hc; [|by left].
  rewrite dict_get_set in Hg. destruct (decide (k = k')); [|by left].
  simplify_eq. by right.
Qed.

(** Every entry of [article_id_map] stands under its own identifier. *)
Lemma article_id_map_candidate (recent : list entry) (k : string) (e : entry) :
  dict_get k (article_id_map recent) = Some e → candidate_id e = Some k.
Proof. intros [?|?]%article_id_map_from_candidate; done. Qed.

Lemma lookup_all_complete (d : dict) (ids : list string) (es : list entry) :
  lookup_all d ids = Ret es → ∀ k, k ∈ ids → ∃ e, e ∈ es ∧ dict_get k d = Some e.
Proof.
  revert es. induction ids as [|k0 ids IH]; intros es; simpl.
  - intros _ k []%elem_of_nil.
  - destruct (dict_get k0 d) as [e0|] eqn:Hg; [|done].
    destruct (lookup_all d ids) as [es0|]; [|done].
    intros [= <-] k [->|Hk]%elem_of_cons.
    + exists e0. split; [by left|done].
    + destruct (IH _ eq_refl k Hk) as (e & ? & ?). exists e. split; [by right|done].
Qed.

Lemma lookup_all_fmap (d : dict) (ids : list string) (es : list entry)
    (f : entry → option string) :
  (∀ k e, dict_get k d = Some e → f e = Some k) →
  lookup_all d ids = Ret es → f <$> es = Some <$> ids.
Proof.
  intros Hf. revert es. induction ids as [|k0 ids IH]; intros es; simpl.
  - by intros [= <-].
  - destruct (dict_get k0 d) as [e0|] eqn:Hg; [|done].
    destruct (lookup_all d ids) as [es0|]; [|done].
    intros [= <-]. rewrite !fmap_cons, (Hf _ _ Hg). f_equal. by apply IH.
Qed.

Lemma articles_to_post_subsequent (env : environment) (w : world) (fc : feed_config)
    (u : option string) (recent : list entry) :
  ¬ is_first_check w fc →
  articles_to_post env (add_fetched u w) fc recent
  = match (filter_and_update_sent_articles (ledger_fault env (feed_url fc))
             (sent_articles_file w) (dict_keys (article_id_map recent))).1 with
    | Raise x =>
      (Raise x,
       set_sent_articles_file
         (filter_and_update_sent_articles (ledger_fault env (feed_url fc))
            (sent_articles_file w) (dict_keys (article_id_map recent))).2 (add_fetched u w))
    | Ret new =>
      (lookup_all (article_id_map recent) (elements new),
       set_sent_articles_file
         (filter_and_update_sent_articles (ledger_fault env (feed_url fc))
            (sent_articles_file w) (dict_keys (article_id_map recent))).2 (add_fetched u w))
    end.
Proof.
  intros Hnot. unfold articles_to_post. rewrite (not_first_check_flag _ _ _ Hnot). simpl.
  by destruct (filter_and_update_sent_articles _ _ _) as [[new|x] file'].
Qed.

(** X8. On a check after the first, with a ledger that is missing or
    readable and no fault, the entries posted are recent entries that carry
    an identifier which the ledger did not hold; no identifier is posted
    twice in the check; and every identifier of a recent entry that the
    ledger did not hold is posted. *)
Theorem subsequent_check_posts_each_new_id_once
    (env : environment) (w : world) (fc : feed_config) (recent : list entry) :
  ¬ is_first_check w fc →
  recent_articles env (datetime_now env - timedelta_hours 24)
    (entries (feedparser_parse env (feed_url fc))) = Ret recent →
  ledger_fault env (feed_url fc) = None →
  readable (sent_articles_file w) →
  ∃ to_post,
    posted (check_single_feed env w fc).2 = (posted w ++ posts_of env fc to_post)%list
    ∧ NoDup (candidate_id <$> to_post)
    ∧ (∀ e, e ∈ to_post →
         e ∈ recent
         ∧ ∃ k, candidate_id e = Some k ∧ k ∉ ledger_ids (sent_articles_file w))
    ∧ (∀ e k, e ∈ recent → candidate_id e = Some k →
         k ∉ ledger_ids (sent_articles_file w) →
         ∃ e', e' ∈ to_post ∧ candidate_id e' = Some k).
Proof.
  intros Hnot Hrec Hflt Hr. unfold check_single_feed.
  assert (∀ w0 : world, ∃ to_post : list entry,
            posted w0 = (posted w0 ++ posts_of env fc to_post)%list
            ∧ NoDup (candidate_id <$> to_post)
            ∧ (∀ e, e ∈ to_post →
                 e ∈ @nil entry
                 ∧ ∃ k, candidate_id e = Some k ∧ k ∉ ledger_ids (sent_articles_file w))
            ∧ (∀ e k, e ∈ @nil entry → candidate_id e = Some k →
                 k ∉ ledger_ids (sent_articles_file w) →
                 ∃ e', e' ∈ to_post ∧ candidate_id e' = Some k)) as Hnone.
  { intros w0. exists []. simpl. rewrite app_nil_r. split; [done|]. split; [constructor|].
    split; [by intros e ?%elem_of_nil|by intros e k ?%elem_of_nil]. }
  destruct (entries (feedparser_parse env (feed_url fc))) as [|e0 es].
  { simpl in Hrec. simplify_eq. apply (Hnone (add_fetched (feed_url fc) w)). }
  rewrite Hrec. destruct recent as [|r0 rs]; [apply (Hnone (add_fetched (feed_url fc) w))|].
  clear Hnone. set (recent := sort_newest_first (r0 :: rs)).
  rewrite articles_to_post_subsequent by done. rewrite Hflt.
  rewrite filter_and_update_returns by done.
  set (new := list_to_set (dict_keys (article_id_map recent))
              ∖ ledger_ids (sent_articles_file w) : gset string).
  destruct (lookup_all_total (article_id_map recent) (elements new)) as [es' Hes].
  { intros k Hk%elem_of_elements. apply elem_of_difference in Hk as [Hk _].
    by apply elem_of_list_to_set in Hk. }
  rewrite Hes.
  pose proof (post_articles_world env fc (sort_oldest_first es') None
    (set_sent_articles_file
       (filter_and_update_sent_articles None (sent_articles_file w)
          (dict_keys (article_id_map recent))).2 (add_fetched (feed_url fc) w))) as Hp.
  destruct (post_articles env fc (sort_oldest_first es') None _) as [s w2].
  cbn [snd] in Hp. subst w2. exists (sort_oldest_first es'). cbn [snd].
  rewrite add_posted_foldl_posted. split; [done|]. split.
  { rewrite sort_oldest_first_Permutation.
    rewrite (lookup_all_fmap _ _ _ candidate_id (article_id_map_candidate recent) Hes).
    apply NoDup_fmap_2; [apply _|apply NoDup_elements]. }
  split.
  - intros e He. rewrite sort_oldest_first_Permutation in He.
    destruct (lookup_all_spec _ _ _ Hes e He) as (k & Hk & Hg). split.
    + apply article_id_map_get in Hg. unfold recent in Hg.
      by rewrite sort_newest_first_Permutation in Hg.
    + exists k. split; [by eapply article_id_map_candidate|].
      apply elem_of_elements, elem_of_difference in Hk. tauto.
  - intros e k He Hc Hk.
    assert (k ∈ elements new) as Hin.
    { apply elem_of_elements, elem_of_difference. split; [|done].
      apply elem_of_list_to_set, article_id_map_keys. exists e. split; [|done].
      unfold recent. by rewrite sort_newest_first_Permutation. }
    destruct (lookup_all_complete _ _ _ Hes k Hin) as (e' & He' & Hg).
    exists e'. split; [by rewrite sort_oldest_first_Permutation|].
    by eapply article_id_map_candidate.
Qed.

Lemma subsequent_check_posts_each_new_id_once_witness :
  ¬ is_first_check checked_world sample_feed
  ∧ readable (sent_articles_file checked_world)
  ∧ ∃ to_post,
      posted (check_single_feed two_entries_environment checked_world sample_feed).2
      = (posted checked_world ++ posts_of two_entries_environment sample_feed to_post)%list
      ∧ NoDup (candidate_id <$> to_post).
Proof.
  assert (¬ is_first_check checked_world sample_feed) as H1 by compute_done.
  assert (recent_articles two_entries_environment
            (datetime_now two_entries_environment - timedelta_hours 24)
            (entries (feedparser_parse two_entries_environment (feed_url sample_feed)))
          = Ret [entry_at "x" ten_oclock; entry_at "y" eleven_oclock]) as H2
    by (vm_compute; reflexivity).
  assert (readable (sent_articles_file checked_world)) as H3 by discriminate.
  split; [exact H1|]. split; [exact H3|].
  destruct (subsequent_check_posts_each_new_id_once two_entries_environment checked_world
              sample_feed _ H1 H2 eq_refl H3) as (to_post & Hp & Hnd & _).
  exists to_post. split; [exact Hp|exact Hnd].
Defined.

(** The same check, evaluated: of the two recent entries only the one whose
    identifier the ledger does not hold is posted, and the ledger then holds
    both. *)
Example subsequent_check_evaluated :
  posted (check_single_feed two_entries_environment checked_world sample_feed).2
  = [("hook", make_embed two_entries_environment sample_feed (entry_at "y" eleven_oclock))]
  ∧ sent_articles_file (check_single_feed two_entries_environment checked_world sample_feed).2
    = Some (YamlSeq ["x"; "y"]).
Proof. split; vm_compute; reflexivity. Qed.

(** The ledger holds every candidate already: the file is left as it is and
    nothing is returned, whatever fails. *)
Lemma filter_and_update_all_recorded (flt : fault) (doc : yaml_doc) (C : list string) :
  (∀ k, k ∈ C → k ∈ ledger_ids (Some doc)) →
  filter_and_update_sent_articles flt (Some doc) C = (Ret ∅, Some doc).
Proof.
  intros Hall. unfold filter_and_update_sent_articles, try_block, fails.
  destruct doc as [|l|].
  - assert (list_to_set C ∖ list_to_set [] = (∅ : gset string)) as Hnew.
    { apply set_eq. intros k. rewrite elem_of_difference, elem_of_list_to_set, elem_of_empty.
      split; [|done]. intros [Hk%Hall _]. unfold ledger_ids in Hk. simpl in Hk.
      by apply elem_of_empty in Hk. }
    destruct flt as [[]|]; simpl; rewrite ?Hnew; repeat case_decide; done.
  - assert (list_to_set C ∖ list_to_set l = (∅ : gset string)) as Hnew.
    { apply set_eq. intros k. rewrite elem_of_difference, elem_of_list_to_set, elem_of_empty.
      split; [|done]. intros [Hk%Hall Hn]. done. }
    destruct flt as [[]|]; simpl; rewrite ?Hnew; repeat case_decide; done.
  - destruct flt as [[]|]; reflexivity.
Qed.

(** X9. On a check after the first, when the ledger file exists and holds
    the identifier of every recent entry that has one, the check posts
    nothing, returns no delivery outcome and leaves the ledger file as it
    is, whatever ledger operation fails: the world changes by the fetch
    only. *)
Theorem nothing_new_nothing_posted
    (env : environment) (w : world) (fc : feed_config) (doc : yaml_doc)
    (recent : list entry) :
  ¬ is_first_check w fc →
  sent_articles_file w = Some doc →
  recent_articles env (datetime_now env - timedelta_hours 24)
    (entries (feedparser_parse env (feed_url fc))) = Ret recent →
  (∀ e k, e ∈ recent → candidate_id e = Some k → k ∈ ledger_ids (Some doc)) →
  check_single_feed env w fc
  = (Ret (default 500 (status (feedparser_parse env (feed_url fc))), None),
     add_fetched (feed_url fc) w).
Proof.
  intros Hnot Hfile Hrec Hall. unfold check_single_feed.
  destruct (entries (feedparser_parse env (feed_url fc))) as [|e0 es]; [done|].
  rewrite Hrec. destruct recent as [|r0 rs]; [done|].
  rewrite articles_to_post_subsequent by done. rewrite Hfile.
  rewrite filter_and_update_all_recorded.
  2:{ intros k (e & He & Hc)%article_id_map_keys.
      rewrite sort_newest_first_Permutation in He. by eapply Hall. }
  cbn [fst snd]. rewrite elements_empty. cbn [lookup_all sort_oldest_first stable_sort foldr].
  cbn [post_articles]. rewrite <- Hfile. by rewrite set_sent_articles_file_same_fetched.
Qed.

Lemma nothing_new_nothing_posted_witness :
  ¬ is_first_check checked_world sample_feed
  ∧ sent_articles_file checked_world = Some (YamlSeq ["x"])
  ∧ check_single_feed morning_environment checked_world sample_feed
    = (Ret (200, None), add_fetched (feed_url sample_feed) checked_world).
Proof.
  assert (¬ is_first_check checked_world sample_feed) as H1 by compute_done.
  assert (sent_articles_file checked_world = Some (YamlSeq ["x"])) as H2 by reflexivity.
  assert (recent_articles morning_environment
            (datetime_now morning_environment - timedelta_hours 24)
            (entries (feedparser_parse morning_environment (feed_url sample_feed)))
          = Ret [entry_at "x" eleven_oclock]) as H3 by (vm_compute; reflexivity).
  assert (∀ e k, e ∈ [entry_at "x" eleven_oclock] → candidate_id e = Some k →
                 k ∈ ledger_ids (Some (YamlSeq ["x"]))) as H4.
  { intros e k ->%list_elem_of_singleton [= <-]. compute_done. }
  split; [exact H1|]. split; [exact H2|].
  exact (nothing_new_nothing_posted morning_environment checked_world sample_feed
           (YamlSeq ["x"]) [entry_at "x" eleven_oclock] H1 H2 H3 H4).
Defined.

(** ** The order of the posts *)

(** X10. The entries that a check posts are posted in ascending order of
    their publish key, oldest first; each of them to every endpoint of the
    feed before the next entry. *)
Theorem posts_are_oldest_first (env : environment) (w : world) (fc : feed_config) :
  ∃ to_post,
    posted (check_single_feed env w fc).2 = (posted w ++ posts_of env fc to_post)%list
    ∧ StronglySorted (λ a b, tuple_leb (published_key a) (published_key b) = true) to_post
    ∧ ∀ e, e ∈ to_post → e ∈ entries (feedparser_parse env (feed_url fc)).
Proof.
  unfold check_single_feed.
  destruct (entries (feedparser_parse env (feed_url fc))) as [|e0 es] eqn:Hes.
  { exists []. simpl. rewrite app_nil_r. split; [done|]. split; [constructor|].
    by intros e ?%elem_of_nil. }
  destruct (recent_articles env _ (e0 :: es)) as [[|r0 recent]|x] eqn:Hrec;
    try (exists []; simpl; rewrite app_nil_r; split; [done|]; split; [constructor|];
         by intros e ?%elem_of_nil).
  pose proof (articles_to_post_spec env (add_fetched (feed_url fc) w) fc
                (sort_newest_first (r0 :: recent))) as [Hw Hin].
  destruct (articles_to_post env (add_fetched (feed_url fc) w) fc
              (sort_newest_first (r0 :: recent))) as [[to_post|x] w1]; cbn [fst snd] in Hw, Hin.
  - pose proof (post_articles_world env fc (sort_oldest_first to_post) None w1) as Hp.
    destruct (post_articles env fc (sort_oldest_first to_post) None w1) as [s w2].
    cbn [snd] in *. subst w2 w1. exists (sort_oldest_first to_post).
    rewrite add_posted_foldl_posted. split; [done|]. split.
    + apply (stable_sort_StronglySorted
               (λ x y, tuple_leb (published_key x) (published_key y))
               (λ x y, tuple_leb_total _ _) (λ x y z, tuple_leb_trans _ _ _)).
    + intros e He. rewrite sort_oldest_first_Permutation in He.
      apply (Hin _ eq_refl) in He. rewrite sort_newest_first_Permutation in He.
      by apply (recent_articles_spec _ _ _ _ Hrec).
  - subst w1. exists []. simpl. rewrite app_nil_r. split; [done|]. split; [constructor|].
    by intros e ?%elem_of_nil.
Qed.

(** ** A feed without endpoints *)

Lemma posts_of_no_endpoint (env : environment) (fc : feed_config) (es : list entry) :
  webhook_urls fc = [] → posts_of env fc es = [].
Proof.
  intros Hno. unfold posts_of. rewrite Hno.
  induction es as [|e es IH]; [done|]. simpl. exact IH.
Qed.

(** X11. A check of a feed none of whose endpoints has a URL posts nothing,
    yet it updates the ledger as any check does: the identifiers of the
    recent entries are handed to [filter_and_update_sent_articles], so they
    will not be new to a later check. *)
Theorem no_endpoint_ids_still_recorded
    (env : environment) (w : world) (fc : feed_config) (recent : list entry) :
  webhook_urls fc = [] →
  recent_articles env (datetime_now env - timedelta_hours 24)
    (entries (feedparser_parse env (feed_url fc))) = Ret recent →
  recent ≠ [] →
  posted (check_single_feed env w fc).2 = posted w
  ∧ sent_articles_file (check_single_feed env w fc).2
    = (filter_and_update_sent_articles (ledger_fault env (feed_url fc))
         (sent_articles_file w)
         (dict_keys (article_id_map (sort_newest_first recent)))).2.
Proof.
  intros Hno Hrec Hne. split.
  - destruct (check_single_feed_posts env w fc) as (to_post & -> & _).
    by rewrite posts_of_no_endpoint, app_nil_r.
  - unfold check_single_feed.
    destruct (entries (feedparser_parse env (feed_url fc))) as [|e0 es].
    { simpl in Hrec. by simplify_eq. }
    rewrite Hrec. destruct recent as [|r0 rs]; [done|].
    pose proof (articles_to_post_spec env (add_fetched (feed_url fc) w) fc
                  (sort_newest_first (r0 :: rs))) as [Hw _].
    destruct (articles_to_post env _ fc _) as [[to_post|x] w1]; cbn [fst snd] in Hw;
      subst w1; [|done].
    pose proof (post_articles_world env fc (sort_oldest_first to_post) None
      (set_sent_articles_file
         (filter_and_update_sent_articles (ledger_fault env (feed_url fc))
            (sent_articles_file (add_fetched (feed_url fc) w))
            (dict_keys (article_id_map (sort_newest_first (r0 :: rs))))).2
         (add_fetched (feed_url fc) w))) as Hp.
    destruct (post_articles env fc (sort_oldest_first to_post) None _) as [s w2].
    cbn [snd] in *. subst w2. by rewrite (proj1 (add_posted_foldl_files _ _)).
Qed.

Lemma no_endpoint_ids_still_recorded_witness :
  webhook_urls mute_feed = []
  ∧ posted (check_single_feed two_entries_environment checked_world mute_feed).2
    = posted checked_world
  ∧ sent_articles_file (check_single_feed two_entries_environment checked_world mute_feed).2
    = Some (YamlSeq ["x"; "y"]).
Proof.
  assert (webhook_urls mute_feed = []) as H1 by reflexivity.
  assert (recent_articles two_entries_environment
            (datetime_now two_entries_environment - timedelta_hours 24)
            (entries (feedparser_parse two_entries_environment (feed_url mute_feed)))
          = Ret [entry_at "x" ten_oclock; entry_at "y" eleven_oclock]) as H2
    by (vm_compute; reflexivity).
  assert ([entry_at "x" ten_oclock; entry_at "y" eleven_oclock] ≠ []) as H3 by discriminate.
  destruct (no_endpoint_ids_still_recorded two_entries_environment checked_world mute_feed
              _ H1 H2 H3) as [Hp Hl].
  split; [exact H1|]. split; [exact Hp|].
  rewrite Hl. vm_compute. reflexivity.
Defined.

(** ** The notification *)

Lemma len_app (s1 s2 : string) : len (s1 +:+ s2) = (len s1 + len s2)%nat.
Proof.
  induction s1 as [|c s1 IH]; [done|]. simpl.
  rewrite IH. by destruct (is_continuation c).
Qed.

Lemma len_slice_to (n : nat) (s : string) : len (slice_to n s) = (n `min` len s)%nat.
Proof.
  revert n. induction s as [|c s IH]; intros n; cbn [slice_to len]; [lia|].
  destruct (is_continuation c) eqn:Hc.
  - cbn [len]. rewrite Hc. apply IH.
  - destruct n as [|n]; [done|]. cbn [len]. rewrite Hc, IH. lia.
Qed.

(** X12. The description of a notification has at most 250 characters: a
    stripped summary of at most 250 characters is kept as it is, a longer one
    is cut to its first 247 characters followed by three dots.  The
    characters counted are code points, not bytes. *)
Theorem embed_description_at_most_250 (env : environment) (fc : feed_config) (e : entry) :
  let stripped := strip_tags env (default "No summary available." (entry_summary e)) in
  let description := embed_description (make_embed env fc e) in
  (len description ≤ 250)%nat
  ∧ ((len stripped ≤ 250)%nat → description = stripped)
  ∧ ((250 < len stripped)%nat →
       description = slice_to 247 stripped +:+ "..."
       ∧ len (slice_to 247 stripped) = 247%nat
       ∧ len description = 250%nat).
Proof.
  intros stripped description. unfold description, make_embed. cbn [embed_description].
  fold stripped. case_bool_decide as Hlen.
  - rewrite len_app, len_slice_to.
    change (len "...") with 3%nat.
    split; [lia|]. split; [lia|]. intros _. split; [done|]. lia.
  - split; [lia|]. split; [done|]. lia.
Qed.

(** A summary of 126 accented letters takes 252 bytes and is kept whole. *)
Example accented_summary_kept :
  String.length (string_repeat 126 "é") = 252%nat
  ∧ len (string_repeat 126 "é") = 126%nat
  ∧ embed_description (make_embed two_entries_environment sample_feed accented_entry)
    = string_repeat 126 "é".
Proof. repeat split; by vm_compute. Qed.

(** ** The step of the scheduler for one feed *)

(** The step for a feed that is due and whose check returns. *)
Lemma scan_feed_returned (env : environment) (st : gmap string check_state) (w w1 : world)
    (fc : feed_config) (fid : string) (code : Z) (last : option string) :
  truthy (feed_id fc) = Some fid → is_due env st fc fid →
  check_single_feed env w fc = (Ret (code, last), w1) →
  scan_feed env st w fc
  = (Ret (<[fid := recorded_state env (default empty_check_state (st !! fid)) code last]> st),
     save_feed_state
       (<[fid := recorded_state env (default empty_check_state (st !! fid)) code last]> st)
       w1).
Proof.
  intros Hfid Hdue Hcheck. unfold scan_feed, is_due in *.
  rewrite Hfid, Hdue, Hcheck.
  destruct (decide (st !! fid = None)) as [Hnone|Hsome].
  - rewrite lookup_insert_eq, insert_insert_eq, Hnone. done.
  - done.
Qed.

(** The step for a feed that is due and whose check raises. *)
Lemma scan_feed_raised (env : environment) (st : gmap string check_state) (w : world)
    (fc : feed_config) (fid : string) (x : exn) :
  truthy (feed_id fc) = Some fid → is_due env st fc fid →
  (check_single_feed env w fc).1 = Raise x →
  scan_feed env st w fc
  = (Ret (if decide (st !! fid = None) then <[fid := empty_check_state]> st else st),
     (check_single_feed env w fc).2).
Proof.
  intros Hfid Hdue Hcheck. unfold scan_feed, is_due in *.
  rewrite Hfid, Hdue.
  destruct (check_single_feed env w fc) as [[r|x'] w1]; [done|]. done.
Qed.

(** X13. After a check that returns, the state of the feed holds the
    returned status and the time of the scan; it holds the returned delivery
    outcome with that time when a post was made, and keeps the outcome it had
    when none was; the check-state file is then the state in memory. *)
Theorem scan_feed_records_check (env : environment) (st : gmap string check_state)
    (w w1 : world) (fc : feed_config) (fid : string) (code : Z) (last : option string) :
  truthy (feed_id fc) = Some fid → is_due env st fc fid →
  check_single_feed env w fc = (Ret (code, last), w1) →
  ∃ st' cs, (scan_feed env st w fc).1 = Ret st'
        ∧ st' !! fid = Some cs
        ∧ status_code cs = Some code
        ∧ last_checked cs = Some (datetime_now env)
        ∧ (last = None → last_post cs = st !! fid ≫= last_post)
        ∧ (∀ s, truthy last = Some s → last_post cs = Some (s, datetime_now env))
        ∧ feed_state_file (scan_feed env st w fc).2 = Some st'.
Proof.
  intros Hfid Hdue Hcheck. rewrite (scan_feed_returned _ _ _ _ _ _ _ _ Hfid Hdue Hcheck).
  eexists _, _. cbn [fst snd]. split; [done|]. rewrite lookup_insert_eq. split; [done|].
  split; [done|]. split; [done|]. split; [|split; [|done]].
  - intros ->. simpl. by destruct (st !! fid).
  - intros s Hs. simpl. by rewrite Hs.
Qed.

Lemma scan_feed_records_check_witness :
  truthy (feed_id sample_feed) = Some "feed"
  ∧ is_due two_entries_environment ∅ sample_feed "feed"
  ∧ ∃ st' cs,
      (scan_feed two_entries_environment ∅ empty_world sample_feed).1 = Ret st'
      ∧ st' !! "feed" = Some cs
      ∧ status_code cs = Some 200
      ∧ last_checked cs = Some (datetime_now two_entries_environment)
      ∧ last_post cs = Some ("Success", datetime_now two_entries_environment).
Proof.
  assert (truthy (feed_id sample_feed) = Some "feed") as H1 by reflexivity.
  assert (is_due two_entries_environment ∅ sample_feed "feed") as H2 by reflexivity.
  assert (check_single_feed two_entries_environment empty_world sample_feed
          = (Ret (200, Some "Success"),
             (check_single_feed two_entries_environment empty_world sample_feed).2)) as H3
    by (vm_compute; reflexivity).
  split; [exact H1|]. split; [exact H2|].
  destruct (scan_feed_records_check two_entries_environment ∅ empty_world _ sample_feed
              "feed" 200 (Some "Success") H1 H2 H3)
    as (st' & cs & Hst & Hcs & Hcode & Htime & _ & Hpost & _).
  exists st', cs. split; [exact Hst|]. split; [exact Hcs|]. split; [exact Hcode|].
  split; [exact Htime|]. exact (Hpost "Success" eq_refl).
Defined.

(** X14. A feed that has just been checked is left alone until its interval
    has passed: a step of the scheduler at a time less than
    [update_interval] seconds (300 when the key is missing) after a check
    that returned fetches nothing and changes nothing.  That is so for an
    interval that a [timedelta] holds; for another the step raises
    [OverflowError], outside the [try] of the loop. *)
Theorem checked_feed_rests_for_its_interval (env env' : environment)
    (st : gmap string check_state) (w : world) (fc : feed_config) (fid : string)
    (r : Z * option string) :
  truthy (feed_id fc) = Some fid → is_due env st fc fid →
  (check_single_feed env w fc).1 = Ret r →
  (MIN_DATETIME ≤ datetime_now env ≤ MAX_DATETIME)%Z →
  ∃ st1 w1,
    scan_feed env st w fc = (Ret st1, w1)
    ∧ (∀ interval,
         timedelta_seconds (default 300 (update_interval fc)) = Ret interval →
         (datetime_now env' - datetime_now env < interval)%Z →
         scan_feed env' st1 w1 fc = (Ret st1, w1))
    ∧ (¬ (-999999999 ≤ default 300 (update_interval fc) `div` 86400 ≤ 999999999)%Z →
       scan_feed env' st1 w1 fc = (Raise OverflowError, w1)).
Proof.
  intros Hfid Hdue Hcheck Hnow.
  destruct (check_single_feed env w fc) as [[[code last]|x] w1] eqn:Hc; [|done].
  rewrite (scan_feed_returned _ _ _ _ _ _ _ _ Hfid Hdue Hc). eexists _, _.
  split; [done|].
  assert (fromisoformat (datetime_now env) = Ret (datetime_now env)) as Hiso.
  { unfold fromisoformat. by rewrite bool_decide_eq_true_2. }
  split.
  - intros interval Hint Hsoon. unfold scan_feed.
    rewrite Hfid, lookup_insert_eq. cbn [mbind option_bind last_checked recorded_state].
    cbn [should_check]. rewrite Hiso, Hint. by rewrite bool_decide_eq_true_2.
  - intros Hout. unfold scan_feed.
    rewrite Hfid, lookup_insert_eq. cbn [mbind option_bind last_checked recorded_state].
    cbn [should_check]. rewrite Hiso. unfold timedelta_seconds.
    by rewrite bool_decide_eq_false_2.
Qed.

Lemma checked_feed_rests_for_its_interval_witness :
  truthy (feed_id sample_feed) = Some "feed"
  ∧ is_due two_entries_environment ∅ sample_feed "feed"
  ∧ (MIN_DATETIME ≤ datetime_now two_entries_environment ≤ MAX_DATETIME)%Z
  ∧ ∃ st1 w1,
      scan_feed two_entries_environment ∅ empty_world sample_feed = (Ret st1, w1)
      ∧ scan_feed one_minute_later st1 w1 sample_feed = (Ret st1, w1).
Proof.
  assert (truthy (feed_id sample_feed) = Some "feed") as H1 by reflexivity.
  assert (is_due two_entries_environment ∅ sample_feed "feed") as H2 by reflexivity.
  assert ((check_single_feed two_entries_environment empty_world sample_feed).1
          = Ret (200, Some "Success")) as H3 by (vm_compute; reflexivity).
  assert (MIN_DATETIME ≤ datetime_now two_entries_environment ≤ MAX_DATETIME)%Z as H4
    by (vm_compute; split; discriminate).
  split; [exact H1|]. split; [exact H2|]. split; [exact H4|].
  destruct (checked_feed_rests_for_its_interval two_entries_environment one_minute_later ∅
              empty_world sample_feed "feed" (200, Some "Success") H1 H2 H3 H4)
    as (st1 & w1 & Hfirst & Hrest & _).
  exists st1, w1. split; [exact Hfirst|].
  apply (Hrest 300000000); [reflexivity|]. vm_compute. reflexivity.
Defined.

(** With an interval of 10^14 seconds the first turn of the loop checks the
    feed and the second ends the loop. *)
Example huge_interval_ends_the_run :
  (run [two_entries_environment] (world_with huge_interval_feed)).1 = Ret ()
  ∧ (run [two_entries_environment; one_minute_later] (world_with huge_interval_feed)).1
    = Raise OverflowError
  ∧ (run [two_entries_environment; one_minute_later] (world_with huge_interval_feed)).2
    = (run [two_entries_environment] (world_with huge_interval_feed)).2.
Proof. repeat split; by vm_compute. Qed.

(** What a step of the scheduler leaves alone. *)
Lemma scan_feed_own_state (env : environment)
    (st : gmap string check_state) (w : world) (fc : feed_config) :
  config_feeds (scan_feed env st w fc).2 = config_feeds w
  ∧ match (scan_feed env st w fc).1 with
    | Ret st' =>
      (∀ k, truthy (feed_id fc) ≠ Some k → st' !! k = st !! k)
      ∧ (feed_state_file (scan_feed env st w fc).2 = feed_state_file w
         ∨ feed_state_file (scan_feed env st w fc).2 = Some st')
    | Raise _ => (scan_feed env st w fc).2 = w
    end.
Proof.
  unfold scan_feed. destruct (truthy (feed_id fc)) as [fid|];
    [|cbn [fst snd]; split; [done|]; split; [done|by left]].
  destruct (should_check _ _ _) as [[|]|x];
    [|cbn [fst snd]; split; [done|]; split; [done|by left]|by split].
  destruct (check_single_feed_keeps_files env w fc) as (_ & Hcfg & Hfile).
  destruct (check_single_feed env w fc) as [[[code last]|x] w1]; cbn [fst snd] in *.
  - split; [done|]. split; [|by right].
    intros k Hk. assert (fid ≠ k) by congruence.
    rewrite lookup_insert_ne by done. case_decide; [by rewrite lookup_insert_ne|done].
  - split; [done|]. split; [|by left].
    intros k Hk. assert (fid ≠ k) by congruence.
    case_decide; [by rewrite lookup_insert_ne|done].
Qed.

(** X15. A step of the scheduler leaves the configuration as it is.  When it
    returns, it has changed the state of no other feed than its own, and the
    check-state file is either what it was or the whole state in memory;
    when it raises, it has changed nothing. *)
Theorem scan_feed_touches_own_state_only (env : environment)
    (st : gmap string check_state) (w : world) (fc : feed_config) :
  config_feeds (scan_feed env st w fc).2 = config_feeds w
  ∧ match (scan_feed env st w fc).1 with
    | Ret st' =>
      (∀ k, truthy (feed_id fc) ≠ Some k → st' !! k = st !! k)
      ∧ (feed_state_file (scan_feed env st w fc).2 = feed_state_file w
         ∨ feed_state_file (scan_feed env st w fc).2 = Some st')
    | Raise _ => (scan_feed env st w fc).2 = w
    end.
Proof. apply scan_feed_own_state. Qed.

(** ** A whole scan *)

Lemma scan_world (env : environment) (w : world) :
  (scan env w).2 = (scan_feeds env (load_feed_state w) w (config_feeds w)).2.
Proof. unfold scan. by destruct (scan_feeds _ _ _ _) as [[?|?] ?]. Qed.

Lemma scan_feeds_keeps (env : environment) (k : string) (L : option check_state)
    (feeds : list feed_config) (st : gmap string check_state) (w : world) :
  (∀ fc, fc ∈ feeds → truthy (feed_id fc) ≠ Some k) →
  st !! k = L → load_feed_state w !! k = L →
  load_feed_state (scan_feeds env st w feeds).2 !! k = L.
Proof.
  revert st w. induction feeds as [|fc feeds IH]; intros st w Hk Hst Hw;
    cbn [scan_feeds]; [done|].
  destruct (scan_feed_own_state env st w fc) as (_ & Hown).
  destruct (scan_feed env st w fc) as [[st1|x] w1]; cbn [fst snd] in *.
  - destruct Hown as [Hown Hfile]. apply IH.
    + intros fc' ?. apply Hk. by right.
    + rewrite Hown; [done|]. apply Hk. by left.
    + unfold load_feed_state in *. destruct Hfile as [->| ->]; [done|]. simpl.
      rewrite Hown; [done|]. apply Hk. by left.
  - by subst w1.
Qed.

(** X16. A scan keeps the state of every identifier that no configured feed
    carries: the state of a feed that was deleted from the configuration
    stays in the check-state file. *)
Theorem scan_keeps_state_of_unconfigured_ids (env : environment) (w : world) (k : string) :
  (∀ fc, fc ∈ config_feeds w → truthy (feed_id fc) ≠ Some k) →
  load_feed_state (scan env w).2 !! k = load_feed_state w !! k.
Proof. intros Hk. rewrite scan_world. by apply scan_feeds_keeps. Qed.

Lemma truthy_Some (o : option string) (s : string) : truthy o = Some s → o = Some s.
Proof. destruct o as [s'|]; simpl; [|done]. by case_decide; intros [= ->]. Qed.

(** X17. When the first check of a feed raises, the scan goes on: the next
    feed is fetched and its state recorded.  The file then written holds an
    empty state for the feed that failed, so the next check of that feed is
    not treated as its first. *)
Theorem failed_first_check_is_not_repeated_as_first (env : environment) (w : world)
    (fc1 fc2 : feed_config) (f1 f2 : string) (x : exn) (r : Z * option string) :
  config_feeds w = [fc1; fc2] →
  truthy (feed_id fc1) = Some f1 → truthy (feed_id fc2) = Some f2 → f1 ≠ f2 →
  load_feed_state w !! f1 = None → load_feed_state w !! f2 = None →
  (check_single_feed env w fc1).1 = Raise x →
  (check_single_feed env (check_single_feed env w fc1).2 fc2).1 = Ret r →
  (scan env w).1 = Ret ()
  ∧ fetched (scan env w).2 = (fetched w ++ [feed_url fc1; feed_url fc2])%list
  ∧ load_feed_state (scan env w).2 !! f2 ≫= status_code = Some r.1
  ∧ load_feed_state (scan env w).2 !! f1 = Some empty_check_state
  ∧ ¬ is_first_check (scan env w).2 fc1.
Proof.
  intros Hcfg Hf1 Hf2 Hne Hn1 Hn2 Hraise Hret.
  assert (is_due env (load_feed_state w) fc1 f1) as Hdue1 by (unfold is_due; by rewrite Hn1).
  assert (is_due env (<[f1 := empty_check_state]> (load_feed_state w)) fc2 f2) as Hdue2.
  { unfold is_due. by rewrite lookup_insert_ne, Hn2. }
  assert ((scan env w).1 = Ret ()
          ∧ load_feed_state (scan env w).2 !! f1 = Some empty_check_state
          ∧ load_feed_state (scan env w).2 !! f2 ≫= status_code = Some r.1
          ∧ fetched (scan env w).2 = (fetched w ++ [feed_url fc1; feed_url fc2])%list)
    as (H0 & H1 & H2 & H3).
  { unfold scan. rewrite Hcfg. cbn [scan_feeds].
    rewrite (scan_feed_raised _ _ _ _ _ _ Hf1 Hdue1 Hraise).
    rewrite decide_True by done.
    destruct (check_single_feed env (check_single_feed env w fc1).2 fc2)
      as [[[code last]|x'] w2] eqn:Hc2; [|done].
    rewrite (scan_feed_returned _ _ _ _ _ _ _ _ Hf2 Hdue2 Hc2). cbn [fst snd].
    pose proof (check_single_feed_keeps_files env (check_single_feed env w fc1).2 fc2) as (Hfe & _).
    rewrite Hc2 in Hfe. cbn [snd] in Hfe.
    rewrite (proj1 (check_single_feed_keeps_files env w fc1)) in Hfe.
    split; [done|].
    unfold load_feed_state, save_feed_state. simpl.
    rewrite lookup_insert_ne, lookup_insert_eq by done. rewrite lookup_insert_eq.
    split; [done|]. split; [by simplify_eq/=|].
    by rewrite Hfe, <- app_assoc. }
  split; [done|]. split; [done|]. split; [done|]. split; [done|].
  unfold is_first_check. rewrite (truthy_Some _ _ Hf1), H1. done.
Qed.

Lemma scan_keeps_state_of_unconfigured_ids_witness :
  (∀ fc, fc ∈ config_feeds world_after_delete → truthy (feed_id fc) ≠ Some "gone")
  ∧ load_feed_state (scan two_entries_environment world_after_delete).2 !! "gone"
    = load_feed_state world_after_delete !! "gone".
Proof.
  assert (∀ fc, fc ∈ config_feeds world_after_delete → truthy (feed_id fc) ≠ Some "gone")
    as H1.
  { intros fc Hfc. apply list_elem_of_singleton in Hfc. subst fc. discriminate. }
  split; [exact H1|].
  exact (scan_keeps_state_of_unconfigured_ids two_entries_environment world_after_delete
           "gone" H1).
Defined.

Lemma failed_first_check_is_not_repeated_as_first_witness :
  (check_single_feed year_10000_environment two_feeds_world sample_feed).1
  = Raise OverflowError
  ∧ fetched (scan year_10000_environment two_feeds_world).2
    = [Some "http://feed"; Some "http://other"]
  ∧ load_feed_state (scan year_10000_environment two_feeds_world).2 !! "feed"
    = Some empty_check_state
  ∧ ¬ is_first_check (scan year_10000_environment two_feeds_world).2 sample_feed.
Proof.
  assert ((check_single_feed year_10000_environment two_feeds_world sample_feed).1
          = Raise OverflowError) as H1 by (vm_compute; reflexivity).
  assert ((check_single_feed year_10000_environment
             (check_single_feed year_10000_environment two_feeds_world sample_feed).2
             other_feed).1 = Ret (200, Some "Success")) as H2 by (vm_compute; reflexivity).
  destruct (failed_first_check_is_not_repeated_as_first year_10000_environment
              two_feeds_world sample_feed other_feed "feed" "other" OverflowError
              (200, Some "Success") eq_refl eq_refl eq_refl)
    as (_ & Hf & _ & Hs & Hn); [discriminate|reflexivity|reflexivity|exact H1|exact H2|].
  split; [exact H1|]. split; [exact Hf|]. split; [exact Hs|exact Hn].
Defined.

(** ** The feed routes of the dashboard *)

(** *** Pausing and resuming *)

Lemma toggle_first_spec (fid : string) (feeds feeds' : list feed_config) (c : bool) :
  toggle_first fid feeds = Ret (Some (feeds', c)) →
  ∃ j f, feeds !! j = Some f ∧ feed_id f = Some fid ∧ c = effective_active f
         ∧ feeds' = <[j := set_active (Some (negb c)) f]> feeds
         ∧ ∀ i f', (i < j)%nat → feeds !! i = Some f' → feed_id f' ≠ Some fid.
Proof.
  revert feeds'. induction feeds as [|feed rest IH]; intros feeds'; simpl; [done|].
  destruct (feed_id feed) as [i|] eqn:Hid; [|done].
  destruct (decide (i = fid)) as [->|Hne].
  - intros [= <- <-]. exists 0%nat, feed. repeat split; try done. intros i f' Hi. lia.
  - destruct (toggle_first fid rest) as [[[rest' c']|]|x]; try done.
    intros [= <- <-]. destruct (IH _ eq_refl) as (j & f & Hj & Hf & Hc & -> & Hbefore).
    exists (S j), f. repeat split; try done.
    intros [|i'] f' Hi Hl; simpl in Hl.
    + simplify_eq. congruence.
    + eapply Hbefore; [|done]. lia.
Qed.

(** X18. [toggle_pause_feed] switches the flag of the first feed with the
    identifier, and of no other: that feed gets the negation of the flag it
    had ([True] when it had none), all other feeds, their order, and the
    ledger and check-state files are unchanged; the message is "paused" when
    the feed was active and "resumed" when it was not. *)
Theorem toggle_pause_switches_first_match (w w' : world) (fid : string) (n : notice) :
  toggle_pause_feed w fid = (Ret n, w') → n ≠ FeedMissing →
  ∃ j f,
    config_feeds w !! j = Some f ∧ feed_id f = Some fid
    ∧ (∀ i f', (i < j)%nat → config_feeds w !! i = Some f' → feed_id f' ≠ Some fid)
    ∧ config_feeds w' = <[j := set_active (Some (negb (effective_active f))) f]> (config_feeds w)
    ∧ n = (if effective_active f then FeedPaused else FeedResumed)
    ∧ sent_articles_file w' = sent_articles_file w
    ∧ feed_state_file w' = feed_state_file w.
Proof.
  unfold toggle_pause_feed.
  destruct (toggle_first fid (config_feeds w)) as [[[feeds c]|]|x] eqn:Ht; [|by intros [= <-]|done].
  intros [= <- <-] _. destruct (toggle_first_spec _ _ _ _ Ht) as (j & f & Hj & Hf & -> & -> & Hb).
  exists j, f. repeat split; done.
Qed.

Lemma toggle_first_twice (fid : string) (feeds feeds1 : list feed_config) (c : bool) :
  toggle_first fid feeds = Ret (Some (feeds1, c)) →
  ∃ feeds2, toggle_first fid feeds1 = Ret (Some (feeds2, negb c))
            ∧ effective_active <$> feeds2 = effective_active <$> feeds
            ∧ set_active None <$> feeds2 = set_active None <$> feeds.
Proof.
  revert feeds1. induction feeds as [|feed rest IH]; intros feeds1; simpl; [done|].
  destruct (feed_id feed) as [i|] eqn:Hid; [|done].
  destruct (decide (i = fid)) as [->|Hne].
  - intros [= <- <-]. cbn [toggle_first set_active feed_id]. rewrite Hid, decide_True by done.
    eexists. split; [reflexivity|]. rewrite !fmap_cons. split; [|done].
    f_equal. unfold effective_active. cbn [active set_active default].
    unfold id. by rewrite negb_involutive.
  - destruct (toggle_first fid rest) as [[[rest' c']|]|x]; try done.
    intros [= <- <-]. destruct (IH _ eq_refl) as (feeds2 & Ht & He & Hs).
    cbn [toggle_first]. rewrite Hid, decide_False, Ht by done.
    eexists. split; [reflexivity|]. rewrite !fmap_cons. by rewrite He, Hs.
Qed.

(** X19. Pausing and resuming a feed restores it: a second
    [toggle_pause_feed] with the same identifier succeeds with the opposite
    message, and afterwards every feed has the flag it had at first ([True]
    standing for a missing key) and all its other values. *)
Theorem toggle_pause_twice_restores (w w1 : world) (fid : string) (n : notice) :
  toggle_pause_feed w fid = (Ret n, w1) → n ≠ FeedMissing →
  ∃ n' w2,
    toggle_pause_feed w1 fid = (Ret n', w2)
    ∧ (n = FeedPaused ∧ n' = FeedResumed ∨ n = FeedResumed ∧ n' = FeedPaused)
    ∧ effective_active <$> config_feeds w2 = effective_active <$> config_feeds w
    ∧ set_active None <$> config_feeds w2 = set_active None <$> config_feeds w.
Proof.
  unfold toggle_pause_feed.
  destruct (toggle_first fid (config_feeds w)) as [[[feeds c]|]|x] eqn:Ht; [|by intros [= <-]|done].
  intros [= <- <-] _. destruct (toggle_first_twice _ _ _ _ Ht) as (feeds2 & Ht2 & He & Hs).
  simpl. rewrite Ht2. eexists _, _. split; [reflexivity|].
  split; [destruct c; simpl; auto|done].
Qed.

Lemma toggle_pause_switches_first_match_witness :
  toggle_pause_feed dashboard_world "feed"
  = (Ret FeedPaused, save_config [other_feed; paused_feed] dashboard_world)
  ∧ ∃ j f,
      config_feeds dashboard_world !! j = Some f ∧ feed_id f = Some "feed"
      ∧ config_feeds (save_config [other_feed; paused_feed] dashboard_world)
        = <[j := set_active (Some (negb (effective_active f))) f]>
            (config_feeds dashboard_world).
Proof.
  assert (toggle_pause_feed dashboard_world "feed"
          = (Ret FeedPaused, save_config [other_feed; paused_feed] dashboard_world)) as H1
    by reflexivity.
  assert (FeedPaused ≠ FeedMissing) as H2 by discriminate.
  split; [exact H1|].
  destruct (toggle_pause_switches_first_match dashboard_world _ "feed" FeedPaused H1 H2)
    as (j & f & Hj & Hf & _ & Hc & _).
  exists j, f. split; [exact Hj|]. split; [exact Hf|exact Hc].
Defined.

Lemma toggle_pause_twice_restores_witness :
  toggle_pause_feed dashboard_world "feed"
  = (Ret FeedPaused, save_config [other_feed; paused_feed] dashboard_world)
  ∧ ∃ n' w2,
      toggle_pause_feed (save_config [other_feed; paused_feed] dashboard_world) "feed"
      = (Ret n', w2)
      ∧ effective_active <$> config_feeds w2 = effective_active <$> config_feeds dashboard_world.
Proof.
  assert (toggle_pause_feed dashboard_world "feed"
          = (Ret FeedPaused, save_config [other_feed; paused_feed] dashboard_world)) as H1
    by reflexivity.
  assert (FeedPaused ≠ FeedMissing) as H2 by discriminate.
  split; [exact H1|].
  destruct (toggle_pause_twice_restores dashboard_world _ "feed" FeedPaused H1 H2)
    as (n' & w2 & Ht & _ & He & _).
  exists n', w2. split; [exact Ht|exact He].
Defined.

(** *** The scheduler and the pause *)

Lemma send_to_webhook_save_config (env : environment) (c : list feed_config) (w : world)
    (url : string) (e : embed) :
  send_to_webhook env (save_config c w) url e
  = ((send_to_webhook env w url e).1, save_config c (send_to_webhook env w url e).2).
Proof.
  unfold send_to_webhook. simpl.
  destruct (requests_post env (length (posted w)) url e); [|done].
  by repeat case_bool_decide.
Qed.

Lemma post_to_webhooks_save_config (env : environment) (c : list feed_config) (e : embed)
    (whs : list webhook) (s : option string) (w : world) :
  post_to_webhooks env e whs s (save_config c w)
  = ((post_to_webhooks env e whs s w).1, save_config c (post_to_webhooks env e whs s w).2).
Proof.
  revert s w. induction whs as [|wh whs IH]; intros s w; simpl; [done|].
  destruct (truthy (webhook_url wh)) as [url|]; [|apply IH].
  rewrite send_to_webhook_save_config.
  destruct (send_to_webhook env w url e) as [s' w']. cbn [fst snd]. apply IH.
Qed.

Lemma post_articles_save_config (env : environment) (c : list feed_config) (fc : feed_config)
    (es : list entry) (s : option string) (w : world) :
  post_articles env fc es s (save_config c w)
  = ((post_articles env fc es s w).1, save_config c (post_articles env fc es s w).2).
Proof.
  revert s w. induction es as [|e es IH]; intros s w; simpl; [done|].
  rewrite post_to_webhooks_save_config.
  destruct (post_to_webhooks env (make_embed env fc e) (webhooks fc) s w) as [s' w'].
  cbn [fst snd]. apply IH.
Qed.

Lemma articles_to_post_save_config (env : environment) (c : list feed_config) (w : world)
    (fc : feed_config) (recent : list entry) :
  articles_to_post env (save_config c w) fc recent
  = ((articles_to_post env w fc recent).1,
     save_config c (articles_to_post env w fc recent).2).
Proof.
  unfold articles_to_post. simpl.
  change (load_feed_state (save_config c w)) with (load_feed_state w).
  destruct (filter_and_update_sent_articles _ _ _) as [[new|x] file']; [|done].
  by destruct (match feed_id fc with Some i => _ | None => true end).
Qed.

(** The configuration is carried through a check. *)
Lemma check_single_feed_save_config (env : environment) (c : list feed_config) (w : world)
    (fc : feed_config) :
  check_single_feed env (save_config c w) fc
  = ((check_single_feed env w fc).1, save_config c (check_single_feed env w fc).2).
Proof.
  unfold check_single_feed.
  destruct (entries (feedparser_parse env (feed_url fc))) as [|e0 es]; [done|].
  destruct (recent_articles env _ (e0 :: es)) as [[|r0 recent]|x]; [done| |done].
  change (add_fetched (feed_url fc) (save_config c w))
    with (save_config c (add_fetched (feed_url fc) w)).
  rewrite articles_to_post_save_config.
  destruct (articles_to_post env (add_fetched (feed_url fc) w) fc _) as [[to_post|x] w1];
    cbn [fst snd]; [|done].
  rewrite post_articles_save_config.
  by destruct (post_articles env fc (sort_oldest_first to_post) None w1).
Qed.

Lemma scan_feed_save_config (env : environment) (c : list feed_config)
    (st : gmap string check_state) (w : world) (fc : feed_config) :
  scan_feed env st (save_config c w) fc
  = ((scan_feed env st w fc).1, save_config c (scan_feed env st w fc).2).
Proof.
  unfold scan_feed. destruct (truthy (feed_id fc)) as [fid|]; [|done].
  destruct (should_check _ _ _) as [[|]|x]; [|done..].
  rewrite check_single_feed_save_config.
  by destruct (check_single_feed env w fc) as [[[code last]|x] w1].
Qed.

(** A scan over feeds that differ from the configured ones in the [active]
    flag only. *)
Lemma scan_feeds_ignores_active (env : environment) (c : list feed_config)
    (feeds feeds' : list feed_config) (st : gmap string check_state) (w : world) :
  set_active None <$> feeds' = set_active None <$> feeds →
  scan_feeds env st (save_config c w) feeds'
  = ((scan_feeds env st w feeds).1, save_config c (scan_feeds env st w feeds).2).
Proof.
  revert feeds' st w. induction feeds as [|fc feeds IH]; intros [|fc' feeds'] st w Heq;
    try done.
  rewrite !fmap_cons in Heq.
  assert (set_active None fc' = set_active None fc
          ∧ set_active None <$> feeds' = set_active None <$> feeds) as [Hfc Heq'].
  { generalize dependent (set_active None fc'). generalize dependent (set_active None fc).
    intros a b Hab. by inversion Hab. }
  cbn [scan_feeds].
  assert (scan_feed env st (save_config c w) fc'
          = ((scan_feed env st w fc).1, save_config c (scan_feed env st w fc).2)) as ->.
  { rewrite <- (scan_feed_set_active env None _ _ fc'), Hfc.
    by rewrite scan_feed_set_active, scan_feed_save_config. }
  destruct (scan_feed env st w fc) as [[st1|x] w1]; cbn [fst snd]; [by apply IH|done].
Qed.

(** X20. Pausing or resuming a feed from the dashboard changes nothing in
    what the scheduler does: a scan after [toggle_pause_feed] makes the same
    fetches and posts and leaves the same ledger and check-state files as a
    scan before it, and ends in the same way. *)
Theorem scan_is_the_same_after_toggle_pause (env : environment) (w w' : world)
    (fid : string) (n : notice) :
  toggle_pause_feed w fid = (Ret n, w') →
  (scan env w').1 = (scan env w).1
  ∧ fetched (scan env w').2 = fetched (scan env w).2
  ∧ posted (scan env w').2 = posted (scan env w).2
  ∧ sent_articles_file (scan env w').2 = sent_articles_file (scan env w).2
  ∧ feed_state_file (scan env w').2 = feed_state_file (scan env w).2.
Proof.
  unfold toggle_pause_feed.
  destruct (toggle_first fid (config_feeds w)) as [[[feeds c]|]|x] eqn:Ht; [| |done].
  - intros [= <- <-].
    assert (set_active None <$> feeds = set_active None <$> config_feeds w) as Heq.
    { destruct (toggle_first_spec _ _ _ _ Ht) as (j & f & Hj & _ & _ & -> & _).
      rewrite list_fmap_insert. apply list_insert_id. rewrite list_lookup_fmap, Hj. done. }
    unfold scan. cbn [config_feeds save_config].
    change (load_feed_state (save_config feeds w)) with (load_feed_state w).
    rewrite (scan_feeds_ignores_active env feeds (config_feeds w) feeds _ w Heq).
    by destruct (scan_feeds env (load_feed_state w) w (config_feeds w)) as [[st1|x] w1].
  - by intros [= <- <-].
Qed.

Lemma scan_is_the_same_after_toggle_pause_witness :
  toggle_pause_feed dashboard_world "feed"
  = (Ret FeedPaused, save_config [other_feed; paused_feed] dashboard_world)
  ∧ fetched (scan two_entries_environment
               (save_config [other_feed; paused_feed] dashboard_world)).2
    = fetched (scan two_entries_environment dashboard_world).2
  ∧ posted (scan two_entries_environment
              (save_config [other_feed; paused_feed] dashboard_world)).2
    = posted (scan two_entries_environment dashboard_world).2.
Proof.
  assert (toggle_pause_feed dashboard_world "feed"
          = (Ret FeedPaused, save_config [other_feed; paused_feed] dashboard_world)) as H1
    by reflexivity.
  split; [exact H1|].
  destruct (scan_is_the_same_after_toggle_pause two_entries_environment dashboard_world _
              "feed" FeedPaused H1) as (_ & Hf & Hp & _).
  split; [exact Hf|exact Hp].
Defined.

(** *** Deleting *)

Lemma without_feed_spec (fid : string) (feeds feeds' : list feed_config) :
  without_feed fid feeds = Ret feeds' →
  feeds' = filter (λ f, feed_id f ≠ Some fid) feeds
  ∧ Forall (λ f, is_Some (feed_id f)) feeds.
Proof.
  revert feeds'. induction feeds as [|feed rest IH]; intros feeds'; simpl.
  - intros [= <-]. by split.
  - destruct (feed_id feed) as [i|] eqn:Hid; [|done].
    destruct (without_feed fid rest) as [rest'|x]; [|done].
    intros [= <-]. destruct (IH _ eq_refl) as [-> Hall].
    split; [|constructor; [by rewrite Hid|done]].
    rewrite filter_cons. destruct (decide (i = fid)) as [->|Hne].
    + rewrite decide_False; [done|]. rewrite Hid. by intros ?.
    + rewrite decide_True; [done|]. rewrite Hid. congruence.
Qed.

Lemma find_feed_absent (fid : string) (feeds : list feed_config) :
  Forall (λ f, is_Some (feed_id f)) feeds →
  find_feed fid (filter (λ f, feed_id f ≠ Some fid) feeds) = Ret None.
Proof.
  induction 1 as [|feed rest [i Hid] _ IH]; [done|].
  rewrite filter_cons. destruct (decide (feed_id feed ≠ Some fid)) as [Hne|Heq]; [|done].
  simpl. rewrite Hid. rewrite decide_False; [done|]. congruence.
Qed.

(** X21. A successful [delete_feed] removes every feed with the identifier
    and keeps the others in their order; it touches neither the ledger nor
    the check-state file, so the state of the deleted feed stays on disk; a
    second [delete_feed] with the same identifier reports that the feed is
    not found and changes nothing. *)
Theorem delete_feed_removes_every_match (w w' : world) (fid url : string) :
  delete_feed w fid = (Ret (FeedDeleted url), w') →
  config_feeds w' = filter (λ f, feed_id f ≠ Some fid) (config_feeds w)
  ∧ sent_articles_file w' = sent_articles_file w
  ∧ feed_state_file w' = feed_state_file w
  ∧ find_feed fid (config_feeds w') = Ret None
  ∧ delete_feed w' fid = (Ret FeedMissing, w').
Proof.
  unfold delete_feed.
  destruct (find_feed fid (config_feeds w)) as [[feed|]|x]; [| done..].
  destruct (without_feed fid (config_feeds w)) as [feeds|x] eqn:Hw; [|done].
  destruct (without_feed_spec _ _ _ Hw) as [-> Hall].
  destruct (feed_url feed); [|done]. intros [= <- <-]. cbn [config_feeds save_config].
  rewrite (find_feed_absent fid _ Hall). done.
Qed.

(** *** Adding and editing *)

Lemma webhook_urls_of_form (form : feed_form) (fc : feed_config) :
  webhooks fc = webhooks_data form →
  webhook_urls fc
  = filter (λ u, u ≠ "")
      (take (length (form_webhook_labels form)) (form_webhook_urls form))
  ∧ length (webhooks fc) = length (webhook_urls fc).
Proof.
  intros Hw. unfold webhook_urls, webhooks_data in *. rewrite Hw. clear Hw.
  generalize (form_webhook_labels form). induction (form_webhook_urls form) as [|u us IH];
    intros [|l ls]; cbn [zip zip_with omap list_omap length take]; try done.
  destruct (IH ls) as [IH1 IH2]. rewrite filter_cons.
  destruct (decide (u = "")) as [->|Hne].
  - rewrite decide_False by (by intros ?). done.
  - rewrite decide_True by done.
    cbn [omap list_omap webhook_url truthy length]. rewrite decide_False by done.
    cbn [length]. split; [by f_equal|by f_equal].
Qed.

Lemma find_feed_app_fresh (fid : string) (feeds : list feed_config) (fc : feed_config) :
  Forall (λ f, ∃ i, feed_id f = Some i ∧ i ≠ fid) feeds →
  feed_id fc = Some fid →
  find_feed fid (feeds ++ [fc]) = Ret (Some fc).
Proof.
  intros Hall Hfc. induction Hall as [|feed rest (i & Hid & Hne) _ IH]; simpl.
  - by rewrite Hfc, decide_True.
  - by rewrite Hid, decide_False.
Qed.

(** X22. [add_feed] appends one feed and leaves the others, the ledger and
    the check state as they are.  The endpoints that the scheduler will post
    to for the new feed are the non-empty URLs of the form, in the order of
    the form, as far as the form has labels; every stored endpoint is one of
    them.  When every configured feed has an identifier other than the new
    one, [find_feed] finds the new feed under its identifier. *)
Theorem add_feed_appends (new_id : string) (w : world) (form : feed_form) :
  (add_feed new_id w form).1 = Ret (FeedAdded (form_url form))
  ∧ config_feeds (add_feed new_id w form).2
    = (config_feeds w ++ [added_feed new_id form])%list
  ∧ sent_articles_file (add_feed new_id w form).2 = sent_articles_file w
  ∧ feed_state_file (add_feed new_id w form).2 = feed_state_file w
  ∧ webhook_urls (added_feed new_id form)
    = filter (λ u, u ≠ "")
        (take (length (form_webhook_labels form)) (form_webhook_urls form))
  ∧ length (webhooks (added_feed new_id form))
    = length (webhook_urls (added_feed new_id form))
  ∧ (Forall (λ f, ∃ i, feed_id f = Some i ∧ i ≠ new_id) (config_feeds w) →
     find_feed new_id (config_feeds (add_feed new_id w form).2)
     = Ret (Some (added_feed new_id form))).
Proof.
  destruct (webhook_urls_of_form form (added_feed new_id form) eq_refl) as [Hu Hl].
  repeat split; try done.
  intros Hall. by apply find_feed_app_fresh.
Qed.

Lemma edit_first_spec (fid : string) (form : feed_form) (feeds : list feed_config)
    (feed : feed_config) :
  find_feed fid feeds = Ret (Some feed) →
  ∃ j, feeds !! j = Some feed
       ∧ feed_id feed = Some fid
       ∧ (∀ i f', (i < j)%nat → feeds !! i = Some f' → feed_id f' ≠ Some fid)
       ∧ edit_first fid form feeds = Ret (<[j := edited_feed form feed]> feeds)
       ∧ find_feed fid (<[j := edited_feed form feed]> feeds)
         = Ret (Some (edited_feed form feed)).
Proof.
  induction feeds as [|f rest IH]; simpl; [done|].
  destruct (feed_id f) as [i|] eqn:Hid; [|done].
  destruct (decide (i = fid)) as [->|Hne].
  - intros [= <-]. exists 0%nat. split; [done|]. split; [done|].
    split; [intros i f' Hi; lia|]. split.
    + unfold edited_feed. by rewrite Hid.
    + cbn [list_insert insert find_feed edited_feed feed_id]. by rewrite Hid, decide_True.
  - intros Hfind. destruct (IH Hfind) as (j & Hj & Hf & Hb & -> & Hfound).
    exists (S j). split; [done|]. split; [done|]. split; [|split].
    + intros [|i'] f' Hi Hl; simpl in Hl.
      * simplify_eq. congruence.
      * eapply Hb; [|done]. lia.
    + done.
    + change (<[S j:=edited_feed form feed]> (f :: rest))
        with (f :: <[j:=edited_feed form feed]> rest).
      cbn [find_feed]. by rewrite Hid, decide_False, Hfound.
Qed.

(** X23. A successful [edit_feed] changes the first feed with the
    identifier and no other: the feed takes the values of the form and keeps
    its identifier, so the identifiers of the configuration and their order
    are unchanged; the ledger and the check state are untouched, and looking
    the identifier up afterwards yields the edited feed. *)
Theorem edit_feed_keeps_identifiers (w w' : world) (fid : string) (form : feed_form) :
  edit_feed w fid form = (Ret FeedUpdated, w') →
  ∃ j feed,
    config_feeds w !! j = Some feed ∧ feed_id feed = Some fid
    ∧ (∀ i f', (i < j)%nat → config_feeds w !! i = Some f' → feed_id f' ≠ Some fid)
    ∧ config_feeds w' = <[j := edited_feed form feed]> (config_feeds w)
    ∧ feed_id <$> config_feeds w' = feed_id <$> config_feeds w
    ∧ find_feed fid (config_feeds w') = Ret (Some (edited_feed form feed))
    ∧ sent_articles_file w' = sent_articles_file w
    ∧ feed_state_file w' = feed_state_file w.
Proof.
  unfold edit_feed.
  destruct (find_feed fid (config_feeds w)) as [[feed|]|x] eqn:Hfind; [|done..].
  destruct (edit_first_spec fid form _ _ Hfind) as (j & Hj & Hf & Hb & -> & Hfound).
  intros [= <-]. exists j, feed. cbn [config_feeds save_config sent_articles_file feed_state_file].
  repeat split; try done.
  rewrite list_fmap_insert. apply list_insert_id. by rewrite list_lookup_fmap, Hj.
Qed.

Lemma delete_feed_removes_every_match_witness :
  delete_feed dashboard_world "feed"
  = (Ret (FeedDeleted "http://feed"), save_config [other_feed] dashboard_world)
  ∧ find_feed "feed" (config_feeds (save_config [other_feed] dashboard_world)) = Ret None
  ∧ delete_feed (save_config [other_feed] dashboard_world) "feed"
    = (Ret FeedMissing, save_config [other_feed] dashboard_world).
Proof.
  assert (delete_feed dashboard_world "feed"
          = (Ret (FeedDeleted "http://feed"), save_config [other_feed] dashboard_world)) as H1
    by reflexivity.
  split; [exact H1|].
  destruct (delete_feed_removes_every_match dashboard_world _ "feed" "http://feed" H1)
    as (_ & _ & _ & Hf & Hd).
  split; [exact Hf|exact Hd].
Defined.

Lemma edit_feed_keeps_identifiers_witness :
  edit_feed dashboard_world "feed" sample_form
  = (Ret FeedUpdated,
     save_config [other_feed; edited_feed sample_form sample_feed] dashboard_world)
  ∧ ∃ j feed,
      config_feeds dashboard_world !! j = Some feed ∧ feed_id feed = Some "feed"
      ∧ feed_id <$> config_feeds
                      (save_config [other_feed; edited_feed sample_form sample_feed]
                         dashboard_world)
        = feed_id <$> config_feeds dashboard_world.
Proof.
  assert (edit_feed dashboard_world "feed" sample_form
          = (Ret FeedUpdated,
             save_config [other_feed; edited_feed sample_form sample_feed] dashboard_world))
    as H1 by reflexivity.
  split; [exact H1|].
  destruct (edit_feed_keeps_identifiers dashboard_world _ "feed" sample_form H1)
    as (j & feed & Hj & Hf & _ & _ & Hids & _).
  exists j, feed. split; [exact Hj|]. split; [exact Hf|exact Hids].
Defined.

(** ** The account routes of the dashboard *)

(** *** The account of the session *)

Lemma get_user_by_id_spec uid users u :
  get_user_by_id uid users = Ret (Some u) →
  ∃ l1 l2, users = (l1 ++ u :: l2)%list ∧ user_id u = Some uid
           ∧ Forall (λ v, ∃ i, user_id v = Some i ∧ i ≠ uid) l1.
Proof.
  induction users as [|v users IH]; [done|]. cbn [get_user_by_id].
  destruct (user_id v) as [i|] eqn:Hi; [|done]. case_decide as Hd.
  - intros [= ->]. exists [], users. subst. by repeat split.
  - intros (l1 & l2 & -> & Hu & Hl)%IH. exists (v :: l1), l2.
    repeat split; [done|]. constructor; [by exists i|done].
Qed.

Lemma get_user_by_id_none uid users :
  get_user_by_id uid users = Ret None →
  Forall (λ v, ∃ i, user_id v = Some i ∧ i ≠ uid) users.
Proof.
  induction users as [|v users IH]; [by constructor|]. cbn [get_user_by_id].
  destruct (user_id v) as [i|] eqn:Hi; [|done]. case_decide as Hd; [done|].
  intros H. constructor; [by exists i|by apply IH].
Qed.

Lemma get_user_by_id_app uid l1 u l2 :
  Forall (λ v, ∃ i, user_id v = Some i ∧ i ≠ uid) l1 → user_id u = Some uid →
  get_user_by_id uid (l1 ++ u :: l2) = Ret (Some u).
Proof.
  induction 1 as [|v l1 (i & Hi & Hne) _ IH]; intros Hu; cbn [get_user_by_id app].
  - rewrite Hu. by rewrite decide_True.
  - rewrite Hi. rewrite decide_False by done. by apply IH.
Qed.

Lemma with_logged_in_user_spec session users route n users' :
  with_logged_in_user session users route = (Ret n, users') →
  (n = LoginRequired ∧ users' = users)
  ∨ ∃ uid g_user, session = Some uid
      ∧ get_user_by_id uid users = Ret (Some g_user)
      ∧ route g_user = (Ret n, users').
Proof.
  unfold with_logged_in_user.
  destruct (truthy session) as [uid|] eqn:Ht.
  - apply truthy_Some in Ht as ->.
    destruct (get_user_by_id uid users) as [[g_user|]|x] eqn:Hg.
    + intros H. right. by exists uid, g_user.
    + intros [= <- <-]. by left.
    + done.
  - intros [= <- <-]. by left.
Qed.

Lemma without_user_spec uid users users' :
  without_user uid users = Ret users' →
  users' = filter (λ u, user_id u ≠ Some uid) users.
Proof.
  revert users'. induction users as [|u users IH]; intros users'; cbn [without_user].
  - by intros [= <-].
  - destruct (user_id u) as [i|] eqn:Hi; [|done].
    destruct (without_user uid users) as [rest|x]; [|done].
    intros [= <-]. rewrite filter_cons. rewrite Hi.
    specialize (IH _ eq_refl). subst rest.
    case_decide; case_decide; try done; naive_solver.
Qed.

Lemma without_user_total uid users :
  Forall (λ v, is_Some (user_id v)) users →
  ∃ users', without_user uid users = Ret users'.
Proof.
  induction 1 as [|u users [i Hi] _ [rest IH]]; cbn [without_user]; [by eexists|].
  rewrite Hi, IH. by eexists.
Qed.

(** *** Deleting an account *)

Lemma filter_all {A} (P : A → Prop) `{∀ x, Decision (P x)} (l : list A) :
  Forall P l → filter P l = l.
Proof.
  induction 1 as [|x l Hx _ IH]; [done|].
  rewrite filter_cons, decide_True by done. by rewrite IH.
Qed.

Lemma without_user_unique uid l1 t l2 users' :
  NoDup (user_id <$> (l1 ++ t :: l2)%list) → user_id t = Some uid →
  without_user uid (l1 ++ t :: l2) = Ret users' → users' = (l1 ++ l2)%list.
Proof.
  intros Hnd Ht ->%without_user_spec.
  rewrite fmap_app, fmap_cons in Hnd.
  apply NoDup_app in Hnd as (_ & H1 & [H2 _]%NoDup_cons).
  rewrite filter_app, filter_cons, decide_False by (by intros []).
  rewrite !filter_all; [done| |].
  - apply Forall_forall. intros v Hv Hid. apply H2. rewrite Ht, <- Hid.
    by apply list_elem_of_fmap_2.
  - apply Forall_forall. intros v Hv Hid. apply (H1 (Some uid)).
    + rewrite <- Hid. by apply list_elem_of_fmap_2.
    + rewrite <- Ht. apply elem_of_cons. by left.
Qed.

(** X24. When the identifiers of the accounts are distinct, [delete_user]
    removes at most the one account with the identifier asked for, and only
    when the acting account is the owner, or a super admin deleting an
    admin.  The acting account and every owner stay. *)
Theorem delete_user_removes_only_permitted_target (session : option string)
    (users : list user) (target : string) (n : user_notice) (users' : list user) :
  NoDup (user_id <$> users) →
  delete_user session users target = (Ret n, users') →
  (n ≠ UserDeleted ∧ users' = users)
  ∨ (n = UserDeleted
     ∧ ∃ uid g_user l1 t l2,
         session = Some uid ∧ uid ≠ target
         ∧ get_user_by_id uid users = Ret (Some g_user)
         ∧ users = (l1 ++ t :: l2)%list ∧ users' = (l1 ++ l2)%list
         ∧ user_id t = Some target ∧ user_role t ≠ Some "owner"
         ∧ (user_role g_user = Some "owner"
            ∨ user_role g_user = Some "super_admin" ∧ user_role t = Some "admin")
         ∧ g_user ∈ users'
         ∧ ∀ u, u ∈ users → user_role u = Some "owner" → u ∈ users').
Proof.
  intros Hnd Hd. unfold delete_user in Hd.
  apply with_logged_in_user_spec in Hd as [[-> ->]|(uid & g_user & -> & Hg & Hd)];
    [by left|].
  destruct (get_user_by_id_spec _ _ _ Hg) as (k1 & k2 & Hk & Hgid & _).
  rewrite Hgid in Hd. case_decide as Hself; [simplify_eq; by left|].
  destruct (get_user_by_id target users) as [[t|]|x] eqn:Ht;
    [|simplify_eq; by left|done].
  case_decide as Howner; [simplify_eq; by left|].
  destruct (get_user_by_id_spec _ _ _ Ht) as (l1 & l2 & Hl & Htid & _).
  assert (∀ users'', without_user target users = Ret users'' →
          users'' = (l1 ++ l2)%list ∧ g_user ∈ users''
          ∧ ∀ u, u ∈ users → user_role u = Some "owner" → u ∈ users'') as Hdel.
  { intros users'' Hw. rewrite Hl in Hw, Hnd.
    apply without_user_unique in Hw; [|done..]. subst users''.
    assert (∀ u, u ∈ users → u ≠ t → u ∈ (l1 ++ l2)%list) as Hin.
    { intros u Hu Hne. rewrite Hl in Hu.
      apply elem_of_app in Hu as [Hu|[Hu|Hu]%elem_of_cons]; [set_solver|done|set_solver]. }
    split; [done|]. split.
    - apply Hin; [rewrite Hk; set_solver|]. intros ->. congruence.
    - intros u Hu Hr. apply Hin; [done|]. intros ->. congruence. }
  destruct (user_role g_user) as [my_role|] eqn:Hrole; [|done].
  case_decide as Ho.
  - destruct (without_user target users) as [users''|x] eqn:Hw; [|done].
    injection Hd as <- <-. destruct (Hdel _ eq_refl) as (-> & Hme & Hown).
    right. split; [done|]. exists uid, g_user, l1, t, l2.
    split_and!; try done. left. by subst.
  - case_decide as Hs; [|simplify_eq; by left].
    case_decide as Ha; [|simplify_eq; by left].
    destruct (without_user target users) as [users''|x] eqn:Hw; [|done].
    injection Hd as <- <-. destruct (Hdel _ eq_refl) as (-> & Hme & Hown).
    right. split; [done|]. exists uid, g_user, l1, t, l2.
    split_and!; try done. right. by subst.
Qed.

Lemma delete_user_removes_only_permitted_target_witness :
  NoDup (user_id <$> sample_users)
  ∧ delete_user (Some "2") sample_users "3"
    = (Ret UserDeleted, [account "1" "olivia" "owner"; account "2" "sam" "super_admin"])
  ∧ ((UserDeleted ≠ UserDeleted
      ∧ [account "1" "olivia" "owner"; account "2" "sam" "super_admin"] = sample_users)
     ∨ (UserDeleted = UserDeleted
        ∧ ∃ uid g_user l1 t l2,
            Some "2" = Some uid ∧ uid ≠ "3"
            ∧ get_user_by_id uid sample_users = Ret (Some g_user)
            ∧ sample_users = (l1 ++ t :: l2)%list
            ∧ [account "1" "olivia" "owner"; account "2" "sam" "super_admin"]
              = (l1 ++ l2)%list
            ∧ user_id t = Some "3" ∧ user_role t ≠ Some "owner"
            ∧ (user_role g_user = Some "owner"
               ∨ user_role g_user = Some "super_admin" ∧ user_role t = Some "admin")
            ∧ g_user ∈ [account "1" "olivia" "owner"; account "2" "sam" "super_admin"]
            ∧ ∀ u, u ∈ sample_users → user_role u = Some "owner"
                   → u ∈ [account "1" "olivia" "owner"; account "2" "sam" "super_admin"])).
Proof.
  assert (NoDup (user_id <$> sample_users)) as H1 by compute_done.
  assert (delete_user (Some "2") sample_users "3"
          = (Ret UserDeleted,
             [account "1" "olivia" "owner"; account "2" "sam" "super_admin"])) as H2
    by reflexivity.
  split; [exact H1|]. split; [exact H2|].
  exact (delete_user_removes_only_permitted_target _ _ _ _ _ H1 H2).
Defined.

(** *** Promoting and demoting *)

Lemma change_role_spec uid old new users users' :
  change_role uid old new users = Ret (Some users') →
  ∃ l1 t l2, users = (l1 ++ t :: l2)%list
             ∧ get_user_by_id uid users = Ret (Some t)
             ∧ user_id t = Some uid ∧ user_role t = Some old
             ∧ users' = (l1 ++ set_user_role new t :: l2)%list
             ∧ Forall (λ v, ∃ i, user_id v = Some i ∧ i ≠ uid) l1.
Proof.
  revert users'. induction users as [|v users IH]; intros users'; [done|].
  cbn [change_role get_user_by_id].
  destruct (user_id v) as [i|] eqn:Hi; [|done]. case_decide as Hd.
  - destruct (user_role v) as [r|] eqn:Hr; [|done]. case_decide; [|done].
    intros [= <-]. exists [], v, users. subst. by split_and!.
  - destruct (change_role uid old new users) as [[rest|]|x]; [|done..].
    intros [= <-]. destruct (IH _ eq_refl) as (l1 & t & l2 & -> & Hg & Ht & Hr & -> & Hl).
    exists (v :: l1), t, l2. split_and!; try done.
    constructor; [by exists i|done].
Qed.

Lemma change_role_app uid old new l1 t l2 :
  Forall (λ v, ∃ i, user_id v = Some i ∧ i ≠ uid) l1 →
  user_id t = Some uid → user_role t = Some old →
  change_role uid old new (l1 ++ t :: l2)
  = Ret (Some (l1 ++ set_user_role new t :: l2)%list).
Proof.
  induction 1 as [|v l1 (i & Hi & Hne) _ IH]; intros Ht Hr; cbn [change_role app].
  - rewrite Ht, decide_True by done. rewrite Hr. by rewrite decide_True.
  - rewrite Hi. rewrite decide_False by done. by rewrite IH.
Qed.

Lemma get_user_by_id_set_role uid r l1 t l2 target :
  user_id t = Some target → uid ≠ target →
  get_user_by_id uid (l1 ++ set_user_role r t :: l2)
  = get_user_by_id uid (l1 ++ t :: l2).
Proof.
  intros Ht Hne. induction l1 as [|v l1 IH]; cbn [get_user_by_id app].
  - cbn [set_user_role user_id]. rewrite Ht. by rewrite !decide_False by congruence.
  - by rewrite IH.
Qed.

Lemma set_user_role_back old new t :
  user_role t = Some old → set_user_role old (set_user_role new t) = t.
Proof. destruct t; cbn. by intros ->. Qed.

(** [promote_user] and [demote_user] have the same shape, with the roles
    and the messages exchanged. *)
Lemma role_route_spec (old new : string) (changed denied : user_notice)
    (session : option string) (users : list user) (target : string)
    (n : user_notice) (users' : list user) :
  changed ≠ NothingFlashed → changed ≠ denied → changed ≠ LoginRequired →
  old ≠ "owner" →
  with_logged_in_user session users (λ g_user,
    match user_role g_user with
    | None => (Raise KeyError, users)
    | Some my_role =>
      if decide (my_role = "owner") then
        match change_role target old new users with
        | Ret (Some users') => (Ret changed, users')
        | Ret None => (Ret NothingFlashed, users)
        | Raise x => (Raise x, users)
        end
      else (Ret denied, users)
    end) = (Ret n, users') →
  (n ≠ changed ∧ users' = users)
  ∨ (n = changed
     ∧ ∃ uid g_user l1 t l2,
         session = Some uid ∧ uid ≠ target
         ∧ get_user_by_id uid users = Ret (Some g_user)
         ∧ user_role g_user = Some "owner"
         ∧ get_user_by_id target users = Ret (Some t)
         ∧ user_role t = Some old
         ∧ users = (l1 ++ t :: l2)%list
         ∧ users' = (l1 ++ set_user_role new t :: l2)%list
         ∧ Forall (λ v, ∃ i, user_id v = Some i ∧ i ≠ target) l1).
Proof.
  intros Hd1 Hd2 Hd3 Hold H.
  apply with_logged_in_user_spec in H as [[-> ->]|(uid & g_user & -> & Hg & H)];
    [by left|].
  destruct (user_role g_user) as [my_role|] eqn:Hrole; [|done].
  case_decide as Ho; [|simplify_eq; by left].
  destruct (change_role target old new users) as [[users''|]|x] eqn:Hc;
    [|simplify_eq; by left|done].
  injection H as <- <-. right. split; [done|].
  destruct (change_role_spec _ _ _ _ _ Hc) as (l1 & t & l2 & Hl & Ht & Htid & Hr & -> & Hl1).
  exists uid, g_user, l1, t, l2. split_and!; try done; [|congruence].
  intros ->. rewrite Hg in Ht. injection Ht as ->. congruence.
Qed.

(** X25. [promote_user] changes the accounts only when the acting account is
    the owner and the first account with the identifier is an admin; then
    that account becomes a super admin and nothing else changes. *)
Theorem promote_user_changes_one_role (session : option string) (users : list user)
    (target : string) (n : user_notice) (users' : list user) :
  promote_user session users target = (Ret n, users') →
  (n ≠ UserPromoted ∧ users' = users)
  ∨ (n = UserPromoted
     ∧ ∃ uid g_user l1 t l2,
         session = Some uid ∧ uid ≠ target
         ∧ get_user_by_id uid users = Ret (Some g_user)
         ∧ user_role g_user = Some "owner"
         ∧ get_user_by_id target users = Ret (Some t)
         ∧ user_role t = Some "admin"
         ∧ users = (l1 ++ t :: l2)%list
         ∧ users' = (l1 ++ set_user_role "super_admin" t :: l2)%list
         ∧ Forall (λ v, ∃ i, user_id v = Some i ∧ i ≠ target) l1).
Proof. by apply role_route_spec. Qed.

Lemma promote_user_changes_one_role_witness :
  promote_user (Some "1") sample_users "3"
  = (Ret UserPromoted,
     [account "1" "olivia" "owner"; account "2" "sam" "super_admin";
      account "3" "ada" "super_admin"])
  ∧ ∃ t, get_user_by_id "3" sample_users = Ret (Some t) ∧ user_role t = Some "admin".
Proof.
  assert (promote_user (Some "1") sample_users "3"
          = (Ret UserPromoted,
             [account "1" "olivia" "owner"; account "2" "sam" "super_admin";
              account "3" "ada" "super_admin"])) as H by reflexivity.
  split; [exact H|].
  destruct (promote_user_changes_one_role _ _ _ _ _ H)
    as [[Hn _]|(_ & _ & _ & _ & t & _ & _ & _ & _ & _ & Ht & Hr & _)]; [done|].
  by exists t.
Defined.


(** X26. [demote_user] changes the accounts only when the acting account is
    the owner and the first account with the identifier is a super admin;
    then that account becomes an admin and nothing else changes. *)
Theorem demote_user_changes_one_role (session : option string) (users : list user)
    (target : string) (n : user_notice) (users' : list user) :
  demote_user session users target = (Ret n, users') →
  (n ≠ UserDemoted ∧ users' = users)
  ∨ (n = UserDemoted
     ∧ ∃ uid g_user l1 t l2,
         session = Some uid ∧ uid ≠ target
         ∧ get_user_by_id uid users = Ret (Some g_user)
         ∧ user_role g_user = Some "owner"
         ∧ get_user_by_id target users = Ret (Some t)
         ∧ user_role t = Some "super_admin"
         ∧ users = (l1 ++ t :: l2)%list
         ∧ users' = (l1 ++ set_user_role "admin" t :: l2)%list
         ∧ Forall (λ v, ∃ i, user_id v = Some i ∧ i ≠ target) l1).
Proof. by apply role_route_spec. Qed.

Lemma demote_user_changes_one_role_witness :
  demote_user (Some "1") sample_users "2"
  = (Ret UserDemoted,
     [account "1" "olivia" "owner"; account "2" "sam" "admin"; account "3" "ada" "admin"])
  ∧ ∃ t, get_user_by_id "2" sample_users = Ret (Some t)
         ∧ user_role t = Some "super_admin".
Proof.
  assert (demote_user (Some "1") sample_users "2"
          = (Ret UserDemoted,
             [account "1" "olivia" "owner"; account "2" "sam" "admin";
              account "3" "ada" "admin"])) as H by reflexivity.
  split; [exact H|].
  destruct (demote_user_changes_one_role _ _ _ _ _ H)
    as [[Hn _]|(_ & _ & _ & _ & t & _ & _ & _ & _ & _ & Ht & Hr & _)]; [done|].
  by exists t.
Defined.


(** X27. Demoting the account that was just promoted gives back the accounts
    as they were. *)
Theorem promote_then_demote_restores (session : option string) (users : list user)
    (target : string) (users' : list user) :
  promote_user session users target = (Ret UserPromoted, users') →
  demote_user session users' target = (Ret UserDemoted, users).
Proof.
  intros H0. pose proof H0 as H.
  apply role_route_spec in H as [[? _]|[_ H]]; [done| |done..].
  destruct H as (uid & g_user & l1 & t & l2 & -> & Hne & Hg & Hrole & Ht & Hr & -> & ->
                 & Hl1).
  destruct (get_user_by_id_spec _ _ _ Ht) as (_ & _ & _ & Htid & _).
  assert (truthy (Some uid) = Some uid) as Htruthy.
  { unfold promote_user, with_logged_in_user in H0.
    destruct (truthy (Some uid)) as [uid'|] eqn:E; [|done].
    by apply truthy_Some in E as [= ->]. }
  unfold demote_user, with_logged_in_user. rewrite Htruthy.
  rewrite (get_user_by_id_set_role uid _ _ _ _ target) by done.
  rewrite Hg, Hrole, decide_True by done.
  rewrite (change_role_app target "super_admin" "admin" l1 (set_user_role "super_admin" t))
    by done.
  by rewrite (set_user_role_back "admin") by done.
Qed.

Lemma promote_then_demote_restores_witness :
  promote_user (Some "1") sample_users "3"
  = (Ret UserPromoted,
     [account "1" "olivia" "owner"; account "2" "sam" "super_admin";
      account "3" "ada" "super_admin"])
  ∧ demote_user (Some "1")
      [account "1" "olivia" "owner"; account "2" "sam" "super_admin";
       account "3" "ada" "super_admin"] "3"
    = (Ret UserDemoted, sample_users).
Proof.
  assert (promote_user (Some "1") sample_users "3"
          = (Ret UserPromoted,
             [account "1" "olivia" "owner"; account "2" "sam" "super_admin";
              account "3" "ada" "super_admin"])) as H by reflexivity.
  split; [exact H|]. exact (promote_then_demote_restores _ _ _ _ H).
Defined.

(** *** Adding an account *)

Lemma username_taken_false name users :
  username_taken name users = Ret false →
  Forall (λ u, ∃ nm, user_name u = Some nm ∧ nm ≠ name) users.
Proof.
  induction users as [|u users IH]; [by constructor|]. cbn [username_taken].
  destruct (user_name u) as [nm|] eqn:Hn; [|done]. case_decide as Hd; [done|].
  intros Ht. constructor; [by exists nm|by apply IH].
Qed.

Lemma username_taken_true name users :
  username_taken name users = Ret true → Some name ∈ user_name <$> users.
Proof.
  induction users as [|u users IH]; [done|]. cbn [username_taken].
  destruct (user_name u) as [nm|] eqn:Hn; [|done]. rewrite fmap_cons, Hn.
  case_decide as Hd; [subst; intros _; by left|]. intros Ht. right. by apply IH.
Qed.

(** X28. [add_user] changes the accounts only for an owner or a super admin
    and a user name that no account has; then it appends one account with
    that name and the fresh identifier.  The new account has the role that
    was asked for, except that super admin asked for by an account that is
    not the owner gives admin.  User names that were distinct stay so. *)
Theorem add_user_appends_one_account (session : option string) (users : list user)
    (new_id name hash role : string) (n : user_notice) (users' : list user) :
  add_user session users new_id name hash role = (Ret n, users') →
  (n ≠ UserCreated ∧ users' = users)
  ∨ (n = UserCreated
     ∧ ∃ uid g_user my_role role',
         session = Some uid
         ∧ get_user_by_id uid users = Ret (Some g_user)
         ∧ user_role g_user = Some my_role
         ∧ (my_role = "owner" ∨ my_role = "super_admin")
         ∧ Forall (λ u, ∃ nm, user_name u = Some nm ∧ nm ≠ name) users
         ∧ users' = (users ++ [{| user_id := Some new_id; user_name := Some name;
                                  user_password := Some hash;
                                  user_role := Some role' |}])%list
         ∧ (role ≠ "super_admin" ∨ my_role = "owner" → role' = role)
         ∧ (role = "super_admin" → my_role ≠ "owner" → role' = "admin")
         ∧ (NoDup (user_name <$> users) → NoDup (user_name <$> users'))).
Proof.
  unfold add_user. intros H.
  apply with_logged_in_user_spec in H as [[-> ->]|(uid & g_user & -> & Hg & H)];
    [by left|].
  destruct (user_role g_user) as [my_role|] eqn:Hrole; [|done].
  case_decide as Hperm; [|simplify_eq; by left].
  destruct (username_taken name users) as [[|]|x] eqn:Htaken;
    [simplify_eq; by left| |done].
  injection H as <- <-. right. split; [done|].
  apply username_taken_false in Htaken.
  eexists uid, g_user, my_role, _. split_and!; try done.
  - set_solver.
  - intros Hr. case_decide as Hd; [|done]. naive_solver.
  - intros Hr Ho. by rewrite decide_True.
  - intros Hnd. rewrite fmap_app. apply NoDup_app. split_and!; [done| |apply NoDup_singleton].
    intros o Ho [->|[]%elem_of_nil]%elem_of_cons. cbn in Ho.
    apply list_elem_of_fmap in Ho as (u & Hu & Hin).
    rewrite Forall_forall in Htaken. destruct (Htaken _ Hin) as (nm & Hnm & Hne).
    congruence.
Qed.

Lemma add_user_appends_one_account_witness :
  add_user (Some "2") sample_users "4" "max" "hash" "super_admin"
  = (Ret UserCreated, (sample_users ++ [account "4" "max" "admin"])%list)
  ∧ NoDup (user_name <$> (sample_users ++ [account "4" "max" "admin"])%list).
Proof.
  assert (add_user (Some "2") sample_users "4" "max" "hash" "super_admin"
          = (Ret UserCreated, (sample_users ++ [account "4" "max" "admin"])%list)) as H
    by reflexivity.
  split; [exact H|].
  destruct (add_user_appends_one_account _ _ _ _ _ _ _ _ H)
    as [[Hn _]|(_ & _ & _ & _ & _ & _ & _ & _ & _ & _ & _ & _ & _ & Hnd)]; [done|].
  apply Hnd. compute_done.
Defined.

(** *** Restoring a backup of the accounts *)

Lemma validate_users_spec users_data users :
  validate_users users_data = Some users →
  Forall2 (λ u v, user_id v = user_id u ∧ user_name v = user_name u
                  ∧ user_password v = user_password u
                  ∧ is_Some (user_id v) ∧ is_Some (user_name v)
                  ∧ is_Some (user_password v)
                  ∧ user_role v = Some (default "admin" (user_role u)))
          users_data users.
Proof.
  revert users. induction users_data as [|u rest IH]; intros users; cbn [validate_users].
  - intros [= <-]. constructor.
  - destruct (user_name u) as [nm|] eqn:Hn; [|done].
    destruct (user_password u) as [pw|] eqn:Hp; [|done].
    destruct (user_id u) as [i|] eqn:Hi; [|done].
    destruct (validate_users rest) as [rest'|]; [|done].
    intros [= <-]. constructor; [|by apply IH].
    destruct (user_role u) as [r|] eqn:Hr; cbn; rewrite ?Hn, ?Hp, ?Hi, ?Hr;
      by split_and!.
Qed.

Lemma has_owner_spec users_data :
  has_owner users_data = true ↔ ∃ u, u ∈ users_data ∧ user_role u = Some "owner".
Proof.
  unfold has_owner. rewrite existsb_exists. split.
  - intros (u & Hu%list_elem_of_In & Hr%bool_decide_eq_true). by exists u.
  - intros (u & Hu & Hr). exists u. split; [by apply list_elem_of_In|].
    by apply bool_decide_eq_true.
Qed.

(** The accounts that a restored backup must hold: the entries of the
    backup with their identifier, name and password, each with a role, and
    an owner among them. *)
Lemma users_to_restore_spec parsed users :
  users_to_restore parsed = Some users →
  ∃ users_data,
    (parsed = Some (JsonUsers users_data)
     ∨ ∃ u, parsed = Some (JsonUser u) ∧ users_data = [u])
    ∧ Forall2 (λ u v, user_id v = user_id u ∧ user_name v = user_name u
                      ∧ user_password v = user_password u
                      ∧ is_Some (user_id v) ∧ is_Some (user_name v)
                      ∧ is_Some (user_password v) ∧ is_Some (user_role v))
              users_data users
    ∧ ∃ u, u ∈ users ∧ user_role u = Some "owner".
Proof.
  unfold users_to_restore. destruct parsed as [data|]; [|done].
  assert (∀ users_data, 
    match validate_users users_data with
    | Some users_data =>
        if has_owner users_data then Some users_data
        else match users_data with
             | [] => None
             | u :: rest => Some (set_user_role "owner" u :: rest)
             end
    | None => None
    end = Some users →
    Forall2 (λ u v, user_id v = user_id u ∧ user_name v = user_name u
                      ∧ user_password v = user_password u
                      ∧ is_Some (user_id v) ∧ is_Some (user_name v)
                      ∧ is_Some (user_password v) ∧ is_Some (user_role v))
              users_data users
    ∧ ∃ u, u ∈ users ∧ user_role u = Some "owner") as Hcore.
  { intros users_data.
    destruct (validate_users users_data) as [valid|] eqn:Hv; [|done].
    apply validate_users_spec in Hv.
    destruct (has_owner valid) eqn:Ho.
    - intros [= <-]. split; [|by apply has_owner_spec].
      eapply Forall2_impl; [done|]. cbn. intros u v (?&?&?&?&?&?&?). by split_and!.
    - destruct Hv as [|u v rest rest' Huv Hrest]; [done|]. intros [= <-]. split.
      + constructor.
        * cbn. destruct Huv as (?&?&?&?&?&?&?). by split_and!.
        * eapply Forall2_impl; [done|]. cbn. intros ?? (?&?&?&?&?&?&?). by split_and!.
      + eexists. split; [by left|done]. }
  destruct data as [users_data|u|]; [| |done].
  - intros H. exists users_data. split; [by left|]. by apply Hcore.
  - destruct (user_name u); [|done]. intros H. exists [u].
    split; [right; by exists u|]. by apply Hcore.
Qed.

(** X29. [upload_users_backup] replaces the accounts only for the owner and a
    backup that parses; the accounts written are the entries of the backup,
    in order and with their identifier, name and password, every one has a
    role and one of them is an owner.  Otherwise the accounts stay. *)
Theorem restored_users_are_complete_with_an_owner (session : option string)
    (users : list user) (upload : option backup_file) (n : user_notice)
    (users' : list user) :
  upload_users_backup session users upload = (Ret n, users') →
  (n ≠ UsersRestored ∧ users' = users)
  ∨ (n = UsersRestored
     ∧ ∃ uid g_user file users_data,
         session = Some uid
         ∧ get_user_by_id uid users = Ret (Some g_user)
         ∧ user_role g_user = Some "owner"
         ∧ upload = Some file
         ∧ endswith (filename file) ".json" = true
         ∧ (parsed file = Some (JsonUsers users_data)
            ∨ ∃ u, parsed file = Some (JsonUser u) ∧ users_data = [u])
         ∧ Forall2 (λ u v, user_id v = user_id u ∧ user_name v = user_name u
                           ∧ user_password v = user_password u
                           ∧ is_Some (user_id v) ∧ is_Some (user_name v)
                           ∧ is_Some (user_password v) ∧ is_Some (user_role v))
                   users_data users'
         ∧ ∃ u, u ∈ users' ∧ user_role u = Some "owner").
Proof.
  unfold upload_users_backup. intros H.
  apply with_logged_in_user_spec in H as [[-> ->]|(uid & g_user & -> & Hg & H)];
    [by left|].
  case_decide as Hrole; [|simplify_eq; by left].
  destruct upload as [file|]; [|simplify_eq; by left].
  case_decide as Hname; [simplify_eq; by left|].
  destruct (endswith (filename file) ".json") eqn:Hjson; [|simplify_eq; by left].
  destruct (users_to_restore (parsed file)) as [users_data|] eqn:Hr;
    [|simplify_eq; by left].
  injection H as <- <-. right. split; [done|].
  apply users_to_restore_spec in Hr as (data & Hp & Hall & Hown).
  by exists uid, g_user, file, data.
Qed.

Lemma restored_users_are_complete_with_an_owner_witness :
  upload_users_backup (Some "1") sample_users (Some old_backup)
  = (Ret UsersRestored, [account "7" "eve" "owner"; account "8" "bob" "admin"])
  ∧ ∃ u, u ∈ [account "7" "eve" "owner"; account "8" "bob" "admin"]
         ∧ user_role u = Some "owner".
Proof.
  assert (upload_users_backup (Some "1") sample_users (Some old_backup)
          = (Ret UsersRestored, [account "7" "eve" "owner"; account "8" "bob" "admin"]))
    as H by reflexivity.
  split; [exact H|].
  destruct (restored_users_are_complete_with_an_owner _ _ _ _ _ H)
    as [[Hn _]|(_ & _ & _ & _ & _ & _ & _ & _ & _ & _ & _ & _ & Hown)]; [done|].
  exact Hown.
Defined.
